(** * The cache module of algostack (src/modules/cache/cache.ts)

    A shallow embedding of the cache engine: key normalisation
    ([hashObjectProps]), the expiration policy ([getExpiration],
    [isExpired]), and the public operations [find], [save] and [prune]
    together with the error handler ([handleError], [clearAll]).

    The engine runs on top of a persistent table store (Dexie over
    IndexedDB).  The store is a collaborator of the module, not part of
    it: it is represented by its contract (tables of rows in primary-key
    order, equality lookup, ordering, upsert, bulk delete, container
    deletion), and every request sent to it may be answered by an error
    taken from a script of faults carried by the world.  What belongs
    to the library alone is outside this contract: which of its handles
    offers which method (every clause of a query is taken to apply to
    what the previous one returned), the names of the handle's own
    members (a store name is a declared store or nothing), and the
    reopening of a deleted container (its tables start again empty).

    The module in its lookup form (src/modules/Cache/Cache.ts), whose
    [find] takes the key fields of one entry, is embedded in
    [LookupCache], on the same table store. *)

From Stdlib Require Import List ZArith Bool String Ascii Lia Arith.
From Stdlib Require Import Permutation Sorting.Sorted.
Import ListNotations.

Local Open Scope string_scope.
Local Open Scope Z_scope.

Set Implicit Arguments.
Set Warnings "-register-all".

(* ================================================================== *)
(** ** JavaScript values and objects *)
(* ================================================================== *)

(** The values that travel through the cache: key fields, payloads
    and rows.  Numbers are the integral ones (identifiers, timestamps
    in milliseconds). *)
Inductive JsValue : Type :=
| JUndefined
| JNull
| JBool (b : bool)
| JNum (n : Z)
| JStr (s : string)
| JArr (items : list JsValue)
| JObj (fields : list (string * JsValue)).

(** An object is its list of own properties in enumeration order. *)
Definition JsObject := list (string * JsValue).

(** [typeof value === 'object'] holds of [null], arrays and objects. *)
Definition typeof_object (v : JsValue) : bool :=
  match v with
  | JNull | JArr _ | JObj _ => true
  | _ => false
  end.

(** [Array.isArray(value)]. *)
Definition isArray (v : JsValue) : bool :=
  match v with
  | JArr _ => true
  | _ => false
  end.

(** [value === null || value === undefined]. *)
Definition nullish (v : JsValue) : bool :=
  match v with
  | JNull | JUndefined => true
  | _ => false
  end.

(** [o[k]] *)
Fixpoint obj_get (V : Type) (k : string) (o : list (string * V)) : option V :=
  match o with
  | [] => None
  | (k', v) :: rest => if String.eqb k k' then Some v else obj_get k rest
  end.

(** [o[k] = v]: an existing property keeps its place, a new one goes
    last. *)
Fixpoint obj_set (V : Type) (k : string) (v : V) (o : list (string * V))
  : list (string * V) :=
  match o with
  | [] => [(k, v)]
  | (k', v') :: rest =>
      if String.eqb k k' then (k, v) :: rest else (k', v') :: obj_set k v rest
  end.

(** [delete o[k]] *)
Fixpoint obj_delete (V : Type) (k : string) (o : list (string * V))
  : list (string * V) :=
  match o with
  | [] => []
  | (k', v') :: rest =>
      if String.eqb k k' then obj_delete k rest else (k', v') :: obj_delete k rest
  end.

(** [{...a, ...b}] *)
Definition obj_spread (V : Type) (a b : list (string * V)) : list (string * V) :=
  fold_left (fun acc kv => obj_set (fst kv) (snd kv) acc) b a.

Definition obj_keys (V : Type) (o : list (string * V)) : list string :=
  map fst o.

(** Property names of an object are pairwise distinct. *)
Definition wf_obj (V : Type) (o : list (string * V)) : Prop :=
  NoDup (obj_keys o).

(* ================================================================== *)
(** ** Keys of the table store *)
(* ================================================================== *)

(** The values that IndexedDB accepts as keys, among those of
    [JsValue]: numbers, strings, and arrays of keys. *)
Inductive Key : Type :=
| KNum (n : Z)
| KStr (s : string)
| KArr (items : list Key).

Fixpoint to_key (v : JsValue) : option Key :=
  match v with
  | JNum n => Some (KNum n)
  | JStr s => Some (KStr s)
  | JArr items =>
      let fix go (l : list JsValue) : option (list Key) :=
        match l with
        | [] => Some []
        | x :: rest =>
            match to_key x, go rest with
            | Some k, Some ks => Some (k :: ks)
            | _, _ => None
            end
        end in
      match go items with
      | Some ks => Some (KArr ks)
      | None => None
      end
  | _ => None
  end.

(** The key order of IndexedDB: numbers before strings before arrays,
    arrays compared item by item. *)
Fixpoint key_compare (a b : Key) : comparison :=
  match a, b with
  | KNum x, KNum y => Z.compare x y
  | KNum _, _ => Lt
  | KStr _, KNum _ => Gt
  | KStr x, KStr y => String.compare x y
  | KStr _, KArr _ => Lt
  | KArr xs, KArr ys =>
      (fix go (l : list Key) (r : list Key) : comparison :=
         match l, r with
         | [], [] => Eq
         | [], _ :: _ => Lt
         | _ :: _, [] => Gt
         | x :: l', y :: r' =>
             match key_compare x y with
             | Eq => go l' r'
             | c => c
             end
         end) xs ys
  | KArr _, _ => Gt
  end.

Definition key_eqb (a b : Key) : bool :=
  match key_compare a b with Eq => true | _ => false end.

Definition key_leb (a b : Key) : bool :=
  match key_compare a b with Gt => false | _ => true end.

(* ------------------------------------------------------------------ *)
(** *** Induction on keys *)

Section KeyInduction.
Variable P : Key -> Prop.
Hypothesis Hnum : forall n, P (KNum n).
Hypothesis Hstr : forall s, P (KStr s).
Hypothesis Harr : forall items, Forall P items -> P (KArr items).

Fixpoint Key_nested_ind (k : Key) : P k :=
  match k with
  | KNum n => Hnum n
  | KStr s => Hstr s
  | KArr items =>
      Harr ((fix all (l : list Key) : Forall P l :=
               match l with
               | [] => Forall_nil P
               | x :: rest => Forall_cons x (Key_nested_ind x) (all rest)
               end) items)
  end.
End KeyInduction.

(* ================================================================== *)
(** ** Structural equality of values *)
(* ================================================================== *)

(** Two values are structurally equal when they have the same shape,
    arrays item by item, objects field by field whatever the order in
    which the fields were written. *)
Inductive js_equiv : JsValue -> JsValue -> Prop :=
| equiv_undefined : js_equiv JUndefined JUndefined
| equiv_null : js_equiv JNull JNull
| equiv_bool b : js_equiv (JBool b) (JBool b)
| equiv_num n : js_equiv (JNum n) (JNum n)
| equiv_str s : js_equiv (JStr s) (JStr s)
| equiv_arr l1 l2 :
    Forall2 js_equiv l1 l2 -> js_equiv (JArr l1) (JArr l2)
| equiv_obj o1 o2 o2' :
    Permutation o2' o2 ->
    Forall2 (fun f g => fst f = fst g /\ js_equiv (snd f) (snd g)) o1 o2' ->
    js_equiv (JObj o1) (JObj o2).

Section ValueInduction.
Variable P : JsValue -> Prop.
Hypothesis Hundefined : P JUndefined.
Hypothesis Hnull : P JNull.
Hypothesis Hbool : forall b, P (JBool b).
Hypothesis Hnum : forall n, P (JNum n).
Hypothesis Hstr : forall s, P (JStr s).
Hypothesis Harr : forall items, Forall P items -> P (JArr items).
Hypothesis Hobj :
  forall fields, Forall (fun f => P (snd f)) fields -> P (JObj fields).

Fixpoint JsValue_nested_ind (v : JsValue) : P v :=
  match v with
  | JUndefined => Hundefined
  | JNull => Hnull
  | JBool b => Hbool b
  | JNum n => Hnum n
  | JStr s => Hstr s
  | JArr items =>
      Harr ((fix all (l : list JsValue) : Forall P l :=
               match l with
               | [] => Forall_nil P
               | x :: rest => Forall_cons x (JsValue_nested_ind x) (all rest)
               end) items)
  | JObj fields =>
      Hobj ((fix all (l : list (string * JsValue))
               : Forall (fun f => P (snd f)) l :=
               match l with
               | [] => Forall_nil _
               | f :: rest =>
                   Forall_cons f (JsValue_nested_ind (snd f)) (all rest)
               end) fields)
  end.
End ValueInduction.

(* ================================================================== *)
(** ** Key normalisation *)
(* ================================================================== *)

Section Normalisation.

(** The fingerprint of the [object-hash] package. *)
Variable objHash : JsValue -> string.

(** One turn of the [forEach] loop of [hashObjectProps], on the
    object being rewritten in place. *)
Definition hashObjectProps_step (result : JsObject) (kv : string * JsValue)
  : JsObject :=
  let (key, value) := kv in
  let result :=
    if typeof_object value && negb (isArray value)
    then obj_set key (JStr (objHash value)) result
    else result in
  if nullish value then obj_delete key result else result.

(** [hashObjectProps] of cache/cache.ts, on an entry that is an
    object: the loop runs over the entries the object had on
    entering. *)
Definition hashObjectProps (entry : JsObject) : JsObject :=
  fold_left hashObjectProps_step entry entry.

(** [filterCacheEntry] of Cache/Cache.ts: the same loop. *)
Definition filterCacheEntry (entry : JsObject) : JsObject :=
  fold_left
    (fun (result : JsObject) (kv : string * JsValue) =>
       let (key, value) := kv in
       let result :=
         if typeof_object value && negb (isArray value)
         then obj_set key (JStr (objHash value)) result
         else result in
       if nullish value then obj_delete key result else result)
    entry entry.

(** What the loop leaves of one field. *)
Definition normal_value (v : JsValue) : option JsValue :=
  if nullish v then None
  else if typeof_object v && negb (isArray v) then Some (JStr (objHash v))
  else Some v.

(** The normalised object, field by field. *)
Definition normal_form (o : JsObject) : JsObject :=
  flat_map
    (fun kv => match normal_value (snd kv) with
               | Some v' => [(fst kv, v')]
               | None => []
               end) o.

End Normalisation.

(* ================================================================== *)
(** ** The table store *)
(* ================================================================== *)

(** A row of a table is the object that was put. *)
Definition Row := JsObject.

(** The key a row has under a key path, when the property is there
    and is a key. *)
Definition row_key (path : string) (r : Row) : option Key :=
  match obj_get path r with
  | Some v => to_key v
  | None => None
  end.

(** Keys that may be missing, missing first. *)
Definition okey_leb (a b : option Key) : bool :=
  match a, b with
  | None, _ => true
  | Some _, None => false
  | Some x, Some y => key_leb x y
  end.

Definition okey_eqb (a b : option Key) : bool :=
  match a, b with
  | Some x, Some y => key_eqb x y
  | _, _ => false
  end.

Section Sorting.
Variable A : Type.
Variable leb : A -> A -> bool.

(** Insertion before the first element that is not smaller: equal
    elements keep their order of arrival. *)
Fixpoint insert_sorted (x : A) (l : list A) : list A :=
  match l with
  | [] => [x]
  | h :: t => if leb x h then x :: h :: t else h :: insert_sorted x t
  end.

Definition sort (l : list A) : list A := fold_right insert_sorted [] l.
End Sorting.

(** The index shapes of Dexie: comma-separated key paths, the first
    being the primary key; [&], [*] and [+] are markers. *)
Definition is_marker (c : ascii) : bool :=
  (Ascii.eqb c "&" || Ascii.eqb c "*" || Ascii.eqb c "+" || Ascii.eqb c " ")%char.

Fixpoint first_segment (s : string) : string :=
  match s with
  | EmptyString => EmptyString
  | String c rest =>
      if Ascii.eqb c "," then EmptyString else String c (first_segment rest)
  end.

Fixpoint strip_markers (s : string) : string :=
  match s with
  | EmptyString => EmptyString
  | String c rest => if is_marker c then strip_markers rest else s
  end.

Definition primKey (shape : string) : string :=
  first_segment (strip_markers shape).

(** [Table.put]: the row takes the place of the row with the same
    primary key, if any; a row without a primary key is refused. *)
Definition table_put (pk : string) (r : Row) (rows : list Row)
  : option (list Row) :=
  match row_key pk r with
  | None => None
  | Some k =>
      Some (insert_sorted (fun a b => okey_leb (row_key pk a) (row_key pk b)) r
              (filter (fun old => negb (okey_eqb (Some k) (row_key pk old))) rows))
  end.

(** [orderBy(index)]: the rows that the index holds, by index key. *)
Definition orderBy (index : string) (rows : list Row) : list Row :=
  sort (fun a b => okey_leb (row_key index a) (row_key index b))
    (filter (fun r => match row_key index r with Some _ => true | None => false end)
       rows).

(** [where(criteria)]: equality on every property of the criteria. *)
Definition row_matches (criteria : JsObject) (r : Row) : bool :=
  forallb (fun kv => okey_eqb (to_key (snd kv)) (row_key (fst kv) r)) criteria.

Definition where_ (criteria : JsObject) (rows : list Row) : list Row :=
  filter (row_matches criteria) rows.

(* ================================================================== *)
(** ** The world the engine runs in *)
(* ================================================================== *)

(** An error as the handler reads it: [error.name] and
    [error.inner?.name]. *)
Record JsError := {
  err_name : string;
  err_inner : option string
}.

Definition TypeError : JsError :=
  {| err_name := "TypeError"; err_inner := None |}.

(** Refusal of a row that has no key under the primary key path. *)
Definition DataError : JsError :=
  {| err_name := "DataError"; err_inner := None |}.

(** [Dexie.errnames.Upgrade] *)
Definition errnames_Upgrade : string := "UpgradeError".

Inductive LogLine :=
| console_error (msg : string)
| console_warn (msg : string).

(** The handle is closed: what every request gets from the table
    store once the container has been deleted. *)
Definition DatabaseClosedError : JsError :=
  {| err_name := "DatabaseClosedError"; err_inner := None |}.

(** The container of the namespace (the rows of each table, in
    primary-key order), the clock behind [Date.now()] (its successive
    readings), the console, the answers the table store will give to
    the coming requests while its handle is open ([None]: served,
    [Some e]: fails with [e]; served when the script is over), and
    whether the handle has been closed. *)
Record World := {
  db : string -> list Row;
  clock : nat -> Z;
  tick : nat;
  console : list LogLine;
  script : list (option JsError);
  closed : bool
}.

(** The answers to the coming requests: a closed handle answers with
    [DatabaseClosedError], and goes on doing so. *)
Definition faults (w : World) : list (option JsError) :=
  if closed w then Some DatabaseClosedError :: script w else script w.

(** An asynchronous call either returns or rejects. *)
Inductive Outcome (A : Type) :=
| Returned (a : A)
| Thrown (e : JsError).
Arguments Thrown {A} e.

Definition M (A : Type) := World -> Outcome A * World.

Definition ret (A : Type) (a : A) : M A := fun w => (Returned a, w).

Definition bind (A B : Type) (m : M A) (f : A -> M B) : M B :=
  fun w =>
    match m w with
    | (Returned a, w') => f a w'
    | (Thrown e, w') => (Thrown e, w')
    end.

Definition throw (A : Type) (e : JsError) : M A := fun w => (Thrown e, w).
Arguments throw {A} e.

(** [try { m } catch (e) { h }] *)
Definition try_catch (A : Type) (m : M A) (h : JsError -> M A) : M A :=
  fun w =>
    match m w with
    | (Returned a, w') => (Returned a, w')
    | (Thrown e, w') => h e w'
    end.

Declare Scope cache_scope.
Delimit Scope cache_scope with cache.
Notation "x <- m ;; k" := (bind m (fun x => k))
  (at level 61, m at next level, right associativity) : cache_scope.
Notation "m ;; k" := (bind m (fun _ => k))
  (at level 61, right associativity) : cache_scope.
Local Open Scope cache_scope.

(** [Date.now()] *)
Definition Date_now : M Z :=
  fun w =>
    (Returned (clock w (tick w)),
     {| db := db w; clock := clock w; tick := S (tick w);
        console := console w; script := script w; closed := closed w |}).

Definition log (line : LogLine) : M unit :=
  fun w =>
    (Returned tt,
     {| db := db w; clock := clock w; tick := tick w;
        console := console w ++ [line]; script := script w; closed := closed w |}).

(** A request reaches the table store. *)
Definition request : M unit :=
  fun w =>
    if closed w then (Thrown DatabaseClosedError, w)
    else
      match script w with
      | [] => (Returned tt, w)
      | answer :: later =>
          let w' := {| db := db w; clock := clock w; tick := tick w;
                       console := console w; script := later;
                       closed := closed w |} in
          match answer with
          | None => (Returned tt, w')
          | Some e => (Thrown e, w')
          end
      end.

Definition read_table (store : string) : M (list Row) :=
  fun w => (Returned (db w store), w).

Definition write_table (store : string) (rows : list Row) : M unit :=
  fun w =>
    (Returned tt,
     {| db := fun s => if String.eqb s store then rows else db w s;
        clock := clock w; tick := tick w;
        console := console w; script := script w; closed := closed w |}).

(** [db.delete()]: the container goes, with every table in it, and
    the handle is closed: the requests that follow fail.  A deletion
    that fails leaves the container and the handle as they were. *)
Definition db_delete : M unit :=
  request ;;
  (fun w =>
     (Returned tt,
      {| db := fun _ => []; clock := clock w; tick := tick w;
         console := console w; script := script w; closed := true |})).

(** [table.put(entry)] *)
Definition put (store shape : string) (entry : Row) : M unit :=
  request ;;
  rows <- read_table store ;;
  match table_put (primKey shape) entry rows with
  | None => throw DataError
  | Some rows' => write_table store rows'
  end.

(** [table.filter(p).delete()]: the number of rows deleted. *)
Definition delete_where (store : string) (p : Row -> bool) : M Z :=
  request ;;
  rows <- read_table store ;;
  write_table store (filter (fun r => negb (p r)) rows) ;;
  ret (Z.of_nat (List.length (filter p rows))).

(* ================================================================== *)
(** ** The indexes of a table *)
(* ================================================================== *)

(** The library refuses a query that no index of the table serves. *)
Definition SchemaError : JsError :=
  {| err_name := "SchemaError"; err_inner := None |}.

Fixpoint split_on (sep : ascii) (s : string) : list string :=
  match s with
  | EmptyString => [EmptyString]
  | String c rest =>
      if Ascii.eqb c sep then EmptyString :: split_on sep rest
      else match split_on sep rest with
           | [] => [String c EmptyString]
           | h :: t => String c h :: t
           end
  end.

Fixpoint join_with (sep : string) (l : list string) : string :=
  match l with
  | [] => EmptyString
  | [x] => x
  | x :: rest => x ++ sep ++ join_with sep rest
  end.

Fixpoint trim_start (s : string) : string :=
  match s with
  | String " " rest => trim_start rest
  | _ => s
  end.

Fixpoint trim_end (s : string) : string :=
  match s with
  | EmptyString => EmptyString
  | String c rest =>
      match trim_end rest with
      | EmptyString => if Ascii.eqb c " " then EmptyString else String c EmptyString
      | kept => String c kept
      end
  end.

(** The name of an index: its declaration without [&], [*] and [++]. *)
Fixpoint remove_markers (s : string) : string :=
  match s with
  | EmptyString => EmptyString
  | String c rest =>
      if (Ascii.eqb c "&" || Ascii.eqb c "*")%char then remove_markers rest
      else
        match rest with
        | String c' rest' =>
            if (Ascii.eqb c "+" && Ascii.eqb c' "+")%char then remove_markers rest'
            else String c (remove_markers rest)
        | EmptyString => String c EmptyString
        end
  end.

Fixpoint has_star (s : string) : bool :=
  match s with
  | EmptyString => false
  | String c rest => Ascii.eqb c "*" || has_star rest
  end.

Fixpoint without_last (s : string) : option string :=
  match s with
  | EmptyString => None
  | String c EmptyString => if Ascii.eqb c "]" then Some EmptyString else None
  | String c rest =>
      match without_last rest with
      | Some kept => Some (String c kept)
      | None => None
      end
  end.

(** The key paths of a compound index [[a+b]]. *)
Definition compound_paths (name : string) : option (list string) :=
  match name with
  | String "[" rest =>
      match without_last rest with
      | Some inner => Some (split_on "+" inner)
      | None => None
      end
  | _ => None
  end.

Record IndexSpec := {
  ix_name : string;
  ix_keyPath : list string;
  ix_compound : bool;
  ix_multi : bool
}.

Definition index_spec (name : string) (multi : bool) : IndexSpec :=
  match compound_paths name with
  | Some paths =>
      {| ix_name := name; ix_keyPath := paths; ix_compound := true; ix_multi := multi |}
  | None =>
      {| ix_name := name; ix_keyPath := [name]; ix_compound := false;
         ix_multi := multi |}
  end.

Definition parse_index (declaration : string) : IndexSpec :=
  let index := trim_end (trim_start declaration) in
  index_spec (remove_markers index) (has_star index).

(** The primary key of a table, under the name that [put] reads. *)
Definition primary (shape : string) : IndexSpec :=
  index_spec (primKey shape) false.

(** The indexes of a table: the declarations after the first. *)
Definition indexes (shape : string) : list IndexSpec :=
  map parse_index (tl (split_on "," shape)).

(** The key of a row in a compound index: the keys under each of its
    paths, when the row has them all. *)
Fixpoint compound_key (paths : list string) (r : Row) : option (list Key) :=
  match paths with
  | [] => Some []
  | path :: rest =>
      match row_key path r, compound_key rest r with
      | Some k, Some ks => Some (k :: ks)
      | _, _ => None
      end
  end.

Fixpoint distinct_keys (l : list Key) : list Key :=
  match l with
  | [] => []
  | k :: rest =>
      if existsb (key_eqb k) rest then distinct_keys rest
      else k :: distinct_keys rest
  end.

Definition some_list (A : Type) (o : option A) : list A :=
  match o with
  | Some a => [a]
  | None => []
  end.

(** The keys under which an index holds a row: none when the row
    lacks the property or the property is no key; one for each
    element of an array under a multi-entry index. *)
Definition index_keys (ix : IndexSpec) (r : Row) : list Key :=
  if ix_compound ix
  then some_list (option_map KArr (compound_key (ix_keyPath ix) r))
  else
    match ix_keyPath ix with
    | [path] =>
        if ix_multi ix
        then match obj_get path r with
             | Some (JArr items) =>
                 distinct_keys (flat_map (fun v => some_list (to_key v)) items)
             | _ => some_list (row_key path r)
             end
        else some_list (row_key path r)
    | _ => []
    end.

(** A way into a table: an index, read whole or by the first
    components of its compound key. *)
Record Access := {
  via : IndexSpec;
  components : option nat
}.

Definition looked_up (a : Access) (k : Key) : Key :=
  match components a, k with
  | Some 1%nat, KArr (first :: _) => first
  | Some n, KArr ks => KArr (firstn n ks)
  | _, _ => k
  end.

Definition is_prefix (name : string) (ix : IndexSpec) : option nat :=
  if ix_compound ix
  then
    match compound_paths name with
    | Some paths =>
        let n := List.length paths in
        if (n <? List.length (ix_keyPath ix))%nat
           && String.eqb (join_with "+" paths)
                (join_with "+" (firstn n (ix_keyPath ix)))
        then Some n else None
    | None =>
        match ix_keyPath ix with
        | first :: _ :: _ => if String.eqb name first then Some 1%nat else None
        | _ => None
        end
    end
  else None.

Fixpoint first_some (A B : Type) (f : A -> option B) (l : list A) : option B :=
  match l with
  | [] => None
  | x :: rest =>
      match f x with
      | Some b => Some b
      | None => first_some f rest
      end
  end.

(** The index that answers to a name: the primary key, an index
    declared under the name, or a compound index that begins with
    it. *)
Definition index_named (shape : string) (name : string) : option Access :=
  if String.eqb name (ix_name (primary shape))
  then Some {| via := primary shape; components := None |}
  else
    match List.find (fun ix => String.eqb name (ix_name ix)) (indexes shape) with
    | Some ix => Some {| via := ix; components := None |}
    | None =>
        first_some
          (fun ix => match is_prefix name ix with
                     | Some n => Some {| via := ix; components := Some n |}
                     | None => None
                     end)
          (sort (fun a b => (List.length (ix_keyPath a)
                             <=? List.length (ix_keyPath b))%nat)
             (primary shape :: indexes shape))
    end.

(** The entries of an index, in its order: by key, and by primary
    key under one key. *)
Definition index_entries (a : Access) (rows : list Row) : list (Key * Row) :=
  sort (fun x y => key_leb (fst x) (fst y))
    (flat_map (fun r => map (fun k => (k, r)) (index_keys (via a) r)) rows).

(** What a chain of clauses has come to: the error its execution will
    meet, if any, and the rows it yields from those of the table. *)
Record Deferred := {
  refusal : option JsError;
  yields : list Row -> list Row
}.

Definition refused (e : JsError) : Deferred :=
  {| refusal := Some e; yields := fun _ => [] |}.

(** [table.where(name).equals(value)]: the library refuses a name
    without an index, and a value that is no key. *)
Definition where_equals (shape name : string) (value : JsValue) : Deferred :=
  match index_named shape name with
  | None => refused SchemaError
  | Some a =>
      match to_key value with
      | None =>
          match value with
          | JNull | JUndefined => refused TypeError
          | _ => refused DataError
          end
      | Some k =>
          {| refusal := None;
             yields := fun rows =>
               map snd (filter (fun e => key_eqb k (looked_up a (fst e)))
                          (index_entries a rows)) |}
      end
  end.

(** [table.orderBy(name)] *)
Definition ordered_by (shape name : string) : Deferred :=
  match index_named shape name with
  | None => refused SchemaError
  | Some a => {| refusal := None; yields := fun rows => map snd (index_entries a rows) |}
  end.

(** The handle a clause of [find] is applied to: the table itself,
    or a collection that an earlier clause gave; with what its
    execution will come to. *)
Record Chain := {
  is_collection : bool;
  over : Deferred
}.

Definition the_table : Chain :=
  {| is_collection := false;
     over := {| refusal := None; yields := fun rows => rows |} |}.

(** [collection.desc()] *)
Definition reversed (c : Chain) : Chain :=
  {| is_collection := true;
     over := {| refusal := refusal (over c);
                yields := fun rows => rev (yields (over c) rows) |} |}.

(** [table.filter(p)], [collection.filter(p)] *)
Definition filtered (p : Row -> bool) (c : Chain) : Chain :=
  {| is_collection := true;
     over := {| refusal := refusal (over c);
                yields := fun rows => filter p (yields (over c) rows) |} |}.

(** [table.where(criteria)]: a criterion alone goes to the index of
    its name; several go to a compound index that holds them all,
    failing that to the first that has an index, the others being
    compared row by row; and to no index when there is none. *)
Definition compound_for (shape : string) (keyPaths : list string) : option IndexSpec :=
  hd_error
    (sort (fun a b => (List.length (ix_keyPath a) <=? List.length (ix_keyPath b))%nat)
       (filter
          (fun ix =>
             ix_compound ix
             && forallb (fun kp => existsb (String.eqb kp) (ix_keyPath ix)) keyPaths
             && forallb (fun kp => existsb (String.eqb kp) keyPaths)
                  (firstn (List.length keyPaths) (ix_keyPath ix)))
          (indexes shape ++ [primary shape]))).

Definition declared_index (shape : string) (name : string) : option IndexSpec :=
  List.find (fun ix => String.eqb name (ix_name ix)) (indexes shape).

Definition value_of (criteria : JsObject) (name : string) : JsValue :=
  match obj_get name criteria with
  | Some v => v
  | None => JUndefined
  end.

(** The comparison of a row with one criterion. *)
Definition criterion_holds (shape : string) (kv : string * JsValue) (r : Row) : bool :=
  match to_key (snd kv) with
  | None => false
  | Some k =>
      match declared_index shape (fst kv), obj_get (fst kv) r with
      | Some ix, Some (JArr items) =>
          if ix_multi ix
          then existsb (fun item => match to_key item with
                                    | Some k' => key_eqb k k'
                                    | None => false
                                    end) items
          else okey_eqb (Some k) (row_key (fst kv) r)
      | Some ix, _ => if ix_multi ix then false else okey_eqb (Some k) (row_key (fst kv) r)
      | None, _ => okey_eqb (Some k) (row_key (fst kv) r)
      end
  end.

Definition Table_where (shape : string) (criteria : JsObject) : Deferred :=
  match criteria with
  | [(name, value)] => where_equals shape name value
  | _ =>
      let keyPaths := obj_keys criteria in
      match compound_for shape keyPaths with
      | Some ix =>
          let paths := firstn (List.length keyPaths) (ix_keyPath ix) in
          where_equals shape ("[" ++ join_with "+" paths ++ "]")
            (JArr (map (value_of criteria) paths))
      | None =>
          match List.find (fun kv => match declared_index shape (fst kv) with
                                     | Some _ => true
                                     | None => false
                                     end) criteria with
          | Some (name, value) =>
              let found := where_equals shape name value in
              {| refusal := refusal found;
                 yields := fun rows =>
                   filter (fun r =>
                             forallb (fun kv => String.eqb (fst kv) name
                                                || criterion_holds shape kv r)
                               criteria)
                     (yields found rows) |}
          | None =>
              where_equals shape ("[" ++ join_with "+" keyPaths ++ "]") (JStr "")
          end
      end
  end.

(* ================================================================== *)
(** ** The cache instance *)
(* ================================================================== *)

(** A store declared by the caller: a bare name, or a name with an
    index shape. *)
Inductive StoreDecl :=
| StoreName (name : string)
| StoreWithIndex (name : string) (index : option string).

(** The durations by store, as strings such as ["1h"] or ["2s"], with
    the [default] one. *)
Record Expiration := {
  exp_default : string;
  exp_stores : list (string * string)
}.

Record CacheConfigs := {
  namespace : string;
  stores : list StoreDecl;
  logExpiration : bool;
  expiration : Expiration
}.

(** The configuration the constructor starts from. *)
Definition default_configs : CacheConfigs :=
  {| namespace := "algostack";
     stores := [];
     logExpiration := false;
     expiration :=
       {| exp_default := "1h";
          exp_stores :=
            [ ("indexer/asset", "1w");
              ("indexer/assetBalances", "2s");
              ("indexer/assetTransactions", "2s");
              ("indexer/assets", "5m");
              ("indexer/block", "1w");
              ("indexer/transaction", "1w");
              ("node/account", "10s");
              ("node/teal", "6h");
              ("nfd/lookup", "1h");
              ("nfd/search", "1m");
              ("addons/icon", "1d");
              ("medias/asset", "1d") ] |} |}.

(** What the constructor is given: every part is optional. *)
Record UserConfigs := {
  user_namespace : option string;
  user_stores : option (list StoreDecl);
  user_logExpiration : option bool;
  user_expiration_default : option string;
  user_expiration : list (string * string)
}.

(** [merge({...defaults}, configs)] *)
Definition merge (d : CacheConfigs) (u : UserConfigs) : CacheConfigs :=
  {| namespace := match user_namespace u with Some n => n | None => namespace d end;
     stores := match user_stores u with Some l => l | None => stores d end;
     logExpiration :=
       match user_logExpiration u with Some b => b | None => logExpiration d end;
     expiration :=
       {| exp_default :=
            match user_expiration_default u with
            | Some s => s
            | None => exp_default (expiration d)
            end;
          exp_stores := obj_spread (exp_stores (expiration d)) (user_expiration u) |} |}.

(** The part of the stack that [init] reads. *)
Record AlgoStack := {
  query : bool;
  nfds : bool;
  medias : bool;
  version : Z
}.

(** What the handle of the library holds under a name that is not
    one of its tables: a value that is falsy, an array, or anything
    else (a method, an object, a string). *)
Inductive Member :=
| member_falsy
| member_array (items : list JsObject)
| member_other.

(** The members of the handle that the interface of the library
    documents, and those every object has; the library may hold
    others. *)
Definition library_members : list (string * Member) :=
  map (fun name => (name, member_other))
    [ "name"; "open"; "close"; "on"; "table"; "transaction"; "isOpen";
      "hasFailed"; "hasBeenClosed"; "backendDB"; "dynamicallyOpened"; "use";
      "unuse"; "constructor"; "toString"; "valueOf"; "hasOwnProperty";
      "isPrototypeOf"; "propertyIsEnumerable"; "toLocaleString" ].

(** The instance: its configuration, the schema version, and the
    tables of its handle with their index shapes. *)
Record Cache := {
  configs : CacheConfigs;
  v : Z;
  tables : list (string * string)
}.

Definition new_Cache (u : UserConfigs) : Cache :=
  {| configs := merge default_configs u; v := 1; tables := [] |}.

Definition query_stores : list (string * string) :=
  [ ("indexer/account", "&params");
    ("indexer/accountAssets", "&params");
    ("indexer/accountApplications", "&params");
    ("indexer/accountTransactions", "&params");
    ("indexer/application", "&params");
    ("indexer/applicationBox", "&params");
    ("indexer/applicationBoxes", "&params");
    ("indexer/asset", "&params");
    ("indexer/assetBalances", "&params");
    ("indexer/assetTransactions", "&params");
    ("indexer/block", "&params");
    ("indexer/txn", "&params");
    ("node/account", "&params");
    ("node/accountApplication", "&params");
    ("node/accountAsset", "&params");
    ("node/block", "&params");
    ("node/blockProof", "&params");
    ("node/blockTransactionProof", "&params");
    ("node/teal", "&params");
    ("indexer/applications", "&params");
    ("indexer/accounts", "&params");
    ("indexer/assets", "&params");
    ("indexer/txns", "&params") ].

Definition nfd_stores : list (string * string) :=
  [ ("nfd/lookup", "&address, nfd"); ("nfd/search", "&params") ].

Definition media_stores : list (string * string) :=
  [ ("medias/asset", "&id") ].

(** The extra stores of the configuration, with their index shapes. *)
Definition extraStores (decls : list StoreDecl) : list (string * string) :=
  fold_left
    (fun (acc : list (string * string)) (store : StoreDecl) =>
       match store with
       | StoreName name => obj_set name "&params" acc
       | StoreWithIndex name index =>
           obj_set name
             (match index with
              | Some i => if String.eqb i "" then "&params" else i
              | None => "&params"
              end) acc
       end)
    decls [].

(** [init(stack)] *)
Definition init (this : Cache) (stack : AlgoStack) : Cache :=
  let stores0 : list (string * string) := [] in
  let stores1 := if query stack then obj_spread stores0 query_stores else stores0 in
  let stores2 := if nfds stack then obj_spread stores1 nfd_stores else stores1 in
  let stores3 := if medias stack then obj_spread stores2 media_stores else stores2 in
  let stores4 :=
    match stores (configs this) with
    | [] => stores3
    | decls => obj_spread (extraStores decls) stores3
    end in
  {| configs := configs this; v := version stack; tables := stores4 |}.

(** The number that a property name is, when it is the decimal
    writing of an array index. *)
Fixpoint decimal (s : string) (acc : N) : option N :=
  match s with
  | EmptyString => Some acc
  | String c rest =>
      let n := N_of_ascii c in
      if ((48 <=? n) && (n <=? 57))%N then decimal rest (10 * acc + (n - 48))%N
      else None
  end.

Definition array_index (name : string) : option N :=
  match name with
  | EmptyString => None
  | String "0" EmptyString => Some 0%N
  | String "0" _ => None
  | _ =>
      match decimal name 0%N with
      | Some n => if (n <? 4294967295)%N then Some n else None
      | None => None
      end
  end.

Definition index_leb (a b : string) : bool :=
  match array_index a, array_index b with
  | Some x, Some y => (x <=? y)%N
  | _, _ => true
  end.

(** The names of [this.db.tables], as the keys of an object are
    enumerated: those that are array indexes first, in ascending
    order, then the others as they were written. *)
Definition table_names (this : Cache) : list string :=
  let names := obj_keys (tables this) in
  sort index_leb
    (filter (fun n => match array_index n with Some _ => true | None => false end)
       names)
  ++ filter (fun n => match array_index n with Some _ => false | None => true end)
       names.

(** One of the objects of [this.db.tables]. *)
Definition table_object (name : string) : JsObject := [("name", JStr name)].

(** [this.db[store]]: a table; failing that a member of the handle,
    [members] being those it has besides [version], [tables] and
    [delete], which the module itself reads; failing that nothing. *)
Inductive Lookup :=
| is_table (shape : string)
| is_member (m : Member)
| is_undefined.

Definition handle (members : list (string * Member)) (this : Cache)
           (store : string) : Lookup :=
  match obj_get store (tables this) with
  | Some shape => is_table shape
  | None =>
      if String.eqb store "tables"
      then is_member (member_array (map table_object (table_names this)))
      else if String.eqb store "version" || String.eqb store "delete"
      then is_member member_other
      else
        match obj_get store members with
        | Some m => is_member m
        | None => is_undefined
        end
  end.

(* ================================================================== *)
(** ** The engine *)
(* ================================================================== *)

(** [CacheQuery] *)
Record CacheQuery := {
  q_where : option JsObject;
  q_orderBy : option string;
  q_order : option string;
  q_filter : option (Row -> bool);
  q_includeExpired : bool;
  q_limit : option Z
}.

(** What [find] resolves to: [first()] gives an entry or
    [undefined], [toArray()] an array. *)
Inductive FindResult :=
| Entry (e : option Row)
| Entries (l : list Row).

(** The query of a collection: from the rows of the table to the rows
    it yields, in order. *)
Definition Collection := list Row -> list Row.

(** [entry.timestamp], as the sum and the comparisons of the module
    read it: a number; [null] and [false] count 0 and [true] 1; with
    no timestamp, or an undefined one, they compare nothing (the
    comparison is false).  The timestamps that [save] writes are
    numbers; one that is a string or an object is read here as one
    that is not there. *)
Definition entry_timestamp (entry : Row) : option Z :=
  match obj_get "timestamp" entry with
  | Some (JNum t) => Some t
  | Some JNull => Some 0
  | Some (JBool b) => Some (if b then 1 else 0)
  | _ => None
  end.

(** A string is truthy when it is not empty. *)
Definition truthy (s : option string) : option string :=
  match s with
  | Some "" => None
  | other => other
  end.

(** *** The vocabulary of the properties *)

(** The line [isExpired] may leave on the console. *)
Definition expiration_warning (store : string) : LogLine :=
  console_warn ("[" ++ store ++ "] Cache entry has expired.")%string.

Definition store_not_found (store : string) : LogLine :=
  console_error ("Store not found (" ++ store ++ ")")%string.

Definition limit_count (query : CacheQuery) : nat :=
  match q_limit query with
  | None => 1%nat
  | Some limit => Z.to_nat limit
  end.

Definition shape_result (query : CacheQuery) (found : list Row) : FindResult :=
  match q_limit query with
  | None => Entry (hd_error found)
  | Some _ => Entries found
  end.

(** What [find] returned, as a set of entries. *)
Definition returned (result : Outcome FindResult) (entry : Row) : Prop :=
  match result with
  | Returned (Entry (Some e)) => entry = e
  | Returned (Entries l) => In entry l
  | _ => False
  end.

(** [entry.timestamp < expirationLimit] *)
Definition stale (expirationLimit : Z) (entry : Row) : bool :=
  match entry_timestamp entry with
  | Some t => t <? expirationLimit
  | None => false
  end.

(** The table store serves every request to come. *)
Definition serving (w : World) : Prop := Forall (fun answer => answer = None) (faults w).

(** The error carries the schema-upgrade signal, in its own name or in
    the name of its inner error. *)
Definition upgrade_signal (error : JsError) : bool :=
  existsb (String.eqb errnames_Upgrade)
    (err_name error ::
       match truthy (err_inner error) with
       | Some inner => [inner]
       | None => []
       end).

Definition upgrade_warning : LogLine :=
  console_warn
    "An error occured while upgrading IndexedDB tables. Clearing IndexedDB Cache.".

(** The calls a client makes. *)
Inductive Call :=
| call_find (store : string) (query : CacheQuery)
| call_save (store : string) (data : JsValue) (entry : JsObject)
| call_prune (targets : option (string + list string)).

(** Every entry of the container carries, as its timestamp, a reading
    of the clock that was taken before now. *)
Definition stamped (w : World) : Prop :=
  forall s x, In x (db w s) ->
              exists n, (n < tick w)%nat /\ entry_timestamp x = Some (clock w n).

(** A query by key fields alone. *)
Definition where_query (criteria : JsObject) (includeExpired : bool) : CacheQuery :=
  {| q_where := Some criteria; q_orderBy := None; q_order := None;
     q_filter := None; q_includeExpired := includeExpired; q_limit := None |}.

(* ================================================================== *)
(** ** Reference collaborators *)
(* ================================================================== *)

(** Modelled from the spec: [durationStringToMs] of helpers/format.js,
    which the module imports.  A duration is an integer magnitude
    followed by one of [s], [m], [h], [d], [w]; anything else is an
    error, rendered here as [None]. *)
Definition digit_of (c : ascii) : option Z :=
  let n := Z.of_N (N_of_ascii c) in
  if (48 <=? n) && (n <=? 57) then Some (n - 48) else None.

Fixpoint parse_magnitude (s : string) (acc : option Z) : option Z * string :=
  match s with
  | EmptyString => (acc, EmptyString)
  | String c rest =>
      match digit_of c with
      | Some d =>
          parse_magnitude rest
            (Some (10 * (match acc with Some a => a | None => 0 end) + d))
      | None => (acc, s)
      end
  end.

Definition unit_ms (u : string) : option Z :=
  if String.eqb u "s" then Some 1000
  else if String.eqb u "m" then Some 60000
  else if String.eqb u "h" then Some 3600000
  else if String.eqb u "d" then Some 86400000
  else if String.eqb u "w" then Some 604800000
  else None.

Definition parse_duration (s : string) : option Z :=
  match parse_magnitude s None with
  | (Some n, u) =>
      match unit_ms u with
      | Some ms => Some (n * ms)
      | None => None
      end
  | (None, _) => None
  end.

(** The helper as a total function, for configurations whose
    durations are all well formed. *)
Definition duration_ms (s : string) : Z :=
  match parse_duration s with
  | Some ms => ms
  | None => 0
  end.

(** A fingerprint in the manner of [object-hash]: the fields of an
    object enter it through a sum, so that the order in which they
    were written does not show. *)
Fixpoint string_digest (s : string) : Z :=
  match s with
  | EmptyString => 7
  | String c rest => Z.of_N (N_of_ascii c) + 31 * string_digest rest
  end.

Fixpoint digest (v : JsValue) : Z :=
  match v with
  | JUndefined => 1
  | JNull => 2
  | JBool b => if b then 3 else 4
  | JNum n => 5 + 11 * n
  | JStr s => 6 + 13 * string_digest s
  | JArr items =>
      (fix go (l : list JsValue) : Z :=
         match l with
         | [] => 8
         | x :: rest => digest x + 17 * go rest
         end) items
  | JObj fields =>
      (fix go (l : list (string * JsValue)) : Z :=
         match l with
         | [] => 9
         | f :: rest => (string_digest (fst f) + 19 * digest (snd f)) + go rest
         end) fields
  end.

Fixpoint digits (fuel : nat) (n : Z) : string :=
  match fuel with
  | O => EmptyString
  | S fuel' =>
      let d := String (ascii_of_N (Z.to_N (48 + n mod 10))) EmptyString in
      if n <? 10 then d else digits fuel' (n / 10) ++ d
  end.

Definition digest_hash (v : JsValue) : string :=
  let n := digest v in
  if n <? 0 then "-" ++ digits 64 (- n) else digits 64 n.

Definition items_digest (l : list JsValue) : Z :=
  (fix go (l : list JsValue) : Z :=
     match l with
     | [] => 8
     | x :: rest => digest x + 17 * go rest
     end) l.

Definition fields_digest (l : list (string * JsValue)) : Z :=
  (fix go (l : list (string * JsValue)) : Z :=
     match l with
     | [] => 9
     | f :: rest => (string_digest (fst f) + 19 * digest (snd f)) + go rest
     end) l.

(** A decision procedure for [wf_obj], to settle it on concrete
    objects. *)
Fixpoint distinct (l : list string) : bool :=
  match l with
  | [] => true
  | k :: rest => negb (existsb (String.eqb k) rest) && distinct rest
  end.

(** A decision procedure for the fields of a key object being keys of
    the table store. *)
Definition all_keys (o : JsObject) : bool :=
  forallb (fun kv => match to_key (snd kv) with Some _ => true | None => false end) o.

(* ================================================================== *)
(** ** An instance *)
(* ================================================================== *)

(** A cache with the naming-service and media stores, and one store
    declared by the caller, whose entries live one second. *)
Definition example_cache : Cache :=
  init
    (new_Cache
       {| user_namespace := None;
          user_stores := Some [StoreName "notes"];
          user_logExpiration := Some true;
          user_expiration_default := None;
          user_expiration := [("notes", "1s")] |})
    {| query := false; nfds := true; medias := true; version := 1 |}.

(** A world whose clock advances by 400 ms at each reading. *)
Definition example_world (notes : list Row) (answers : list (option JsError)) : World :=
  {| db := fun s => if String.eqb s "notes" then notes else [];
     clock := fun n => 1700000000000 + 400 * Z.of_nat n;
     tick := 0;
     console := [];
     script := answers;
     closed := false |}.

Definition key_written : JsObject :=
  [ ("id", JNum 5); ("params", JObj [("a", JNum 1); ("b", JNum 2)]) ].

Definition key_read : JsObject :=
  [ ("params", JObj [("b", JNum 2); ("a", JNum 1)]); ("id", JNum 5) ].

(** Key objects of a store whose primary key is [params]: the same
    fields, written in another order. *)
Definition params_written : JsObject :=
  [ ("params", JObj [("a", JNum 1); ("b", JNum 2)]); ("cursor", JNull) ].

Definition params_read : JsObject :=
  [ ("cursor", JNull); ("params", JObj [("b", JNum 2); ("a", JNum 1)]) ].

Definition note (params : string) (timestamp : Z) : Row :=
  [ ("params", JStr params); ("data", JStr "payload"); ("timestamp", JNum timestamp) ].

Definition limit_query (includeExpired : bool) (limit : Z) : CacheQuery :=
  {| q_where := None; q_orderBy := None; q_order := None; q_filter := None;
     q_includeExpired := includeExpired; q_limit := Some limit |}.

(** A failure to open the container whose inner error is the upgrade
    error of the table store. *)
Definition corrupt_schema : JsError :=
  {| err_name := "OpenFailedError"; err_inner := Some "UpgradeError" |}.

(** A failure that has nothing to do with the schema. *)
Definition quota_exceeded : JsError :=
  {| err_name := "QuotaExceededError"; err_inner := None |}.

Definition ordered_query : CacheQuery :=
  {| q_where := Some [("params", JStr "c")];
     q_orderBy := Some "params";
     q_order := Some "desc";
     q_filter := Some (fun entry =>
                         match obj_get "data" entry with
                         | Some (JStr _) => true
                         | _ => false
                         end);
     q_includeExpired := true;
     q_limit := Some 2 |}.

(** A query that orders and filters, without a [where]. *)
Definition sorted_query : CacheQuery :=
  {| q_where := None;
     q_orderBy := Some "params";
     q_order := Some "desc";
     q_filter := Some (fun entry =>
                         match obj_get "id" entry with
                         | Some (JNum 5) => true
                         | _ => false
                         end);
     q_includeExpired := true;
     q_limit := Some 2 |}.

Definition numbered (params : string) (id : Z) : Row :=
  [ ("params", JStr params); ("id", JNum id); ("data", JStr "payload");
    ("timestamp", JNum 1700000000000) ].

(* ================================================================== *)
(** ** The operations *)
(* ================================================================== *)

(** [query.order && ['desc', 'DESC'].includes(query.order)] *)
Definition descending (query : CacheQuery) : bool :=
  match q_order query with
  | Some o => String.eqb o "desc" || String.eqb o "DESC"
  | None => false
  end.

Section Engine.

Variable objHash : JsValue -> string.

(** [durationStringToMs] of helpers/format.js. *)
Variable durationStringToMs : string -> Z.

Variable this : Cache.

(** The members of the handle of the library that are no tables. *)
Variable members : list (string * Member).

(** [getExpiration(store)] *)
Definition getExpiration (store : string) : Z :=
  let e := expiration (configs this) in
  let own :=
    if String.eqb store "default" then Some (exp_default e)
    else obj_get store (exp_stores e) in
  let expirationStr :=
    match truthy own with
    | Some s => s
    | None => exp_default e
    end in
  durationStringToMs expirationStr.

(** [entry.timestamp + expiration < now]; the comparison is false
    when the entry has no timestamp. *)
Definition expired_at (now : Z) (store : string) (entry : Row) : bool :=
  match entry_timestamp entry with
  | Some t => t + getExpiration store <? now
  | None => false
  end.

(** [isExpired(store, entry)] *)
Definition isExpired (store : string) (entry : Row) : M bool :=
  let expiration := getExpiration store in
  now <- Date_now ;;
  let isExpired :=
    match entry_timestamp entry with
    | Some t => t + expiration <? now
    | None => false
    end in
  (if isExpired && logExpiration (configs this)
   then log (console_warn ("[" ++ store ++ "] Cache entry has expired."))
   else ret tt) ;;
  ret isExpired.

(** The rows a collection hands over, up to [n] of them, the
    expiration filter being asked row by row as the cursor moves. *)
Fixpoint collect (store : string) (includeExpired : bool)
         (rows : list Row) (n : nat) {struct rows} : M (list Row) :=
  match rows, n with
  | [], _ => ret []
  | _, O => ret []
  | entry :: rest, S n' =>
      keep <- (if includeExpired then ret true
               else (e <- isExpired store entry ;; ret (negb e))) ;;
      if keep
      then (more <- collect store includeExpired rest n' ;; ret (entry :: more))
      else collect store includeExpired rest n
  end.

(** The execution of a chain: the request, the refusal of the
    library if the chain has come to one, then the rows, the limit
    being the last of the filters (with a limit of none, the cursor
    stops all the same at the first row that passes). *)
Definition run (store : string) (c : Chain) (includeExpired : bool) (n : nat)
  : M (list Row) :=
  request ;;
  match refusal (over c) with
  | Some e => throw e
  | None =>
      rows <- read_table store ;;
      found <- collect store includeExpired (yields (over c) rows) (Nat.max 1 n) ;;
      ret (firstn n found)
  end.

(** [find] on a declared store. *)
Definition find_in_table (store shape : string) (query : CacheQuery)
  : M FindResult :=
  let table := the_table in
  table <- match truthy (q_orderBy query) with
           | Some index =>
               ret {| is_collection := true; over := ordered_by shape index |}
           | None => ret table
           end ;;
  table <- (if descending query
            then if is_collection table then ret (reversed table)
                 else throw TypeError
            else ret table) ;;
  table <- match q_where query with
           | Some criteria =>
               let criteria := hashObjectProps objHash criteria in
               if is_collection table then throw TypeError
               else ret {| is_collection := true;
                           over := Table_where shape criteria |}
           | None => ret table
           end ;;
  let table :=
    match q_filter query with
    | Some p => filtered p table
    | None => table
    end in
  let table :=
    if q_includeExpired query then table
    else {| is_collection := true; over := over table |} in
  match q_limit query with
  | None =>
      if is_collection table
      then found <- run store table (q_includeExpired query) 1 ;;
           ret (Entry (hd_error found))
      else throw TypeError
  | Some limit =>
      found <- run store table (q_includeExpired query) (Z.to_nat limit) ;;
      ret (Entries found)
  end.

(** The expiration filter on the elements of an array. *)
Fixpoint each_isExpired (store : string) (items : list JsObject) : M unit :=
  match items with
  | [] => ret tt
  | item :: rest => isExpired store item ;; each_isExpired store rest
  end.

(** [find] on a member of the handle that is no table: an array has
    [filter] and none of the other methods, the rest has none. *)
Definition find_in_member (store : string) (m : Member) (query : CacheQuery)
  : M FindResult :=
  match m with
  | member_array items =>
      match truthy (q_orderBy query), descending query, q_where query with
      | None, false, None =>
          let items :=
            match q_filter query with
            | Some p => filter p items
            | None => items
            end in
          (if q_includeExpired query then ret tt else each_isExpired store items) ;;
          throw TypeError
      | _, _, _ => throw TypeError
      end
  | _ => throw TypeError
  end.

(** [find(store, query)] *)
Definition find (store : string) (query : CacheQuery) : M FindResult :=
  match handle members this store with
  | is_table shape => find_in_table store shape query
  | is_member member_falsy | is_undefined =>
      log (console_error ("Store not found (" ++ store ++ ")")) ;;
      ret (Entry None)
  | is_member m => find_in_member store m query
  end.

(** The chain that [find] builds on a declared store, as it stands
    before the last call; or the error of the first call that the
    handle in hand does not have. *)
Definition chained (shape : string) (query : CacheQuery) : JsError + Chain :=
  let table :=
    match truthy (q_orderBy query) with
    | Some index => {| is_collection := true; over := ordered_by shape index |}
    | None => the_table
    end in
  if descending query && negb (is_collection table) then inl TypeError
  else
    let table := if descending query then reversed table else table in
    match q_where query, is_collection table with
    | Some _, true => inl TypeError
    | asked, _ =>
        let table :=
          match asked with
          | Some criteria =>
              {| is_collection := true;
                 over := Table_where shape (hashObjectProps objHash criteria) |}
          | None => table
          end in
        let table :=
          match q_filter query with
          | Some p => filtered p table
          | None => table
          end in
        let table :=
          if q_includeExpired query then table
          else {| is_collection := true; over := over table |} in
        match q_limit query with
        | None => if is_collection table then inr table else inl TypeError
        | Some _ => inr table
        end
    end.

(** [clearAll()] *)
Definition clearAll : M unit := db_delete.

(** [handleError(error, store)] *)
Definition handleError (error : JsError) (store : option string) : M unit :=
  let names :=
    err_name error ::
      match truthy (err_inner error) with
      | Some inner => [inner]
      | None => []
      end in
  if existsb (String.eqb errnames_Upgrade) names
  then
    log (console_warn
           "An error occured while upgrading IndexedDB tables. Clearing IndexedDB Cache.") ;;
    clearAll
  else ret tt.

(** [save(store, data, entry)] *)
Definition save (store : string) (data : JsValue) (entry : JsObject) : M unit :=
  match handle members this store with
  | is_member member_falsy | is_undefined =>
      log (console_error ("Store not found (" ++ store ++ ")"))
  | is_table shape =>
      let normal := hashObjectProps objHash entry in
      now <- Date_now ;;
      let entry := obj_set "timestamp" (JNum now) (obj_set "data" data normal) in
      try_catch (put store shape entry) (fun e => handleError e (Some store))
  | is_member _ =>
      (* [put] is not a function of such a member *)
      now <- Date_now ;;
      try_catch (throw TypeError) (fun e => handleError e (Some store))
  end.

(** The loop of [prune].  Under a name that is not a table the handle
    holds nothing, or a member that has no [filter] whose result could
    be deleted. *)
Fixpoint prune_loop (stores : list string) (pruned : list (string * Z))
  : M (list (string * Z)) :=
  match stores with
  | [] => ret pruned
  | store :: rest =>
      let table := obj_get store (tables this) in
      now <- Date_now ;;
      let expirationLimit := now - getExpiration store in
      match table with
      | None => throw TypeError
      | Some _ =>
          expired <- delete_where store
                       (fun entry =>
                          match entry_timestamp entry with
                          | Some t => t <? expirationLimit
                          | None => false
                          end) ;;
          let pruned :=
            if expired =? 0 then pruned else obj_set store expired pruned in
          prune_loop rest pruned
      end
  end.

(** The argument of [prune]: nothing, one name, or an array of names. *)
Definition prune_targets (stores : option (string + list string)) : list string :=
  match stores with
  | None => table_names this
  | Some (inl store) => [store]
  | Some (inr names) => names
  end.

(** [prune(stores)] *)
Definition prune (stores : option (string + list string))
  : M (list (string * Z)) :=
  prune_loop (prune_targets stores) [].

(** The rows a query selects from its table, in the order in which
    [find] chains the clauses. *)
Definition candidates (query : CacheQuery) (rows : list Row) : list Row :=
  let rows :=
    match truthy (q_orderBy query) with
    | Some index => orderBy index rows
    | None => rows
    end in
  let rows :=
    match q_order query with
    | Some o => if String.eqb o "desc" || String.eqb o "DESC" then rev rows else rows
    | None => rows
    end in
  let rows :=
    match q_where query with
    | Some criteria => where_ (hashObjectProps objHash criteria) rows
    | None => rows
    end in
  match q_filter query with
  | Some p => filter p rows
  | None => rows
  end.

(** The clauses of a query in the order of the design: the equality
    lookup first, then the ordering (ascending, or descending when
    asked), then the caller's predicate. *)
Definition selected (query : CacheQuery) (rows : list Row) : list Row :=
  let matched :=
    match q_where query with
    | Some criteria => where_ (hashObjectProps objHash criteria) rows
    | None => rows
    end in
  let ordered :=
    match truthy (q_orderBy query) with
    | Some index => orderBy index matched
    | None => matched
    end in
  let ordered :=
    match q_order query with
    | Some o =>
        if String.eqb o "desc" || String.eqb o "DESC" then rev ordered else ordered
    | None => ordered
    end in
  match q_filter query with
  | Some p => filter p ordered
  | None => ordered
  end.

(** The expiration filter applied to a whole list, entry by entry. *)
Fixpoint drop_expired (store : string) (rows : list Row) : M (list Row) :=
  match rows with
  | [] => ret []
  | entry :: rest =>
      (e <- isExpired store entry ;;
       more <- drop_expired store rest ;;
       ret (if e then more else entry :: more))%cache
  end.

(** [find] as the design words it: lookup, ordering, predicate,
    expiration filter, and last the limit, which also decides the
    shape of the result. *)
Definition find_as_specified (store : string) (query : CacheQuery) : M FindResult :=
  match obj_get store (tables this) with
  | None => (log (store_not_found store) ;; ret (Entry None))%cache
  | Some _ =>
      (request ;;
       rows <- read_table store ;;
       live <- (if q_includeExpired query
                then ret (selected query rows)
                else drop_expired store (selected query rows)) ;;
       match q_limit query with
       | None => ret (Entry (hd_error live))
       | Some limit => ret (Entries (firstn (Z.to_nat limit) live))
       end)%cache
  end.

(** The row [save] writes: the normalised key fields, the payload,
    the time of the write. *)
Definition stamp (data : JsValue) (now : Z) (entry : JsObject) : Row :=
  obj_set "timestamp" (JNum now) (obj_set "data" data (hashObjectProps objHash entry)).

Definition run_call (c : Call) (w : World) : World :=
  match c with
  | call_find store query => snd (find store query w)
  | call_save store data entry => snd (save store data entry w)
  | call_prune targets => snd (prune targets w)
  end.

Definition run_calls (calls : list Call) (w : World) : World :=
  fold_left (fun w c => run_call c w) calls w.

End Engine.

(* ================================================================== *)
(** ** The declared stores *)
(* ================================================================== *)

(** The name under which [init] files a store of the configuration. *)
Definition decl_name (store : StoreDecl) : string :=
  match store with
  | StoreName name => name
  | StoreWithIndex name _ => name
  end.

(** Its index shape: [store.index || '&params'], and ['&params'] for
    a store given by its name. *)
Definition decl_index (store : StoreDecl) : string :=
  match store with
  | StoreName _ => "&params"
  | StoreWithIndex _ index =>
      match truthy index with
      | Some i => i
      | None => "&params"
      end
  end.

(** Of the declarations of a name, the one written last. *)
Definition last_declared (name : string) (decls : list StoreDecl)
  : option StoreDecl :=
  List.find (fun d => String.eqb name (decl_name d)) (rev decls).

(** The stores of the modules that the stack carries. *)
Definition module_stores (stack : AlgoStack) : list (string * string) :=
  (if query stack then query_stores else [])
  ++ (if nfds stack then nfd_stores else [])
  ++ (if medias stack then media_stores else []).

(** Every table of the schema holds one row for a primary key, and
    no row without one. *)
Definition keyed (this : Cache) (w : World) : Prop :=
  forall store shape,
    obj_get store (tables this) = Some shape ->
    NoDup (map (row_key (primKey shape)) (db w store))
    /\ Forall (fun r => row_key (primKey shape) r <> None) (db w store).

(** Table by table, [w'] holds some of the rows of [w], in their
    order. *)
Definition thinned (w w' : World) : Prop :=
  forall s, exists p, db w' s = filter p (db w s).

(** The query with another limit, or with none. *)
Definition with_limit (limit : option Z) (query : CacheQuery) : CacheQuery :=
  {| q_where := q_where query; q_orderBy := q_orderBy query;
     q_order := q_order query; q_filter := q_filter query;
     q_includeExpired := q_includeExpired query; q_limit := limit |}.

(** Two worlds that differ by the console at most. *)
Definition alike (w1 w2 : World) : Prop :=
  db w1 = db w2 /\ clock w1 = clock w2 /\ tick w1 = tick w2
  /\ faults w1 = faults w2.


(* ================================================================== *)
(** ** The module in its lookup form (src/modules/Cache/Cache.ts) *)
(* ================================================================== *)

(** [table.get(criteria)]: [where(criteria).first()]. *)
Definition get (store shape : string) (criteria : JsObject) : M (option Row) :=
  request ;;
  let found := Table_where shape criteria in
  match refusal found with
  | Some e => throw e
  | None =>
      rows <- read_table store ;;
      ret (hd_error (yields found rows))
  end.

Module LookupCache.

(** What the module reads of the options of the stack. *)
Record Options := {
  storageNamespace : string;
  cacheExpiration : Expiration
}.

(** What the module reads of the stack it is given. *)
Record Forwarded := {
  options : Options;
  query : bool;
  queryAddons : bool;
  nfds : bool
}.

(** The instance: the options, the schema version, and the tables of
    its handle with their index shapes. *)
Record Cache := {
  this_options : Options;
  v : Z;
  tables : list (string * string)
}.

Definition new_Cache (forwarded : Forwarded) : Cache :=
  {| this_options := options forwarded; v := 1; tables := [] |}.

(** [this.db[store]] *)
Definition handle (members : list (string * Member)) (this : Cache)
           (store : string) : Lookup :=
  match obj_get store (tables this) with
  | Some shape => is_table shape
  | None =>
      if String.eqb store "tables"
      then is_member (member_array (map table_object (obj_keys (tables this))))
      else if String.eqb store "version" || String.eqb store "delete"
      then is_member member_other
      else
        match obj_get store members with
        | Some m => is_member m
        | None => is_undefined
        end
  end.

Definition query_stores : list (string * string) :=
  [ ("account", "&id, [id+params]");
    ("accountTransactions", "&id, [id+params]");
    ("application", "&id, [id+params]");
    ("asset", "&id, [id+params]");
    ("assetBalances", "&id, [id+params]");
    ("assetTransactions", "&id, [id+params]");
    ("block", "&id, [id+params]");
    ("txn", "&id, [id+params]");
    ("applications", "&params");
    ("accounts", "&params");
    ("assets", "&params");
    ("txns", "&params") ].

(** [init(forwarded)] *)
Definition init (this : Cache) (forwarded : Forwarded) : Cache :=
  let stores0 : list (string * string) := [] in
  let stores1 :=
    if query forwarded then obj_spread stores0 query_stores else stores0 in
  let stores2 :=
    if queryAddons forwarded then obj_spread stores1 [("icon", "&id")]
    else stores1 in
  let stores3 :=
    if nfds forwarded then obj_spread stores2 [("nfds", "&address, *nfds")]
    else stores2 in
  {| this_options := this_options this; v := v this; tables := stores3 |}.

(** [console.error(store, e)]: the store, then the error, which is
    shown here by its name. *)
Definition write_failure (store : string) (e : JsError) : LogLine :=
  console_error (store ++ " " ++ err_name e).

Section Operations.

Variable objHash : JsValue -> string.
Variable durationStringToMs : string -> Z.
Variable this : Cache.
Variable members : list (string * Member).

(** [getExpiration(store)] *)
Definition getExpiration (store : string) : Z :=
  let e := cacheExpiration (this_options this) in
  let own :=
    if String.eqb store "default" then Some (exp_default e)
    else obj_get store (exp_stores e) in
  let expirationStr :=
    match truthy own with
    | Some s => s
    | None => exp_default e
    end in
  durationStringToMs expirationStr.

(** What [find] does with what the table gave. *)
Definition served (store : string) (results : option Row) : M (option Row) :=
  match results with
  | None => ret None
  | Some results =>
      let expiration := getExpiration store in
      now <- Date_now ;;
      let isExpired :=
        match entry_timestamp results with
        | Some t => t + expiration <? now
        | None => false
        end in
      if isExpired
      then
        log (console_warn ("[" ++ store ++ "] Cache entry has expired.")) ;;
        ret None
      else ret (Some results)
  end.

(** [find(store, query)] *)
Definition find (store : string) (query : JsObject) : M (option Row) :=
  match handle members this store with
  | is_member member_falsy | is_undefined =>
      log (console_error ("Store not found (" ++ store ++ ")")) ;;
      ret None
  | is_table shape =>
      let query := filterCacheEntry objHash query in
      try_catch
        (results <- get store shape query ;; served store results)
        (fun e => ret None)
  | is_member _ =>
      (* [get] is not a function of such a member *)
      try_catch (throw TypeError) (fun e => ret None)
  end.

(** [save(store, data, entry)] *)
Definition save (store : string) (data : JsValue) (entry : JsObject) : M unit :=
  match handle members this store with
  | is_member member_falsy | is_undefined =>
      log (console_error ("Store not found (" ++ store ++ ")"))
  | is_table shape =>
      let normal := filterCacheEntry objHash entry in
      now <- Date_now ;;
      let entry := obj_set "timestamp" (JNum now) (obj_set "data" data normal) in
      try_catch (put store shape entry) (fun e => log (write_failure store e))
  | is_member _ =>
      now <- Date_now ;;
      try_catch (throw TypeError) (fun e => log (write_failure store e))
  end.

End Operations.

End LookupCache.

(* ================================================================== *)
(** ** Further instances *)
(* ================================================================== *)


Definition example_stack : AlgoStack :=
  {| query := false; nfds := true; medias := true; version := 1 |}.

(** The same cache without the expiration log. *)
Definition quiet_cache : Cache :=
  init
    (new_Cache
       {| user_namespace := None;
          user_stores := Some [StoreName "notes"];
          user_logExpiration := Some false;
          user_expiration_default := None;
          user_expiration := [("notes", "1s")] |})
    example_stack.

(** The world of [example_world] a few readings of the clock later. *)
Definition later_world (notes : list Row) : World :=
  {| db := fun s => if String.eqb s "notes" then notes else [];
     clock := fun n => 1700000000000 + 400 * Z.of_nat n;
     tick := 5;
     console := [];
     script := [];
     closed := false |}.

(** A lookup cache for a stack with the query module and its addons;
    its entries live one second, those of [asset] one hour. *)
Definition lookup_forwarded : LookupCache.Forwarded :=
  {| LookupCache.options :=
       {| LookupCache.storageNamespace := "algostack";
          LookupCache.cacheExpiration :=
            {| exp_default := "1s"; exp_stores := [("asset", "1h")] |} |};
     LookupCache.query := true;
     LookupCache.queryAddons := true;
     LookupCache.nfds := false |}.

Definition lookup_cache : LookupCache.Cache :=
  LookupCache.init (LookupCache.new_Cache lookup_forwarded) lookup_forwarded.

(** A world whose container holds the given rows in one store. *)
Definition world_with (store : string) (rows : list Row)
           (answers : list (option JsError)) : World :=
  {| db := fun s => if String.eqb s store then rows else [];
     clock := fun n => 1700000000000 + 400 * Z.of_nat n;
     tick := 0;
     console := [];
     script := answers;
     closed := false |}.

Definition asset_row (id : Z) (params : string) (timestamp : Z) : Row :=
  [ ("id", JNum id); ("params", JStr params); ("data", JStr "payload");
    ("timestamp", JNum timestamp) ].

(* ================================================================== *)
(** * Properties *)
(* ================================================================== *)

Local Open Scope list_scope.

(** ** The key order is a total order *)

Lemma ascii_compare_refl (a : ascii) : Ascii.compare a a = Eq.
Proof. unfold Ascii.compare. apply N.compare_refl. Qed.

Lemma ascii_compare_lt_trans (a b c : ascii) :
  Ascii.compare a b = Lt -> Ascii.compare b c = Lt -> Ascii.compare a c = Lt.
Proof.
  unfold Ascii.compare. rewrite !N.compare_lt_iff. apply N.lt_trans.
Qed.

Lemma string_compare_refl (s : string) : String.compare s s = Eq.
Proof.
  induction s as [|c s IH]; simpl; [reflexivity|].
  now rewrite ascii_compare_refl.
Qed.

Lemma string_compare_lt_trans (a b c : string) :
  String.compare a b = Lt -> String.compare b c = Lt -> String.compare a c = Lt.
Proof.
  revert b c.
  induction a as [|x a IH]; intros [|y b] [|z c]; simpl; try congruence.
  destruct (Ascii.compare x y) eqn:Exy; try discriminate.
  - apply Ascii.compare_eq_iff in Exy. subst y.
    destruct (Ascii.compare x z) eqn:Exz; try congruence.
    intros; eapply IH; eassumption.
  - intros _.
    destruct (Ascii.compare y z) eqn:Eyz; try discriminate.
    + apply Ascii.compare_eq_iff in Eyz. subst z. now rewrite Exy.
    + intros _. now rewrite (ascii_compare_lt_trans _ _ _ Exy Eyz).
Qed.

Lemma key_compare_refl (k : Key) : key_compare k k = Eq.
Proof.
  induction k as [n|s|items IH] using Key_nested_ind; simpl.
  - apply Z.compare_refl.
  - apply string_compare_refl.
  - induction IH as [|x l Hx _ IHl]; [reflexivity|].
    now rewrite Hx.
Qed.

Lemma key_compare_eq (a b : Key) : key_compare a b = Eq -> a = b.
Proof.
  revert b.
  induction a as [n|s|items IH] using Key_nested_ind; intros [m|t|others];
    simpl; try discriminate.
  - intros H. apply Z.compare_eq in H. now subst.
  - intros H. apply String.compare_eq_iff in H. now subst.
  - intros H. f_equal. revert others H.
    induction IH as [|x l Hx _ IHl]; intros [|y r]; try discriminate;
      [reflexivity|].
    destruct (key_compare x y) eqn:E; try discriminate.
    intros H. apply Hx in E. subst y. f_equal. now apply IHl.
Qed.

Lemma key_compare_antisym (a b : Key) :
  key_compare b a = CompOpp (key_compare a b).
Proof.
  revert b.
  induction a as [n|s|items IH] using Key_nested_ind; intros [m|t|others];
    simpl; try reflexivity.
  - apply Z.compare_antisym.
  - apply String.compare_antisym.
  - revert others.
    induction IH as [|x l Hx _ IHl]; intros [|y r]; try reflexivity.
    rewrite (Hx y). destruct (key_compare x y); simpl; auto.
Qed.

Lemma key_compare_lt_trans (a b c : Key) :
  key_compare a b = Lt -> key_compare b c = Lt -> key_compare a c = Lt.
Proof.
  revert b c.
  induction a as [n|s|items IH] using Key_nested_ind;
    intros [m|t|others] [p|u|more]; simpl; try congruence.
  - rewrite !Z.compare_lt_iff. lia.
  - apply string_compare_lt_trans.
  - revert others more.
    induction IH as [|x l Hx _ IHl]; intros [|y r] [|z q]; try congruence.
    destruct (key_compare x y) eqn:Exy; try discriminate.
    + apply key_compare_eq in Exy. subst y.
      destruct (key_compare x z); try congruence. apply IHl.
    + intros _.
      destruct (key_compare y z) eqn:Eyz; try discriminate.
      * apply key_compare_eq in Eyz. subst z. now rewrite Exy.
      * intros _. now rewrite (Hx _ _ Exy Eyz).
Qed.

Lemma key_eqb_eq (a b : Key) : key_eqb a b = true <-> a = b.
Proof.
  unfold key_eqb. split.
  - destruct (key_compare a b) eqn:E; try discriminate.
    intros _. now apply key_compare_eq.
  - intros ->. now rewrite key_compare_refl.
Qed.

Lemma key_leb_total (a b : Key) : key_leb a b = false -> key_leb b a = true.
Proof.
  unfold key_leb. rewrite (key_compare_antisym a b).
  destruct (key_compare a b); simpl; congruence.
Qed.

Lemma key_leb_trans (a b c : Key) :
  key_leb a b = true -> key_leb b c = true -> key_leb a c = true.
Proof.
  unfold key_leb.
  destruct (key_compare a b) eqn:Eab; try discriminate; intros _.
  - apply key_compare_eq in Eab. now subst.
  - destruct (key_compare b c) eqn:Ebc; try discriminate; intros _.
    + apply key_compare_eq in Ebc. subst. now rewrite Eab.
    + now rewrite (key_compare_lt_trans _ _ _ Eab Ebc).
Qed.

(** ** Objects *)

Section ObjectFacts.
Variable V : Type.
Implicit Types (o : list (string * V)) (k : string) (v : V).

Lemma obj_get_set_same k v o : obj_get k (obj_set k v o) = Some v.
Proof.
  induction o as [|[k' v'] o IH]; simpl.
  - now rewrite String.eqb_refl.
  - destruct (String.eqb k k') eqn:E; simpl; rewrite ?String.eqb_refl, ?E; auto.
Qed.

Lemma obj_get_set_other k k' v o :
  k <> k' -> obj_get k (obj_set k' v o) = obj_get k o.
Proof.
  intros Hne. induction o as [|[k2 v2] o IH]; simpl.
  - apply String.eqb_neq in Hne. now rewrite Hne.
  - destruct (String.eqb k' k2) eqn:E; simpl.
    + apply String.eqb_eq in E. subst k2.
      apply String.eqb_neq in Hne. now rewrite Hne.
    + now rewrite IH.
Qed.

Lemma obj_get_In k v o : obj_get k o = Some v -> In (k, v) o.
Proof.
  induction o as [|[k' v'] o IH]; simpl; [discriminate|].
  destruct (String.eqb k k') eqn:E.
  - apply String.eqb_eq in E. subst. intros [= ->]. now left.
  - intros H. right. auto.
Qed.

Lemma obj_get_None k o : obj_get k o = None <-> ~ In k (obj_keys o).
Proof.
  induction o as [|[k' v'] o IH]; simpl; [tauto|].
  destruct (String.eqb k k') eqn:E.
  - apply String.eqb_eq in E. subst. split; [discriminate|tauto].
  - apply String.eqb_neq in E. rewrite IH. intuition congruence.
Qed.

Lemma In_obj_get k v o : wf_obj o -> In (k, v) o -> obj_get k o = Some v.
Proof.
  unfold wf_obj. induction o as [|[k' v'] o IH]; simpl; [tauto|].
  intros Hnd [H|H]; inversion Hnd as [|? ? Hk Hnd']; subst.
  - inversion H; subst. now rewrite String.eqb_refl.
  - destruct (String.eqb k k') eqn:E; auto.
    apply String.eqb_eq in E. subst k'. exfalso. apply Hk.
    change k with (fst (k, v)). now apply in_map.
Qed.

Lemma obj_set_fresh k v (done rest : list (string * V)) v0 :
  ~ In k (obj_keys done) ->
  obj_set k v (done ++ (k, v0) :: rest) = done ++ (k, v) :: rest.
Proof.
  induction done as [|[k' v'] done IH]; simpl; intros Hk.
  - now rewrite String.eqb_refl.
  - destruct (String.eqb k k') eqn:E.
    + apply String.eqb_eq in E. subst. tauto.
    + rewrite IH; tauto.
Qed.

Lemma obj_delete_absent k o : ~ In k (obj_keys o) -> obj_delete k o = o.
Proof.
  induction o as [|[k' v'] o IH]; simpl; intros Hk; [reflexivity|].
  destruct (String.eqb k k') eqn:E.
  - apply String.eqb_eq in E. subst. tauto.
  - rewrite IH; tauto.
Qed.

Lemma obj_delete_fresh k (done rest : list (string * V)) v0 :
  ~ In k (obj_keys done) -> ~ In k (obj_keys rest) ->
  obj_delete k (done ++ (k, v0) :: rest) = done ++ rest.
Proof.
  induction done as [|[k' v'] done IH]; simpl; intros Hk Hr.
  - rewrite String.eqb_refl. now apply obj_delete_absent.
  - destruct (String.eqb k k') eqn:E.
    + apply String.eqb_eq in E. subst. tauto.
    + rewrite IH; tauto.
Qed.

Lemma obj_get_app k (a b : list (string * V)) :
  obj_get k (a ++ b) =
    match obj_get k a with Some v => Some v | None => obj_get k b end.
Proof.
  induction a as [|[k' v'] a IH]; simpl; [reflexivity|].
  now destruct (String.eqb k k').
Qed.

Lemma obj_keys_app (a b : list (string * V)) :
  obj_keys (a ++ b) = obj_keys a ++ obj_keys b.
Proof. apply map_app. Qed.

End ObjectFacts.

(** ** Key normalisation *)

Section NormalisationFacts.
Variable objHash : JsValue -> string.

Lemma normal_form_keys (o : JsObject) k :
  In k (obj_keys (normal_form objHash o)) -> In k (obj_keys o).
Proof.
  induction o as [|[k' v'] o IH]; simpl; [tauto|].
  rewrite obj_keys_app, in_app_iff. intros [H|H]; [|now right; apply IH].
  destruct (normal_value objHash v'); simpl in H; tauto.
Qed.

Lemma normal_form_wf (o : JsObject) : wf_obj o -> wf_obj (normal_form objHash o).
Proof.
  unfold wf_obj. induction o as [|[k v] o IH]; simpl; intros Hnd.
  - constructor.
  - inversion Hnd as [|? ? Hk Hnd']; subst.
    rewrite obj_keys_app.
    destruct (normal_value objHash v); simpl; auto.
    constructor; auto. intros Hin. apply Hk. now apply normal_form_keys.
Qed.

Lemma hashObjectProps_loop (todo done : JsObject) :
  wf_obj (done ++ todo) ->
  fold_left (hashObjectProps_step objHash) todo (done ++ todo)
  = done ++ normal_form objHash todo.
Proof.
  revert done. induction todo as [|[k v] todo IH]; intros done Hwf.
  - reflexivity.
  - cbn [fold_left].
    assert (Hk : ~ In k (obj_keys done) /\ ~ In k (obj_keys todo)).
    { unfold wf_obj in Hwf. rewrite obj_keys_app in Hwf. simpl in Hwf.
      apply NoDup_remove_2 in Hwf. rewrite in_app_iff in Hwf. tauto. }
    destruct Hk as [Hd Ht].
    assert (Hstep :
              hashObjectProps_step objHash (done ++ (k, v) :: todo) (k, v)
              = (done ++ match normal_value objHash v with
                         | Some v' => [(k, v')]
                         | None => []
                         end) ++ todo).
    { unfold hashObjectProps_step, normal_value.
      destruct v; simpl;
        rewrite ?obj_set_fresh, ?obj_delete_fresh by assumption;
        rewrite <- ?app_assoc; simpl; auto. }
    rewrite Hstep, IH.
    + simpl. now rewrite <- app_assoc.
    + unfold wf_obj in *. rewrite !obj_keys_app in *. simpl in Hwf.
      destruct (normal_value objHash v); simpl.
      * rewrite <- app_assoc. exact Hwf.
      * rewrite app_nil_r. now apply NoDup_remove_1 in Hwf.
Qed.

Lemma hashObjectProps_normal_form (o : JsObject) :
  wf_obj o -> hashObjectProps objHash o = normal_form objHash o.
Proof. intros Hwf. apply (hashObjectProps_loop o []). exact Hwf. Qed.

Lemma normal_form_get (o : JsObject) k :
  wf_obj o ->
  obj_get k (normal_form objHash o) =
    match obj_get k o with
    | Some v => normal_value objHash v
    | None => None
    end.
Proof.
  unfold wf_obj. induction o as [|[k' v'] o IH]; simpl; intros Hnd;
    [reflexivity|].
  inversion Hnd as [|? ? Hk Hnd']; subst.
  rewrite obj_get_app, IH by assumption.
  destruct (String.eqb k k') eqn:E.
  - apply String.eqb_eq in E. subst k'.
    destruct (normal_value objHash v'); simpl.
    + now rewrite String.eqb_refl.
    + apply obj_get_None in Hk. now rewrite Hk.
  - destruct (normal_value objHash v'); simpl; [now rewrite E|reflexivity].
Qed.

Lemma normal_value_not_nullish v v' :
  normal_value objHash v = Some v' -> nullish v' = false.
Proof.
  unfold normal_value. destruct v; simpl; intros [= <-]; reflexivity.
Qed.

Lemma normal_value_fixed v v' :
  normal_value objHash v = Some v' -> normal_value objHash v' = Some v'.
Proof.
  unfold normal_value. destruct v; simpl; intros [= <-]; reflexivity.
Qed.

Lemma normal_form_fixed (o : JsObject) :
  normal_form objHash (normal_form objHash o) = normal_form objHash o.
Proof.
  induction o as [|[k v] o IH]; [reflexivity|].
  unfold normal_form in *. cbn [flat_map fst snd]. rewrite flat_map_app, IH.
  f_equal. destruct (normal_value objHash v) as [v'|] eqn:E; [|reflexivity].
  cbn [flat_map fst snd]. now rewrite (normal_value_fixed _ E).
Qed.

(** The loop rewrites the object it is given, so that an object
    passed a second time arrives normalised: normalising it again
    changes nothing. *)
Lemma hashObjectProps_idempotent (o : JsObject) :
  wf_obj o ->
  hashObjectProps objHash (hashObjectProps objHash o) = hashObjectProps objHash o.
Proof.
  intros Hwf. rewrite (hashObjectProps_normal_form Hwf).
  rewrite (hashObjectProps_normal_form (normal_form_wf Hwf)).
  apply normal_form_fixed.
Qed.

End NormalisationFacts.

Lemma distinct_NoDup (l : list string) : distinct l = true -> NoDup l.
Proof.
  induction l as [|k l IH]; simpl; intros H; constructor;
    apply andb_prop in H; destruct H as [Hk Hl]; auto.
  intros Hin. apply negb_true_iff in Hk.
  assert (existsb (String.eqb k) l = true); [|congruence].
  apply existsb_exists. exists k. split; auto. apply String.eqb_refl.
Qed.

(** C7. Key normalisation ([hashObjectProps], and [filterCacheEntry]
    which is the same loop): a top-level field whose value is an
    object that is not an array is replaced by the fingerprint of that
    value; a field whose value is a scalar or an array is left as it
    is; a field whose value is [null] or [undefined] is dropped; so no
    field of the normalised object is [null] or [undefined].  The
    fields that remain keep their order. *)
Theorem hashObjectProps_normalises
  (objHash : JsValue -> string) (entry : JsObject) (Hwf : wf_obj entry) :
  (forall key,
      obj_get key (hashObjectProps objHash entry) =
        match obj_get key entry with
        | Some (JObj fields) => Some (JStr (objHash (JObj fields)))
        | Some JNull | Some JUndefined | None => None
        | Some value => Some value
        end)
  /\ (forall key value,
         In (key, value) (hashObjectProps objHash entry) ->
         value <> JNull /\ value <> JUndefined)
  /\ obj_keys (hashObjectProps objHash entry) =
       obj_keys (filter (fun kv => negb (nullish (snd kv))) entry)
  /\ filterCacheEntry objHash entry = hashObjectProps objHash entry.
Proof.
  rewrite (hashObjectProps_normal_form objHash Hwf).
  repeat split.
  - intros key. rewrite normal_form_get by assumption.
    destruct (obj_get key entry) as [[]|]; reflexivity.
  - apply In_obj_get in H; [|now apply normal_form_wf].
    rewrite normal_form_get in H by assumption.
    destruct (obj_get key entry) as [v|]; [|discriminate].
    apply normal_value_not_nullish in H. now destruct value.
  - apply In_obj_get in H; [|now apply normal_form_wf].
    rewrite normal_form_get in H by assumption.
    destruct (obj_get key entry) as [v|]; [|discriminate].
    apply normal_value_not_nullish in H. now destruct value.
  - clear Hwf. induction entry as [|[k v] o IH]; [reflexivity|].
    simpl. rewrite obj_keys_app, IH.
    unfold normal_value. destruct v; reflexivity.
  - exact (hashObjectProps_normal_form objHash Hwf).
Qed.

(** ** Ordering *)

Section SortingFacts.
Variable A : Type.
Variable leb : A -> A -> bool.
Hypothesis leb_total : forall a b, leb a b = false -> leb b a = true.
Hypothesis leb_trans :
  forall a b c, leb a b = true -> leb b c = true -> leb a c = true.

Local Abbreviation sorted := (StronglySorted (fun a b => leb a b = true)).

Lemma insert_sorted_In x y l :
  In y (insert_sorted leb x l) <-> y = x \/ In y l.
Proof.
  induction l as [|h t IH]; simpl; [intuition|].
  destruct (leb x h); simpl; rewrite ?IH; intuition.
Qed.

Lemma insert_sorted_sorted x l : sorted l -> sorted (insert_sorted leb x l).
Proof.
  induction l as [|h t IH]; simpl; intros Hs.
  - repeat constructor.
  - inversion Hs as [|? ? Ht Hh]; subst.
    destruct (leb x h) eqn:E.
    + constructor; [exact Hs|]. constructor; [exact E|].
      eapply Forall_impl; [|exact Hh]. intros; eapply leb_trans; eauto.
    + constructor; [auto|].
      apply Forall_forall. intros y Hy.
      apply insert_sorted_In in Hy. destruct Hy as [->|Hy].
      * now apply leb_total.
      * rewrite Forall_forall in Hh. auto.
Qed.

Lemma sort_sorted l : sorted (sort leb l).
Proof.
  induction l as [|h t IH]; simpl; [constructor|].
  now apply insert_sorted_sorted.
Qed.

Lemma sort_In y l : In y (sort leb l) <-> In y l.
Proof.
  induction l as [|h t IH]; simpl; [tauto|].
  rewrite insert_sorted_In, IH. intuition.
Qed.

Lemma insert_sorted_first x l :
  Forall (fun y => leb x y = true) l -> insert_sorted leb x l = x :: l.
Proof.
  destruct l as [|h t]; simpl; [reflexivity|].
  intros H. inversion H; subst. now replace (leb x h) with true.
Qed.

(** Selection commutes with insertion into a sorted list. *)
Lemma filter_insert_sorted (p : A -> bool) x l :
  sorted l ->
  filter p (insert_sorted leb x l) =
    if p x then insert_sorted leb x (filter p l) else filter p l.
Proof.
  induction l as [|h t IH]; intros Hs.
  - simpl. now destruct (p x).
  - inversion Hs as [|? ? Ht Hh]; subst. simpl insert_sorted.
    destruct (leb x h) eqn:E.
    + change (filter p (x :: h :: t))
        with (if p x then x :: filter p (h :: t) else filter p (h :: t)).
      destruct (p x); [|reflexivity].
      symmetry. apply insert_sorted_first.
      apply Forall_forall. intros y Hy. apply filter_In in Hy.
      destruct Hy as [[->|Hy] _]; [exact E|].
      rewrite Forall_forall in Hh. eapply leb_trans; eauto.
    + simpl. rewrite (IH Ht).
      destruct (p h), (p x); simpl; rewrite ?E; reflexivity.
Qed.

(** Selection commutes with sorting. *)
Lemma filter_sort (p : A -> bool) l :
  filter p (sort leb l) = sort leb (filter p l).
Proof.
  induction l as [|h t IH]; [reflexivity|].
  simpl. rewrite filter_insert_sorted by apply sort_sorted.
  rewrite IH. now destruct (p h).
Qed.

(** The only row to pass a selection, once inserted. *)
Lemma filter_insert_sorted_single (p : A -> bool) x l :
  p x = true -> filter p l = [] ->
  filter p (insert_sorted leb x l) = [x].
Proof.
  intros Hx. induction l as [|h t IH]; simpl.
  - now rewrite Hx.
  - destruct (p h) eqn:Eh; [discriminate|]. intros Ht.
    destruct (leb x h); simpl; rewrite ?Hx, ?Eh; [now rewrite Ht|auto].
Qed.
End SortingFacts.

Lemma okey_leb_total (a b : option Key) :
  okey_leb a b = false -> okey_leb b a = true.
Proof.
  destruct a, b; simpl; try congruence; try reflexivity. apply key_leb_total.
Qed.

Lemma okey_leb_trans (a b c : option Key) :
  okey_leb a b = true -> okey_leb b c = true -> okey_leb a c = true.
Proof.
  destruct a, b, c; simpl; try congruence. apply key_leb_trans.
Qed.

Lemma okey_eqb_eq (a b : option Key) :
  okey_eqb a b = true <-> exists k, a = Some k /\ b = Some k.
Proof.
  destruct a as [x|], b as [y|]; simpl.
  - rewrite key_eqb_eq. split; [intros ->; eauto|].
    intros (k & [= ->] & [= ->]). reflexivity.
  - split; [discriminate|]. intros (k & _ & H). discriminate.
  - split; [discriminate|]. intros (k & H & _). discriminate.
  - split; [discriminate|]. intros (k & H & _). discriminate.
Qed.

Lemma filter_filter_comm (A : Type) (p q : A -> bool) (l : list A) :
  filter p (filter q l) = filter q (filter p l).
Proof.
  induction l as [|x l IH]; simpl; [reflexivity|].
  destruct (p x) eqn:Ep, (q x) eqn:Eq; simpl; rewrite ?Ep, ?Eq, IH; reflexivity.
Qed.

Lemma filter_rev_comm (A : Type) (p : A -> bool) (l : list A) :
  filter p (rev l) = rev (filter p l).
Proof.
  induction l as [|x l IH]; simpl; [reflexivity|].
  rewrite filter_app, IH. simpl. destruct (p x); simpl;
    [reflexivity|apply app_nil_r].
Qed.

(** The equality lookup may come before or after the ordering. *)
Lemma where_orderBy (criteria : JsObject) (index : string) (rows : list Row) :
  where_ criteria (orderBy index rows) = orderBy index (where_ criteria rows).
Proof.
  unfold where_, orderBy.
  rewrite filter_sort.
  - now rewrite filter_filter_comm.
  - intros a b. apply okey_leb_total.
  - intros a b c. apply okey_leb_trans.
Qed.

Lemma where_rev (criteria : JsObject) (rows : list Row) :
  where_ criteria (rev rows) = rev (where_ criteria rows).
Proof. apply filter_rev_comm. Qed.

(** [orderBy] is ascending. *)
Lemma orderBy_ascending (index : string) (rows : list Row) :
  StronglySorted
    (fun a b => okey_leb (row_key index a) (row_key index b) = true)
    (orderBy index rows).
Proof.
  unfold orderBy. apply sort_sorted.
  - intros a b. apply okey_leb_total.
  - intros a b c. apply okey_leb_trans.
Qed.

Lemma insert_sorted_Permutation (A : Type) (leb : A -> A -> bool) (x : A)
      (l : list A) :
  Permutation (insert_sorted leb x l) (x :: l).
Proof.
  induction l as [|y l IH]; cbn [insert_sorted]; [reflexivity|].
  destruct (leb x y); [reflexivity|].
  rewrite IH. apply perm_swap.
Qed.




(** ** The indexes *)

Lemma key_leb_refl (k : Key) : key_leb k k = true.
Proof.
  destruct (key_leb k k) eqn:E; [reflexivity|].
  pose proof (key_leb_total _ _ E) as H. congruence.
Qed.

(** Entries that compare alike stay as they came. *)
Lemma sort_alike (A : Type) (leb : A -> A -> bool) (l : list A) :
  (forall a b, In a l -> In b l -> leb a b = true) -> sort leb l = l.
Proof.
  induction l as [|x l IH]; intros H; [reflexivity|].
  simpl. rewrite IH by (intros; apply H; now right).
  destruct l as [|h t]; [reflexivity|]. simpl.
  rewrite H; [reflexivity|now left|right; now left].
Qed.

Lemma ix_name_index_spec (name : string) (multi : bool) :
  ix_name (index_spec name multi) = name.
Proof. unfold index_spec. now destruct (compound_paths name). Qed.

Lemma index_spec_plain (name : string) (multi : bool) :
  ix_compound (index_spec name multi) = false ->
  ix_keyPath (index_spec name multi) = [name].
Proof. unfold index_spec. now destruct (compound_paths name). Qed.

Lemma index_named_primary (shape : string) :
  index_named shape (primKey shape)
  = Some {| via := primary shape; components := None |}.
Proof.
  unfold index_named, primary. now rewrite ix_name_index_spec, String.eqb_refl.
Qed.

Lemma first_some_components (name : string) (l : list IndexSpec) (a : Access) :
  first_some (fun ix => match is_prefix name ix with
                        | Some n => Some {| via := ix; components := Some n |}
                        | None => None
                        end) l = Some a ->
  components a <> None.
Proof.
  induction l as [|ix l IH]; [discriminate|]. simpl.
  destruct (is_prefix name ix); [|exact IH].
  intros [= <-]. discriminate.
Qed.

(** An index read whole is the primary key or an index declared
    under the name; when it is not compound, its key path is the
    name. *)
Lemma index_named_whole (shape name : string) (a : Access) :
  index_named shape name = Some a ->
  components a = None ->
  ix_compound (via a) = false ->
  ix_keyPath (via a) = [name].
Proof.
  unfold index_named.
  destruct (String.eqb name (ix_name (primary shape))) eqn:Ep.
  - intros [= <-] _. cbn [via]. apply String.eqb_eq in Ep.
    unfold primary in *. rewrite ix_name_index_spec in Ep. subst name.
    apply index_spec_plain.
  - destruct (List.find _ (indexes shape)) as [ix|] eqn:Ef.
    + intros [= <-] _. cbn [via]. apply find_some in Ef.
      destruct Ef as [Hin Hname]. apply String.eqb_eq in Hname. subst name.
      unfold indexes in Hin. apply in_map_iff in Hin.
      destruct Hin as (d & <- & _). unfold parse_index.
      rewrite ix_name_index_spec. apply index_spec_plain.
    + intros Hfirst Hwhole. now apply first_some_components in Hfirst.
Qed.

Lemma index_keys_plain (ix : IndexSpec) (path : string) (r : Row) :
  ix_compound ix = false -> ix_multi ix = false -> ix_keyPath ix = [path] ->
  index_keys ix r = some_list (row_key path r).
Proof. unfold index_keys. now intros -> -> ->. Qed.

Lemma index_entries_incl (a : Access) (rows : list Row) (e : Key * Row) :
  In e (index_entries a rows) -> In (snd e) rows.
Proof.
  unfold index_entries. rewrite sort_In, in_flat_map.
  intros (r & Hr & He). apply in_map_iff in He.
  destruct He as (k & <- & _). exact Hr.
Qed.

Lemma where_equals_incl (shape name : string) (value : JsValue) (rows : list Row) :
  incl (yields (where_equals shape name value) rows) rows.
Proof.
  unfold where_equals.
  destruct (index_named shape name) as [a|]; [|intros x []].
  destruct (to_key value); [|destruct value; intros x []].
  cbn [yields]. intros x Hx. apply in_map_iff in Hx.
  destruct Hx as (e & <- & He). apply filter_In in He.
  apply index_entries_incl with (a := a). tauto.
Qed.

Lemma ordered_by_incl (shape name : string) (rows : list Row) :
  incl (yields (ordered_by shape name) rows) rows.
Proof.
  unfold ordered_by.
  destruct (index_named shape name) as [a|]; [|intros x []].
  cbn [yields]. intros x Hx. apply in_map_iff in Hx.
  destruct Hx as (e & <- & He). now apply index_entries_incl with (a := a).
Qed.

Lemma Table_where_incl (shape : string) (criteria : JsObject) (rows : list Row) :
  incl (yields (Table_where shape criteria) rows) rows.
Proof.
  unfold Table_where.
  destruct criteria as [|[name value] [|second rest]];
    try apply where_equals_incl;
    (destruct (compound_for shape _); [apply where_equals_incl|]);
    (destruct (List.find _ _) as [[n v]|]; [|apply where_equals_incl]);
    cbn [yields]; intros x Hx; apply filter_In in Hx;
    eapply where_equals_incl; apply Hx.
Qed.

Lemma plain_entries_filter (path : string) (k : Key) (rows : list Row) :
  filter (fun e : Key * Row => key_eqb k (fst e))
    (flat_map (fun r => map (fun k' => (k', r)) (some_list (row_key path r))) rows)
  = map (fun r => (k, r))
      (filter (fun r => okey_eqb (Some k) (row_key path r)) rows).
Proof.
  induction rows as [|r rows IH]; [reflexivity|].
  cbn [flat_map]. rewrite filter_app, IH. cbn [filter].
  destruct (row_key path r) as [k'|]; cbn [some_list map filter fst okey_eqb];
    [|reflexivity].
  destruct (key_eqb k k') eqn:E; [|reflexivity].
  apply key_eqb_eq in E. now subst k'.
Qed.

(** The equality lookup on an index that is neither compound nor
    multi-entry: the rows that have the key, as the table has them. *)
Lemma where_equals_plain (shape name : string) (value : JsValue) (a : Access)
      (k : Key) (rows : list Row) :
  index_named shape name = Some a ->
  components a = None ->
  ix_compound (via a) = false ->
  ix_multi (via a) = false ->
  to_key value = Some k ->
  where_equals shape name value
  = {| refusal := None;
       yields := fun rows =>
         map snd (filter (fun e => key_eqb k (looked_up a (fst e)))
                    (index_entries a rows)) |}
  /\ yields (where_equals shape name value) rows
     = filter (fun r => okey_eqb (Some k) (row_key name r)) rows.
Proof.
  intros Ha Hwhole Hc Hm Hk.
  pose proof (index_named_whole _ _ Ha Hwhole Hc) as Hpath.
  unfold where_equals. rewrite Ha, Hk. split; [reflexivity|].
  cbn [yields]. unfold index_entries, looked_up. rewrite Hwhole.
  rewrite filter_sort
    by (intros; first [now apply key_leb_total | eapply key_leb_trans; eauto]).
  rewrite (flat_map_ext _
             (fun r => map (fun k' => (k', r)) (some_list (row_key name r))))
    by (intros r; now rewrite (@index_keys_plain (via a) name r Hc Hm Hpath)).
  rewrite plain_entries_filter.
  rewrite sort_alike.
  - rewrite map_map. cbn [snd]. apply map_id.
  - intros x y Hx Hy. apply in_map_iff in Hx, Hy.
    destruct Hx as (? & <- & _), Hy as (? & <- & _). apply key_leb_refl.
Qed.

(** ** The engine *)

Section EngineFacts.

Variable objHash : JsValue -> string.
Variable durationStringToMs : string -> Z.
Variable this : Cache.
Variable members : list (string * Member).

Local Abbreviation getExpiration' := (getExpiration durationStringToMs this).
Local Abbreviation isExpired' := (isExpired durationStringToMs this).
Local Abbreviation collect' := (collect durationStringToMs this).
Local Abbreviation find' := (find objHash durationStringToMs this members).
Local Abbreviation save' := (save objHash this members).
Local Abbreviation prune' := (prune durationStringToMs this).
Local Abbreviation candidates' := (candidates objHash).
Local Abbreviation selected' := (selected objHash).
Local Abbreviation drop_expired' := (drop_expired durationStringToMs this).
Local Abbreviation find_as_specified' :=
  (find_as_specified objHash durationStringToMs this).
Local Abbreviation stamp' := (stamp objHash).
Local Abbreviation run_call' := (run_call objHash durationStringToMs this members).
Local Abbreviation run_calls' := (run_calls objHash durationStringToMs this members).

Lemma isExpired_run (store : string) (entry : Row) (w : World) :
  isExpired' store entry w =
    (Returned (expired_at durationStringToMs this (clock w (tick w)) store entry),
     {| db := db w; clock := clock w; tick := S (tick w);
        console :=
          if expired_at durationStringToMs this (clock w (tick w)) store entry
             && logExpiration (configs this)
          then console w ++ [expiration_warning store]
          else console w;
        script := script w; closed := closed w |}).
Proof.
  unfold isExpired, expired_at, bind, Date_now, log, ret. simpl.
  destruct (entry_timestamp entry) as [t|]; simpl; [|reflexivity].
  destruct (t + getExpiration' store <? clock w (tick w)); simpl;
    [|reflexivity].
  destruct (logExpiration (configs this)); reflexivity.
Qed.

(** What a run of [collect] leaves of the world: the container, the
    clock and the script of faults as they were, the console longer by
    expiration warnings only. *)
Lemma collect_frame (store : string) (ie : bool) (rows : list Row) :
  forall (n : nat) (w : World),
  exists found w',
    collect' store ie rows n w = (Returned found, w')
    /\ db w' = db w /\ clock w' = clock w /\ faults w' = faults w
    /\ (tick w <= tick w')%nat
    /\ (exists k, console w' = console w ++ repeat (expiration_warning store) k)
    /\ (logExpiration (configs this) = false -> console w' = console w)
    /\ (List.length found <= n)%nat
    /\ incl found rows.
Proof.
  induction rows as [|entry rest IH]; intros n w.
  - exists [], w. simpl. unfold ret.
    repeat split; auto; try lia; try easy.
    exists O. simpl. now rewrite app_nil_r.
  - destruct n as [|n].
    + exists [], w. simpl. unfold ret.
      repeat split; auto; try lia; try easy.
      exists O. simpl. now rewrite app_nil_r.
    + cbn [collect]. destruct ie.
      * unfold bind at 1. unfold ret at 1.
        destruct (IH n w) as (found & w' & E & Hdb & Hck & Hf & Ht & Hc & Hl & Hn & Hi).
        exists (entry :: found), w'. unfold bind. rewrite E. unfold ret.
        repeat split; auto; simpl; try lia.
        intros r [<-|Hr]; [now left|right; auto].
      * unfold bind at 1. unfold bind at 1. rewrite isExpired_run.
        unfold ret at 1.
        set (w1 := {| db := db w; clock := clock w; tick := S (tick w);
                      console := _; script := script w; closed := closed w |}).
        assert (Hw1 : exists k, console w1 = console w ++ repeat (expiration_warning store) k).
        { subst w1. simpl.
          destruct (expired_at durationStringToMs this (clock w (tick w)) store entry
                    && logExpiration (configs this)).
          - now exists 1%nat.
          - exists O. simpl. now rewrite app_nil_r. }
        assert (Hw1' : logExpiration (configs this) = false -> console w1 = console w).
        { intros Hlog. subst w1. simpl. rewrite Hlog, andb_false_r. reflexivity. }
        destruct Hw1 as [k1 Hk1].
        destruct (expired_at durationStringToMs this (clock w (tick w)) store entry);
          cbn [negb].
        -- destruct (IH (S n) w1)
             as (found & w' & E & Hdb & Hck & Hf & Ht & [k Hc] & Hl & Hn & Hi).
           exists found, w'. rewrite E.
           repeat split; auto; try (simpl in *; congruence); try (simpl in *; lia).
           all: try (exists (k1 + k)%nat;
                     rewrite Hc, Hk1, repeat_app, app_assoc; reflexivity).
           all: try (intros Hlog; rewrite Hl, Hw1'; now auto).
           intros r Hr. right. auto.
        -- destruct (IH n w1)
             as (found & w' & E & Hdb & Hck & Hf & Ht & [k Hc] & Hl & Hn & Hi).
           exists (entry :: found), w'. unfold bind. rewrite E. unfold ret.
           repeat split; auto; try (simpl in *; congruence); try (simpl in *; lia).
           all: try (exists (k1 + k)%nat;
                     rewrite Hc, Hk1, repeat_app, app_assoc; reflexivity).
           all: try (intros Hlog; rewrite Hl, Hw1'; now auto).
           intros r [<-|Hr]; [now left|right; auto].
Qed.

(** Without the expiration filter the cursor hands over the first
    rows as they come. *)
Lemma collect_includeExpired (store : string) (rows : list Row) :
  forall (n : nat) (w : World),
    collect' store true rows n w = (Returned (firstn n rows), w).
Proof.
  induction rows as [|entry rest IH]; intros n w.
  - now rewrite firstn_nil.
  - destruct n as [|n]; [reflexivity|].
    cbn [collect]. unfold bind, ret. rewrite IH. reflexivity.
Qed.

(** With the filter, a row is handed over only if [isExpired] said no
    at the reading of the clock it was asked at. *)
Lemma collect_unexpired (store : string) (rows : list Row) :
  forall (n : nat) (w : World) (found : list Row) (w' : World),
    collect' store false rows n w = (Returned found, w') ->
    forall entry, In entry found ->
      exists m, (tick w <= m)%nat
                /\ expired_at durationStringToMs this (clock w m) store entry = false.
Proof.
  induction rows as [|entry rest IH]; intros n w found w' E.
  - inversion E; subst. contradiction.
  - destruct n as [|n]; [inversion E; subst; contradiction|].
    cbn [collect] in E. unfold bind at 1 in E. unfold bind at 1 in E.
    rewrite isExpired_run in E. unfold ret at 1 in E.
    destruct (expired_at durationStringToMs this (clock w (tick w)) store entry)
      eqn:Ex; cbn [negb] in E.
    + intros r Hr. destruct (IH _ _ _ _ E r Hr) as (m & Hm & Hx).
      simpl in Hm, Hx. exists m. split; [lia|exact Hx].
    + unfold bind in E.
      destruct (collect' store false rest n _) as [[more|e] w2] eqn:E2;
        [|discriminate].
      unfold ret in E. inversion E; subst.
      intros r [<-|Hr].
      * exists (tick w). split; [lia|exact Ex].
      * destruct (IH _ _ _ _ E2 r Hr) as (m & Hm & Hx).
        simpl in Hm, Hx. exists m. split; [lia|exact Hx].
Qed.

(** The two ways a request is answered. *)
Lemma faults_served (w : World) :
  hd None (faults w) = None ->
  closed w = false /\ faults w = script w /\ hd None (script w) = None.
Proof.
  unfold faults. destruct (closed w); [discriminate|]. auto.
Qed.

Lemma faults_failed (w : World) (e : JsError) (later : list (option JsError)) :
  faults w = Some e :: later ->
  (closed w = true /\ e = DatabaseClosedError /\ later = script w)
  \/ (closed w = false /\ script w = Some e :: later).
Proof.
  unfold faults. destruct (closed w); intros H.
  - left. injection H as <- <-. auto.
  - right. auto.
Qed.

Lemma request_served (w : World) :
  hd None (faults w) = None ->
  request w =
    (Returned tt,
     {| db := db w; clock := clock w; tick := tick w; console := console w;
        script := tl (script w); closed := closed w |}).
Proof.
  intros H. destruct (faults_served w H) as (Hc & _ & Hs).
  unfold request. rewrite Hc.
  destruct w as [d c t l [|[e|] f] cl]; simpl in *; try discriminate; subst;
    reflexivity.
Qed.

Lemma request_failed (w : World) (e : JsError) (later : list (option JsError)) :
  faults w = Some e :: later ->
  request w =
    (Thrown e,
     {| db := db w; clock := clock w; tick := tick w; console := console w;
        script := later; closed := closed w |}).
Proof.
  intros H. unfold request.
  destruct (faults_failed w H) as [(Hc & -> & ->)|(Hc & Hs)]; rewrite Hc.
  - destruct w; simpl in *; subst; reflexivity.
  - rewrite Hs. reflexivity.
Qed.

Lemma request_frame (w : World) :
  let w' := snd (request w) in
  db w' = db w /\ clock w' = clock w /\ tick w' = tick w /\ console w' = console w.
Proof.
  unfold request. destruct (closed w); [simpl; auto|].
  destruct (script w) as [|[e|] f]; simpl; auto.
Qed.

(** The answers that follow a served request. *)
Lemma faults_next (w : World) :
  hd None (faults w) = None ->
  faults {| db := db w; clock := clock w; tick := tick w; console := console w;
            script := tl (script w); closed := closed w |}
  = tl (faults w).
Proof.
  intros H. destruct (faults_served w H) as (Hc & Hf & _).
  unfold faults at 1. cbn [closed script]. now rewrite Hc, Hf.
Qed.

Lemma faults_same (w' w : World) :
  script w' = script w -> closed w' = closed w -> faults w' = faults w.
Proof. unfold faults. now intros -> ->. Qed.

Lemma faults_tl (w' w : World) :
  hd None (faults w) = None ->
  script w' = tl (script w) -> closed w' = closed w ->
  faults w' = tl (faults w).
Proof.
  intros H Hs Hc. destruct (faults_served w H) as (Hcl & Hf & _).
  unfold faults at 1. now rewrite Hc, Hcl, Hs, Hf.
Qed.

(** What the handle holds under a name. *)
Lemma handle_table (store shape : string) :
  obj_get store (tables this) = Some shape -> handle members this store = is_table shape.
Proof. unfold handle. now intros ->. Qed.

Lemma handle_other (store : string) :
  (forall shape, handle members this store <> is_table shape) ->
  obj_get store (tables this) = None.
Proof.
  intros H. destruct (obj_get store (tables this)) as [shape|] eqn:E;
    [|reflexivity].
  elim (H shape). now apply handle_table.
Qed.

Lemma find_known (store shape : string) (query : CacheQuery) :
  obj_get store (tables this) = Some shape ->
  find' store query =
    match chained objHash shape query with
    | inl e => throw e
    | inr table =>
        (found <- run durationStringToMs this store table
                    (q_includeExpired query) (limit_count query) ;;
         ret (shape_result query found))%cache
    end.
Proof.
  intros H. unfold find. rewrite (handle_table store H).
  unfold find_in_table, chained, limit_count, shape_result.
  destruct (truthy (q_orderBy query)), (descending query), (q_where query),
    (q_filter query), (q_includeExpired query), (q_limit query); reflexivity.
Qed.



(** What a chain yields is of the table. *)
Lemma chained_incl (shape : string) (query : CacheQuery) (c : Chain)
      (rows : list Row) :
  chained objHash shape query = inr c -> incl (yields (over c) rows) rows.
Proof.
  assert (Hfilter : forall (p : Row -> bool) l, incl l rows -> incl (filter p l) rows).
  { intros p l H x Hx. apply filter_In in Hx. apply H. tauto. }
  assert (Hrev : forall l : list Row, incl l rows -> incl (rev l) rows).
  { intros l H x Hx. apply in_rev in Hx. now apply H. }
  unfold chained.
  destruct (truthy (q_orderBy query)), (descending query), (q_where query),
    (q_filter query), (q_includeExpired query), (q_limit query);
    cbn; intros E; try discriminate E; injection E as <-; cbn;
    repeat first [apply Hfilter | apply Hrev];
    first [apply ordered_by_incl | apply Table_where_incl | apply incl_refl].
Qed.

(** A query by key fields alone goes to [where]. *)
Lemma chained_where_query (shape : string) (criteria : JsObject)
      (includeExpired : bool) :
  chained objHash shape (where_query criteria includeExpired)
  = inr {| is_collection := true;
           over := Table_where shape (hashObjectProps objHash criteria) |}.
Proof. destruct includeExpired; reflexivity. Qed.

(** The runs of a chain. *)
Lemma run_served (store : string) (c : Chain) (ie : bool) (n : nat) (w : World) :
  hd None (faults w) = None ->
  refusal (over c) = None ->
  run durationStringToMs this store c ie n w =
    match collect' store ie (yields (over c) (db w store)) (Nat.max 1 n)
            {| db := db w; clock := clock w; tick := tick w;
               console := console w; script := tl (script w);
               closed := closed w |} with
    | (Returned found, w2) => (Returned (firstn n found), w2)
    | (Thrown e, w2) => (Thrown e, w2)
    end.
Proof.
  intros Hf Hr. unfold run. unfold bind at 1. rewrite (request_served w Hf).
  rewrite Hr. unfold bind at 1. unfold read_table at 1. cbn [db].
  unfold bind. destruct (collect' _ _ _ _ _) as [[found|e] w2]; reflexivity.
Qed.

Lemma run_refused (store : string) (c : Chain) (ie : bool) (n : nat) (w : World)
      (e : JsError) :
  hd None (faults w) = None ->
  refusal (over c) = Some e ->
  run durationStringToMs this store c ie n w =
    (Thrown e,
     {| db := db w; clock := clock w; tick := tick w; console := console w;
        script := tl (script w); closed := closed w |}).
Proof.
  intros Hf Hr. unfold run. unfold bind at 1. rewrite (request_served w Hf).
  now rewrite Hr.
Qed.

Lemma run_failed (store : string) (c : Chain) (ie : bool) (n : nat) (w : World)
      (e : JsError) (later : list (option JsError)) :
  faults w = Some e :: later ->
  run durationStringToMs this store c ie n w =
    (Thrown e,
     {| db := db w; clock := clock w; tick := tick w; console := console w;
        script := later; closed := closed w |}).
Proof.
  intros Hf. unfold run. unfold bind at 1. now rewrite (request_failed w Hf).
Qed.

Lemma find_run_served (store shape : string) (query : CacheQuery) (c : Chain)
      (w : World) :
  obj_get store (tables this) = Some shape ->
  chained objHash shape query = inr c ->
  refusal (over c) = None ->
  hd None (faults w) = None ->
  find' store query w =
    match collect' store (q_includeExpired query) (yields (over c) (db w store))
            (Nat.max 1 (limit_count query))
            {| db := db w; clock := clock w; tick := tick w;
               console := console w; script := tl (script w);
               closed := closed w |} with
    | (Returned found, w2) =>
        (Returned (shape_result query (firstn (limit_count query) found)), w2)
    | (Thrown e, w2) => (Thrown e, w2)
    end.
Proof.
  intros Hs Hc Hr Hf. rewrite (@find_known store shape query Hs), Hc.
  unfold bind. rewrite (run_served store c _ _ w Hf Hr).
  destruct (collect' _ _ _ _ _) as [[found|e] w2]; reflexivity.
Qed.

Lemma find_run_refused (store shape : string) (query : CacheQuery) (c : Chain)
      (w : World) (e : JsError) :
  obj_get store (tables this) = Some shape ->
  chained objHash shape query = inr c ->
  refusal (over c) = Some e ->
  hd None (faults w) = None ->
  find' store query w =
    (Thrown e,
     {| db := db w; clock := clock w; tick := tick w; console := console w;
        script := tl (script w); closed := closed w |}).
Proof.
  intros Hs Hc Hr Hf. rewrite (@find_known store shape query Hs), Hc.
  unfold bind. now rewrite (run_refused store c _ _ w Hf Hr).
Qed.

Lemma find_run_failed (store shape : string) (query : CacheQuery) (c : Chain)
      (w : World) (e : JsError) (later : list (option JsError)) :
  obj_get store (tables this) = Some shape ->
  chained objHash shape query = inr c ->
  faults w = Some e :: later ->
  find' store query w =
    (Thrown e,
     {| db := db w; clock := clock w; tick := tick w; console := console w;
        script := later; closed := closed w |}).
Proof.
  intros Hs Hc Hf. rewrite (@find_known store shape query Hs), Hc.
  unfold bind. now rewrite (run_failed store c _ _ w Hf).
Qed.

(** A call that the handle in hand does not have: the call is not
    made, and no request is sent. *)
Lemma find_run_thrown (store shape : string) (query : CacheQuery) (w : World)
      (e : JsError) :
  obj_get store (tables this) = Some shape ->
  chained objHash shape query = inl e ->
  find' store query w = (Thrown e, w).
Proof.
  intros Hs Hc. now rewrite (@find_known store shape query Hs), Hc.
Qed.

Lemma returned_found (query : CacheQuery) (found : list Row) (entry : Row) :
  returned (Returned (shape_result query found)) entry -> In entry found.
Proof.
  unfold returned, shape_result. destruct (q_limit query); [auto|].
  destruct found as [|r rest]; simpl; [tauto|]. intros ->. now left.
Qed.

Lemma In_firstn (A : Type) (n : nat) (l : list A) (x : A) :
  In x (firstn n l) -> In x l.
Proof.
  revert l. induction n as [|n IH]; intros [|h t]; simpl; try tauto.
  intros [->|H]; auto.
Qed.

Lemma each_isExpired_frame (store : string) (items : list JsObject) :
  forall w, exists w',
    each_isExpired durationStringToMs this store items w = (Returned tt, w')
    /\ db w' = db w /\ clock w' = clock w /\ (tick w <= tick w')%nat
    /\ (exists k, console w' = console w ++ repeat (expiration_warning store) k)
    /\ (logExpiration (configs this) = false -> console w' = console w).
Proof.
  induction items as [|item rest IH]; intros w.
  - exists w. repeat split; auto. exists O. simpl. now rewrite app_nil_r.
  - cbn [each_isExpired]. unfold bind at 1. rewrite isExpired_run.
    match goal with |- context [each_isExpired _ _ _ _ ?w1] =>
      destruct (IH w1) as (w' & E & Hdb & Hck & Ht & [k Hc] & Hl) end.
    exists w'. rewrite E. simpl in *.
    repeat split; auto; try lia.
    + destruct (expired_at durationStringToMs this (clock w (tick w)) store item
                && logExpiration (configs this)).
      * exists (S k). rewrite Hc, <- app_assoc. reflexivity.
      * now exists k.
    + intros Hlog. rewrite Hl by exact Hlog. now rewrite Hlog, andb_false_r.
Qed.

Lemma find_in_member_thrown (store : string) (m : Member) (query : CacheQuery)
      (w : World) :
  fst (find_in_member durationStringToMs this store m query w) = Thrown TypeError.
Proof.
  unfold find_in_member. destruct m as [|items|]; try reflexivity.
  destruct (truthy (q_orderBy query)), (descending query), (q_where query);
    try reflexivity.
  unfold bind. destruct (q_includeExpired query); [reflexivity|].
  match goal with |- context [each_isExpired _ _ _ ?l w] =>
    destruct (each_isExpired_frame store l w) as (w1 & E & _) end.
  now rewrite E.
Qed.

(** What a call of [find] leaves of the world, and where the entries
    it hands over come from. *)
Lemma find_effects (store : string) (query : CacheQuery) (w : World)
      (r : Outcome FindResult) (w' : World) :
  find' store query w = (r, w') ->
  db w' = db w /\ clock w' = clock w /\ (tick w <= tick w')%nat
  /\ (exists lines,
         console w' = console w ++ lines
         /\ Forall (fun line => line = expiration_warning store
                                \/ line = store_not_found store) lines)
  /\ (logExpiration (configs this) = false ->
      obj_get store (tables this) <> None ->
      console w' = console w)
  /\ (forall entry,
         returned r entry ->
         In entry (db w store)
         /\ (q_includeExpired query = false ->
             exists m, (tick w <= m)%nat
                       /\ expired_at durationStringToMs this (clock w m) store entry
                          = false)).
Proof.
  assert (Hquiet : forall w0 : World,
             exists lines,
               console w0 = console w0 ++ lines
               /\ Forall (fun line => line = expiration_warning store
                                      \/ line = store_not_found store) lines).
  { intros w0. exists []. split; [now rewrite app_nil_r|constructor]. }
  assert (Hwarned : forall (w0 w1 : World) k,
             console w1 = console w0 ++ repeat (expiration_warning store) k ->
             exists lines,
               console w1 = console w0 ++ lines
               /\ Forall (fun line => line = expiration_warning store
                                      \/ line = store_not_found store) lines).
  { intros w0 w1 k Hk. exists (repeat (expiration_warning store) k).
    split; [exact Hk|]. apply Forall_forall. intros line Hin.
    apply repeat_spec in Hin. now left. }
  assert (Hmissing : forall result,
             (result,
              {| db := db w; clock := clock w; tick := tick w;
                 console := console w ++ [store_not_found store];
                 script := script w; closed := closed w |}) = (r, w') ->
             obj_get store (tables this) = None ->
             result = Returned (Entry None) ->
             db w' = db w /\ clock w' = clock w /\ (tick w <= tick w')%nat
             /\ (exists lines,
                    console w' = console w ++ lines
                    /\ Forall (fun line => line = expiration_warning store
                                           \/ line = store_not_found store) lines)
             /\ (logExpiration (configs this) = false ->
                 obj_get store (tables this) <> None ->
                 console w' = console w)
             /\ (forall entry,
                    returned r entry ->
                    In entry (db w store)
                    /\ (q_includeExpired query = false ->
                        exists m, (tick w <= m)%nat
                                  /\ expired_at durationStringToMs this (clock w m)
                                       store entry = false))).
  { intros result E Hnone ->. inversion E; subst r w'. cbn.
    repeat split; auto; try contradiction.
    exists [store_not_found store]. split; [reflexivity|].
    constructor; [now right|constructor]. }
  intros Hrun.
  destruct (obj_get store (tables this)) as [shape|] eqn:Hs.
  - rewrite (@find_known store shape query Hs) in Hrun.
    destruct (chained objHash shape query) as [e|c] eqn:Hc.
    { inversion Hrun; subst r w'. cbn. repeat split; auto; contradiction. }
    unfold bind at 1, run in Hrun. unfold bind at 1 in Hrun.
    pose proof (request_frame w) as Hreq.
    destruct (request w) as [[[]|e] w1]; simpl in Hreq;
      destruct Hreq as (Hdb1 & Hck1 & Ht1 & Hc1);
      [|inversion Hrun; subst r w'; cbn;
        rewrite Hdb1, Hck1, Ht1, Hc1; repeat split; auto; contradiction].
    destruct (refusal (over c));
      [inversion Hrun; subst r w'; cbn;
       rewrite Hdb1, Hck1, Ht1, Hc1; repeat split; auto; contradiction|].
    unfold bind at 1 in Hrun. unfold read_table at 1 in Hrun.
    unfold bind at 1 in Hrun.
    destruct (collect_frame store (q_includeExpired query)
                (yields (over c) (db w1 store))
                (Nat.max 1 (limit_count query)) w1)
      as (found & w2 & E & Hdb & Hck & _ & Ht & [k Hk] & Hl & _ & Hi).
    rewrite E in Hrun. unfold ret in Hrun. inversion Hrun; subst r w'.
    split; [congruence|]. split; [congruence|]. split; [lia|].
    split; [apply (Hwarned w w2 k); now rewrite Hk, Hc1|].
    split; [intros Hlog _; rewrite Hl by exact Hlog; exact Hc1|].
    intros entry Hret. apply returned_found, In_firstn in Hret. split.
    + rewrite <- Hdb1. eapply chained_incl; [exact Hc|]. now apply Hi.
    + intros Hie. rewrite Hie in E.
      destruct (@collect_unexpired store _ _ _ _ _ E entry Hret) as (m & Hm & Hx).
      exists m. rewrite <- Hck1. split; [lia|exact Hx].
  - unfold find, handle in Hrun. rewrite Hs in Hrun.
    destruct (String.eqb store "tables").
    { unfold find_in_member in Hrun.
      destruct (truthy (q_orderBy query)), (descending query), (q_where query);
        try (inversion Hrun; subst r w'; cbn; repeat split; auto; contradiction).
      unfold bind in Hrun. destruct (q_includeExpired query).
      - inversion Hrun; subst r w'; cbn; repeat split; auto; contradiction.
      - match type of Hrun with context [each_isExpired _ _ _ ?items w] =>
          destruct (each_isExpired_frame store items w)
            as (w1 & E & Hdb & Hck & Ht & [k Hk] & Hl) end.
        rewrite E in Hrun. inversion Hrun; subst r w'. cbn.
        repeat split; auto; try contradiction. now apply (Hwarned w w1 k). }
    destruct (String.eqb store "version" || String.eqb store "delete").
    { inversion Hrun; subst r w'. cbn. repeat split; auto; contradiction. }
    destruct (obj_get store members) as [[|items|]|].
    + now apply (Hmissing _ Hrun).
    + unfold find_in_member in Hrun.
      destruct (truthy (q_orderBy query)), (descending query), (q_where query);
        try (inversion Hrun; subst r w'; cbn; repeat split; auto; contradiction).
      unfold bind in Hrun. destruct (q_includeExpired query).
      * inversion Hrun; subst r w'; cbn; repeat split; auto; contradiction.
      * match type of Hrun with context [each_isExpired _ _ _ ?l w] =>
          destruct (each_isExpired_frame store l w)
            as (w1 & E & Hdb & Hck & Ht & [k Hk] & Hl) end.
        rewrite E in Hrun. inversion Hrun; subst r w'. cbn.
        repeat split; auto; try contradiction. now apply (Hwarned w w1 k).
    + inversion Hrun; subst r w'. cbn. repeat split; auto; contradiction.
    + now apply (Hmissing _ Hrun).
Qed.

(** An entry that [find] hands over under the expiration filter was
    not expired at some reading of the clock during the call. *)
Lemma find_returned_unexpired (store : string) (query : CacheQuery) (w : World)
      (entry : Row) :
  q_includeExpired query = false ->
  returned (fst (find' store query w)) entry ->
  exists m, (tick w <= m)%nat
            /\ expired_at durationStringToMs this (clock w m) store entry = false.
Proof.
  intros Hie Hret.
  destruct (find' store query w) as [r w'] eqn:Hrun.
  destruct (find_effects _ _ _ Hrun) as (_ & _ & _ & _ & _ & Hfound).
  now apply (Hfound entry Hret).
Qed.

Lemma hd_error_firstn_1 (A : Type) (l : list A) : hd_error (firstn 1 l) = hd_error l.
Proof. now destruct l. Qed.

(** A query by the primary key of the store: the key field alone,
    once normalised. *)
Lemma where_by_key (shape : string) (criteria : JsObject) (value : JsValue)
      (k : Key) :
  compound_paths (primKey shape) = None ->
  hashObjectProps objHash criteria = [(primKey shape, value)] ->
  to_key value = Some k ->
  refusal (Table_where shape (hashObjectProps objHash criteria)) = None
  /\ (forall rows,
         yields (Table_where shape (hashObjectProps objHash criteria)) rows
         = filter (fun r => okey_eqb (Some k) (row_key (primKey shape) r)) rows).
Proof.
  intros Hplain -> Hk. cbn [Table_where].
  assert (Hc : ix_compound (primary shape) = false).
  { unfold primary, index_spec. now rewrite Hplain. }
  assert (Hm : ix_multi (primary shape) = false).
  { unfold primary, index_spec. now destruct (compound_paths (primKey shape)). }
  split.
  - destruct (@where_equals_plain shape (primKey shape) value _ k []
                (index_named_primary shape) eq_refl Hc Hm Hk) as [-> _].
    reflexivity.
  - intros rows.
    now destruct (@where_equals_plain shape (primKey shape) value _ k rows
                    (index_named_primary shape) eq_refl Hc Hm Hk) as [_ ->].
Qed.

Lemma find_by_key (store shape : string) (criteria : JsObject) (value : JsValue)
      (k : Key) (includeExpired : bool) (w : World) :
  obj_get store (tables this) = Some shape ->
  compound_paths (primKey shape) = None ->
  hashObjectProps objHash criteria = [(primKey shape, value)] ->
  to_key value = Some k ->
  hd None (faults w) = None ->
  find' store (where_query criteria includeExpired) w =
    match collect' store includeExpired
            (filter (fun r => okey_eqb (Some k) (row_key (primKey shape) r))
               (db w store))
            1
            {| db := db w; clock := clock w; tick := tick w;
               console := console w; script := tl (script w);
               closed := closed w |} with
    | (Returned found, w2) => (Returned (Entry (hd_error found)), w2)
    | (Thrown e, w2) => (Thrown e, w2)
    end.
Proof.
  intros Hs Hplain Hcrit Hk Hf.
  destruct (where_by_key shape criteria Hplain Hcrit Hk) as [Hr Hy].
  rewrite (@find_run_served store shape _ _ w Hs
             (chained_where_query shape criteria includeExpired) Hr Hf).
  cbn [over q_includeExpired where_query limit_count q_limit Nat.max].
  rewrite Hy.
  destruct (collect' _ _ _ _ _) as [[found|e] w2]; [|reflexivity].
  unfold shape_result. cbn [q_limit]. now rewrite hd_error_firstn_1.
Qed.


(** C9. Under [version] and [delete], which are members of the
    handle and no tables, the guard of [find] and [save] lets the call
    through: [find] is rejected with a [TypeError] (the member has none
    of the methods of a table), and [save] returns after a [put] that
    is not there, whose error the handler drops; neither leaves the
    store-not-found line on the console. *)
Theorem member_names_pass_the_guard (store : string)
  (Hs : obj_get store (tables this) = None)
  (Hmember : store = "version"%string \/ store = "delete"%string) :
  (forall query w,
      find' store query w = (Thrown TypeError, w))
  /\ (forall data entry w,
         fst (save' store data entry w) = Returned tt
         /\ db (snd (save' store data entry w)) = db w
         /\ console (snd (save' store data entry w)) = console w).
Proof.
  assert (Hh : handle members this store = is_member member_other).
  { unfold handle. rewrite Hs. now destruct Hmember as [-> | ->]. }
  split.
  - intros query w. unfold find. now rewrite Hh.
  - intros data entry w. unfold save. now rewrite Hh.
Qed.

(** ** Pruning *)

Lemma serving_hd (w : World) : serving w -> hd None (faults w) = None.
Proof.
  unfold serving. destruct (faults w) as [|a l]; [reflexivity|].
  intros H. now inversion H.
Qed.

Lemma serving_tl (w : World) :
  serving w -> Forall (fun answer => answer = None) (tl (faults w)).
Proof.
  unfold serving. destruct (faults w) as [|a l]; [auto|].
  intros H. now inversion H.
Qed.

Lemma serving_after (w w' : World) :
  serving w -> script w' = tl (script w) -> closed w' = closed w -> serving w'.
Proof.
  intros H Hs Hc. unfold serving.
  rewrite (faults_tl w' w (serving_hd H) Hs Hc). now apply serving_tl.
Qed.

Lemma delete_where_run (store : string) (p : Row -> bool) (w : World) :
  hd None (faults w) = None ->
  delete_where store p w =
    (Returned (Z.of_nat (List.length (filter p (db w store)))),
     {| db := fun s => if String.eqb s store
                       then filter (fun r => negb (p r)) (db w store)
                       else db w s;
        clock := clock w; tick := tick w; console := console w;
        script := tl (script w); closed := closed w |}).
Proof.
  intros Hf. unfold delete_where. unfold bind at 1.
  rewrite (request_served w Hf). reflexivity.
Qed.

Lemma prune_loop_run (stores : list string) :
  forall (pruned : list (string * Z)) (w : World),
    NoDup stores ->
    (forall s, In s stores -> obj_get s (tables this) <> None) ->
    serving w ->
    exists report w',
      prune_loop durationStringToMs this stores pruned w = (Returned report, w')
      /\ clock w' = clock w
      /\ console w' = console w
      /\ serving w'
      /\ (forall s, ~ In s stores ->
                    db w' s = db w s /\ obj_get s report = obj_get s pruned)
      /\ (forall i s,
             nth_error stores i = Some s ->
             let cutoff := clock w (tick w + i)%nat - getExpiration' s in
             db w' s = filter (fun e => negb (stale cutoff e)) (db w s)
             /\ obj_get s report =
                  let removed := Z.of_nat (List.length (filter (stale cutoff) (db w s))) in
                  if removed =? 0 then obj_get s pruned else Some removed).
Proof.
  induction stores as [|store rest IH]; intros pruned w Hnd Hknown Hserv.
  - exists pruned, w. simpl. unfold ret.
    split; [reflexivity|]. split; [reflexivity|]. split; [reflexivity|].
    split; [exact Hserv|]. split; [auto|].
    intros [|i] s; discriminate.
  - inversion Hnd as [|? ? Hfresh Hnd']; subst.
    cbn [prune_loop]. unfold bind at 1. unfold Date_now at 1.
    destruct (obj_get store (tables this)) as [shape|] eqn:Hs;
      [|exfalso; apply (Hknown store); [now left|exact Hs]].
    set (cutoff := clock w (tick w) - getExpiration' store).
    set (w1 := {| db := db w; clock := clock w; tick := S (tick w);
                  console := console w; script := script w; closed := closed w |}).
    unfold bind at 1.
    change (fun entry : Row =>
              match entry_timestamp entry with
              | Some t => t <? cutoff
              | None => false
              end) with (stale cutoff).
    rewrite (delete_where_run store (stale cutoff) w1)
      by (apply serving_hd; exact Hserv).
    set (removed := Z.of_nat (List.length (filter (stale cutoff) (db w1 store)))).
    set (w2 := {| db := _; clock := clock w1; tick := tick w1;
                  console := console w1; script := tl (script w1); closed := closed w1 |}).
    set (pruned' := if removed =? 0 then pruned else obj_set store removed pruned).
    destruct (IH pruned' w2 Hnd') as (report & w' & E & Hck & Hc & Hsv & Hout & Hin).
    { intros s Hin. apply Hknown. now right. }
    { unfold serving. rewrite (faults_tl w2 w);
        [now apply serving_tl|now apply serving_hd|reflexivity|reflexivity]. }
    exists report, w'. rewrite E.
    split; [reflexivity|]. split; [exact Hck|]. split; [exact Hc|].
    split; [exact Hsv|]. split.
    + intros s Hs'. simpl in Hs'.
      destruct (Hout s) as [Hd Hr]; [tauto|]. rewrite Hd, Hr. split.
      * subst w2. simpl.
        destruct (String.eqb s store) eqn:Es; [|reflexivity].
        apply String.eqb_eq in Es. subst s. tauto.
      * subst pruned'. destruct (removed =? 0); [reflexivity|].
        apply obj_get_set_other. intuition congruence.
    + intros [|i] s Hnth; simpl in Hnth.
      * inversion Hnth; subst s. replace (tick w + 0)%nat with (tick w) by lia.
        destruct (Hout store Hfresh) as [Hd Hr]. cbv zeta. rewrite Hd, Hr. split.
        -- subst w2. simpl. now rewrite String.eqb_refl.
        -- fold cutoff. change (db w store) with (db w1 store). fold removed.
           subst pruned'. destruct (removed =? 0); [reflexivity|].
           apply obj_get_set_same.
      * destruct (Hin i s Hnth) as [Hd Hr]. cbv zeta. rewrite Hd, Hr.
        assert (Hne : s <> store).
        { intros ->. apply Hfresh. eapply nth_error_In; eauto. }
        subst w2 w1. simpl.
        replace (tick w + S i)%nat with (S (tick w + i)) by lia.
        pose proof Hne as Hne'. apply String.eqb_neq in Hne'. rewrite Hne'.
        split; [reflexivity|].
        subst pruned'. destruct (removed =? 0); [reflexivity|].
        now rewrite obj_get_set_other.
Qed.


(** C10. [find] is a read: whatever the store and the query, the
    container is after the call what it was before, every entry that
    was stored is still stored, and the console is longer only by
    expiration warnings of that store or by the store-not-found line;
    it is unchanged when the store is known and [logExpiration] is
    off.  In particular an entry that [find] left out as expired is
    still in its table after the call, and it is a [prune] of the
    store that removes it. *)
Theorem find_reads_only (store : string) (query : CacheQuery) (w : World) :
  let w' := snd (find' store query w) in
  db w' = db w
  /\ (forall s entry, In entry (db w s) -> In entry (db w' s))
  /\ (exists lines,
         console w' = console w ++ lines
         /\ Forall (fun line => line = expiration_warning store
                                \/ line = store_not_found store) lines)
  /\ (logExpiration (configs this) = false ->
      obj_get store (tables this) <> None ->
      console w' = console w)
  /\ (forall entry t,
         obj_get store (tables this) <> None ->
         serving w' ->
         In entry (db w store) ->
         entry_timestamp entry = Some t ->
         t < clock w' (tick w') - getExpiration' store ->
         In entry (db w' store)
         /\ ~ In entry (db (snd (prune' (Some (inl store)) w')) store)).
Proof.
  destruct (find' store query w) as [r w'] eqn:Hrun.
  destruct (find_effects _ _ _ Hrun) as (Hdb & _ & _ & Hc & Hl & _).
  cbn [snd]. split; [exact Hdb|]. split; [intros s entry; now rewrite Hdb|].
  split; [exact Hc|]. split; [exact Hl|].
  intros entry t Hknown Hserving Hin Ht Hstale.
  split; [now rewrite Hdb|].
  destruct (@prune_loop_run [store] [] w') as (report & w'' & E & _ & _ & _ & _ & Hswept).
  - repeat constructor. intros [].
  - intros s [<-|[]]. exact Hknown.
  - exact Hserving.
  - unfold prune, prune_targets. rewrite E. cbn [snd].
    destruct (Hswept O store eq_refl) as [Hrows _].
    rewrite Hrows. replace (tick w' + 0)%nat with (tick w') by lia.
    intros Hleft. apply filter_In in Hleft. destruct Hleft as [_ Hkeep].
    unfold stale in Hkeep. rewrite Ht in Hkeep.
    apply negb_true_iff, Z.ltb_ge in Hkeep. lia.
Qed.

(** ** The order of the clauses *)

(** The lookup by the primary key, as a selection of rows. *)
Lemma candidates_by_key (shape : string) (criteria : JsObject) (value : JsValue)
      (k : Key) (includeExpired : bool) (rows : list Row) :
  hashObjectProps objHash criteria = [(primKey shape, value)] ->
  to_key value = Some k ->
  candidates' (where_query criteria includeExpired) rows
  = filter (fun r => okey_eqb (Some k) (row_key (primKey shape) r)) rows.
Proof.
  intros Hcrit Hk. unfold candidates, where_query, where_, row_matches.
  cbn [q_where q_orderBy q_order q_filter truthy]. rewrite Hcrit.
  apply filter_ext. intros r. cbn [forallb fst snd]. rewrite Hk.
  apply andb_true_r.
Qed.

(** C8. [find] chains the clauses as [orderBy], [desc], [where],
    [filter], the expiration filter, then [first] or [limit]: the
    ordering comes before the lookup, and each call is made on what
    the call before it gave.  On a declared store, a query with both
    an ordering and a [where] is rejected with a [TypeError] (what
    [orderBy] gives has no [where]), and so is a descending order
    without an ordering (the table has no [desc]), and a query without
    any clause nor limit that asks for the expired entries too (the
    table has no [first]); no request reaches the table store and the
    world is as it was. *)
Theorem find_breaks_its_chain (store shape : string) (query : CacheQuery)
  (w : World)
  (Hs : obj_get store (tables this) = Some shape) :
  (forall criteria index,
      q_where query = Some criteria ->
      truthy (q_orderBy query) = Some index ->
      find' store query w = (Thrown TypeError, w))
  /\ (descending query = true ->
      truthy (q_orderBy query) = None ->
      find' store query w = (Thrown TypeError, w))
  /\ (truthy (q_orderBy query) = None ->
      descending query = false ->
      q_where query = None ->
      q_filter query = None ->
      q_includeExpired query = true ->
      q_limit query = None ->
      find' store query w = (Thrown TypeError, w)).
Proof.
  split; [|split].
  - intros criteria index Hw Ho. apply (@find_run_thrown store shape); [exact Hs|].
    unfold chained. rewrite Hw, Ho. now destruct (descending query).
  - intros Hd Ho. apply (@find_run_thrown store shape); [exact Hs|].
    unfold chained. now rewrite Hd, Ho.
  - intros Ho Hd Hw Hp Hie Hl. apply (@find_run_thrown store shape); [exact Hs|].
    unfold chained. now rewrite Ho, Hd, Hw, Hp, Hie, Hl.
Qed.

(** ** Saving *)

Lemma put_run_served (store shape : string) (row : Row) (rows' : list Row) (w : World) :
  hd None (faults w) = None ->
  table_put (primKey shape) row (db w store) = Some rows' ->
  put store shape row w =
    (Returned tt,
     {| db := fun s => if String.eqb s store then rows' else db w s;
        clock := clock w; tick := tick w; console := console w;
        script := tl (script w); closed := closed w |}).
Proof.
  intros Hf Hp. unfold put. unfold bind at 1. rewrite (request_served w Hf).
  unfold bind, read_table. cbn [db]. rewrite Hp. reflexivity.
Qed.

Lemma put_run_refused (store shape : string) (row : Row) (w : World) :
  hd None (faults w) = None ->
  table_put (primKey shape) row (db w store) = None ->
  put store shape row w =
    (Thrown DataError,
     {| db := db w; clock := clock w; tick := tick w; console := console w;
        script := tl (script w); closed := closed w |}).
Proof.
  intros Hf Hp. unfold put. unfold bind at 1. rewrite (request_served w Hf).
  unfold bind, read_table. cbn [db]. rewrite Hp. reflexivity.
Qed.

Lemma put_run_failed (store shape : string) (row : Row) (w : World)
      (e : JsError) (later : list (option JsError)) :
  faults w = Some e :: later ->
  put store shape row w =
    (Thrown e,
     {| db := db w; clock := clock w; tick := tick w; console := console w;
        script := later; closed := closed w |}).
Proof.
  intros Hf. unfold put. unfold bind at 1. now rewrite (request_failed w Hf).
Qed.

Lemma handleError_ignores (error : JsError) (store : option string) (w : World) :
  upgrade_signal error = false ->
  handleError error store w = (Returned tt, w).
Proof.
  unfold handleError, upgrade_signal. intros ->. reflexivity.
Qed.

Lemma handleError_resets (error : JsError) (store : option string) (w : World) :
  upgrade_signal error = true ->
  hd None (faults w) = None ->
  handleError error store w =
    (Returned tt,
     {| db := fun _ => []; clock := clock w; tick := tick w;
        console := console w ++ [upgrade_warning];
        script := tl (script w); closed := true |}).
Proof.
  unfold handleError, upgrade_signal. intros -> Hf.
  unfold bind at 1. unfold log at 1. unfold clearAll, db_delete.
  unfold bind at 1.
  rewrite request_served by exact Hf. reflexivity.
Qed.

Lemma save_known (store shape : string) (data : JsValue) (entry : JsObject)
      (w : World) :
  obj_get store (tables this) = Some shape ->
  save' store data entry w =
    try_catch (put store shape (stamp' data (clock w (tick w)) entry))
      (fun e => handleError e (Some store))
      {| db := db w; clock := clock w; tick := S (tick w);
         console := console w; script := script w; closed := closed w |}.
Proof. intros Hs. unfold save. rewrite (handle_table store Hs). reflexivity. Qed.

Lemma stamp_timestamp (data : JsValue) (now : Z) (entry : JsObject) :
  entry_timestamp (stamp' data now entry) = Some now.
Proof.
  unfold entry_timestamp, stamp. now rewrite obj_get_set_same.
Qed.

Lemma stamp_data (data : JsValue) (now : Z) (entry : JsObject) :
  obj_get "data" (stamp' data now entry) = Some data.
Proof.
  unfold stamp. rewrite obj_get_set_other by discriminate.
  apply obj_get_set_same.
Qed.

Lemma stamp_key_field (data : JsValue) (now : Z) (entry : JsObject) (key : string) :
  key <> "data"%string -> key <> "timestamp"%string ->
  obj_get key (stamp' data now entry) = obj_get key (hashObjectProps objHash entry).
Proof.
  intros Hd Ht. unfold stamp. now rewrite !obj_get_set_other.
Qed.

Lemma stamp_row_key (data : JsValue) (now : Z) (entry : JsObject) (key : string) :
  key <> "data"%string -> key <> "timestamp"%string ->
  row_key key (stamp' data now entry) = row_key key (hashObjectProps objHash entry).
Proof.
  intros Hd Ht. unfold row_key. now rewrite stamp_key_field.
Qed.

(** A served [save] of an entry that has its primary key. *)
Lemma save_run_served (store shape : string) (data : JsValue) (entry : JsObject)
      (w : World) (k : Key) :
  obj_get store (tables this) = Some shape ->
  hd None (faults w) = None ->
  row_key (primKey shape) (stamp' data (clock w (tick w)) entry) = Some k ->
  save' store data entry w =
    (Returned tt,
     {| db := fun s =>
                if String.eqb s store
                then insert_sorted
                       (fun a b => okey_leb (row_key (primKey shape) a)
                                     (row_key (primKey shape) b))
                       (stamp' data (clock w (tick w)) entry)
                       (filter (fun old => negb (okey_eqb (Some k)
                                                   (row_key (primKey shape) old)))
                          (db w store))
                else db w s;
        clock := clock w; tick := S (tick w); console := console w;
        script := tl (script w); closed := closed w |}).
Proof.
  intros Hs Hf Hk. rewrite (@save_known store shape data entry w Hs).
  unfold try_catch.
  erewrite put_run_served; [reflexivity|exact Hf|].
  unfold table_put. cbn [db]. rewrite Hk. reflexivity.
Qed.

Lemma filter_negb_nil (A : Type) (p : A -> bool) (l : list A) :
  filter p (filter (fun x => negb (p x)) l) = [].
Proof.
  induction l as [|x l IH]; [reflexivity|]. cbn [filter].
  destruct (p x) eqn:E; cbn [negb filter]; [exact IH|]. now rewrite E.
Qed.

(** After a put, the rows of the table under the key of the row put. *)
Lemma table_put_unique (pk : string) (row : Row) (rows : list Row) (k : Key) :
  row_key pk row = Some k ->
  filter (fun r => okey_eqb (Some k) (row_key pk r))
    (insert_sorted (fun a b => okey_leb (row_key pk a) (row_key pk b)) row
       (filter (fun old => negb (okey_eqb (Some k) (row_key pk old))) rows))
  = [row].
Proof.
  intros Hk. apply filter_insert_sorted_single.
  - rewrite Hk. simpl. apply key_eqb_eq. reflexivity.
  - apply filter_negb_nil.
Qed.

(** ** What the operations leave of the world *)

Lemma find_frame (store : string) (query : CacheQuery) (w : World)
      (r : Outcome FindResult) (w' : World) :
  find' store query w = (r, w') ->
  db w' = db w /\ clock w' = clock w /\ (tick w <= tick w')%nat.
Proof.
  intros Hrun.
  destruct (find_effects _ _ _ Hrun) as (Hdb & Hck & Ht & _). auto.
Qed.

(** [save] under a name that is no table: the store-not-found line,
    or, when the handle holds something under the name, a [put] that
    is not there, whose error the handler drops. *)
Lemma save_other (store : string) (data : JsValue) (entry : JsObject) (w : World) :
  obj_get store (tables this) = None ->
  save' store data entry w =
    (Returned tt,
     match handle members this store with
     | is_member member_falsy | is_undefined =>
         {| db := db w; clock := clock w; tick := tick w;
            console := console w ++ [store_not_found store];
            script := script w; closed := closed w |}
     | _ =>
         {| db := db w; clock := clock w; tick := S (tick w);
            console := console w; script := script w; closed := closed w |}
     end).
Proof.
  intros Hs. unfold save.
  destruct (handle members this store) as [shape|[|items|]|] eqn:Hh; try reflexivity.
  unfold handle in Hh. rewrite Hs in Hh.
  destruct (String.eqb store "tables"); [discriminate|].
  destruct (String.eqb store "version" || String.eqb store "delete");
    [discriminate|].
  destruct (obj_get store members); discriminate.
Qed.

Lemma handleError_frame (error : JsError) (store : option string) (w : World)
      (r : Outcome unit) (w' : World) :
  handleError error store w = (r, w') ->
  clock w' = clock w /\ tick w' = tick w
  /\ (forall s x, In x (db w' s) -> In x (db w s)).
Proof.
  unfold handleError. fold (upgrade_signal error).
  destruct (upgrade_signal error);
    [|intros Hrun; inversion Hrun; subst; auto].
  unfold bind at 1. unfold log at 1. unfold clearAll, db_delete, bind, request.
  cbn [closed script db clock tick console].
  destruct (closed w); [intros Hrun; inversion Hrun; subst; simpl; auto|].
  destruct (script w) as [|[e|] later];
    intros Hrun; inversion Hrun; subst; simpl; repeat split; auto; contradiction.
Qed.

Lemma insert_sorted_incl (A : Type) (leb : A -> A -> bool) (x y : A) (l : list A) :
  In y (insert_sorted leb x l) -> y = x \/ In y l.
Proof.
  induction l as [|h t IH]; simpl; [intuition|].
  destruct (leb x h); simpl; intuition.
Qed.

Lemma put_frame (store shape : string) (row : Row) (w : World)
      (r : Outcome unit) (w' : World) :
  put store shape row w = (r, w') ->
  clock w' = clock w /\ tick w' = tick w
  /\ (forall s x, In x (db w' s) -> In x (db w s) \/ x = row).
Proof.
  unfold put, bind, request, read_table, write_table.
  (destruct (closed w); [|destruct (script w) as [|[e|] later]]); cbn [db];
    try (destruct (table_put (primKey shape) row (db w store)) as [rows'|] eqn:Hp);
    intros Hrun; inversion Hrun; subst; simpl; repeat split; auto;
    intros s x; destruct (String.eqb s store) eqn:Es; auto;
    apply String.eqb_eq in Es; subst s;
    unfold table_put in Hp;
    destruct (row_key (primKey shape) row); try discriminate;
    inversion Hp; subst rows'; intros Hin;
    apply insert_sorted_incl in Hin; destruct Hin as [->|Hin]; auto;
    left; apply filter_In in Hin; tauto.
Qed.

Lemma save_frame (store : string) (data : JsValue) (entry : JsObject) (w : World)
      (r : Outcome unit) (w' : World) :
  save' store data entry w = (r, w') ->
  clock w' = clock w /\ (tick w <= tick w')%nat
  /\ (forall s x,
         In x (db w' s) ->
         In x (db w s)
         \/ ((tick w < tick w')%nat /\ entry_timestamp x = Some (clock w (tick w)))).
Proof.
  intros Hrun.
  destruct (obj_get store (tables this)) as [shape|] eqn:Hs;
    [|rewrite save_other in Hrun by assumption; inversion Hrun;
      destruct (handle members this store) as [?|[| |]|]; simpl; auto].
  rewrite (@save_known store shape data entry w Hs) in Hrun.
  unfold try_catch in Hrun.
  match type of Hrun with context [put ?s ?sh ?row ?w1] =>
    pose proof (@put_frame s sh row w1) as Hput;
    destruct (put s sh row w1) as [[[]|e] w2] end.
  - inversion Hrun; subst.
    destruct (Hput _ _ eq_refl) as (Hck & Ht & Hdb). simpl in *.
    repeat split; auto; [lia|]. intros s x Hin.
    destruct (Hdb s x Hin) as [H| ->]; [now left|right].
    split; [lia|apply stamp_timestamp].
  - destruct (Hput _ _ eq_refl) as (Hck & Ht & Hdb). simpl in *.
    destruct (handleError_frame _ _ _ Hrun) as (Hck' & Ht' & Hdb').
    repeat split; try congruence; [lia|]. intros s x Hin.
    apply Hdb' in Hin. destruct (Hdb s x Hin) as [H| ->]; [now left|right].
    split; [lia|apply stamp_timestamp].
Qed.

Lemma delete_where_frame (store : string) (p : Row -> bool) (w : World)
      (r : Outcome Z) (w' : World) :
  delete_where store p w = (r, w') ->
  clock w' = clock w /\ tick w' = tick w
  /\ (forall s x, In x (db w' s) -> In x (db w s)).
Proof.
  unfold delete_where, bind, request, read_table, write_table, ret.
  (destruct (closed w); [|destruct (script w) as [|[e|] later]]); intros Hrun; inversion Hrun; subst;
    simpl; repeat split; auto;
    intros s x; destruct (String.eqb s store) eqn:Es; auto;
    apply String.eqb_eq in Es; subst s; intros Hin;
    apply filter_In in Hin; tauto.
Qed.

Lemma prune_loop_frame (stores : list string) :
  forall (pruned : list (string * Z)) (w : World)
         (r : Outcome (list (string * Z))) (w' : World),
    prune_loop durationStringToMs this stores pruned w = (r, w') ->
    clock w' = clock w /\ (tick w <= tick w')%nat
    /\ (forall s x, In x (db w' s) -> In x (db w s)).
Proof.
  induction stores as [|store rest IH]; intros pruned w r w' Hrun.
  - inversion Hrun; subst. auto.
  - cbn [prune_loop] in Hrun. unfold bind at 1 in Hrun.
    unfold Date_now at 1 in Hrun.
    destruct (obj_get store (tables this)) as [shape|];
      [|inversion Hrun; subst; simpl; auto].
    unfold bind at 1 in Hrun.
    match type of Hrun with context [delete_where ?s ?p ?w1] =>
      pose proof (@delete_where_frame s p w1) as Hd;
      destruct (delete_where s p w1) as [[expired|e] w2] end;
      destruct (Hd _ _ eq_refl) as (Hck & Ht & Hdb); simpl in Hck, Ht, Hdb.
    + destruct (IH _ _ _ _ Hrun) as (Hck' & Ht' & Hdb').
      repeat split; try congruence; [lia|].
      intros s x Hin. apply Hdb, Hdb', Hin.
    + inversion Hrun; subst. repeat split; auto. lia.
Qed.

(** ** Overwriting, and the stamp of every entry *)

Lemma run_call_stamped (c : Call) (w : World) :
  stamped w -> stamped (run_call' c w).
Proof.
  intros Hw s x Hin. destruct c as [store query|store data entry|targets];
    unfold run_call in *.
  - destruct (find' store query w) as [r w'] eqn:Hrun.
    destruct (find_frame _ _ _ Hrun) as (Hdb & Hck & Ht). simpl in *.
    rewrite Hdb in Hin. destruct (Hw s x Hin) as (n & Hn & Hx).
    exists n. rewrite Hck. split; [lia|exact Hx].
  - destruct (save' store data entry w) as [r w'] eqn:Hrun.
    destruct (save_frame _ _ _ _ Hrun) as (Hck & Ht & Hdb). simpl in *.
    rewrite Hck. destruct (Hdb s x Hin) as [Hold|[Hlt Hx]].
    + destruct (Hw s x Hold) as (n & Hn & Hx). exists n. split; [lia|exact Hx].
    + exists (tick w). split; [lia|exact Hx].
  - destruct (prune' targets w) as [r w'] eqn:Hrun.
    destruct (prune_loop_frame _ _ _ Hrun) as (Hck & Ht & Hdb). simpl in *.
    rewrite Hck. destruct (Hw s x (Hdb s x Hin)) as (n & Hn & Hx).
    exists n. split; [lia|exact Hx].
Qed.

Lemma run_calls_stamped (calls : list Call) :
  forall w, stamped w -> stamped (run_calls' calls w).
Proof.
  induction calls as [|c calls IH]; intros w Hw; [exact Hw|].
  apply IH. now apply run_call_stamped.
Qed.

(** C5. Two saves in a row under the same key fields (the same object
    passed again, which the first save has rewritten in place, or
    another one with the same normalised fields), whatever the
    payloads, leave in the store one entry under that key: the one of
    the second save, with its payload and the time of that second
    write; the time written is the reading of the clock at the save,
    whatever timestamp the caller put among the fields.  And from an
    empty container, whatever calls are made, every entry stored
    carries as its timestamp a reading of the clock taken at a write. *)
Theorem save_overwrites (store shape : string) (entry1 entry2 : JsObject)
  (data1 data2 : JsValue) (w : World) (k : Key)
  (Hs : obj_get store (tables this) = Some shape)
  (Hserving : serving w)
  (Hpk_data : primKey shape <> "data"%string)
  (Hpk_timestamp : primKey shape <> "timestamp"%string)
  (Hk : row_key (primKey shape) (hashObjectProps objHash entry1) = Some k)
  (Hsame : hashObjectProps objHash entry2 = hashObjectProps objHash entry1) :
  let w1 := snd (save' store data1 entry1 w) in
  let w2 := snd (save' store data2 entry2 w1) in
  let latest := stamp' data2 (clock w (S (tick w))) entry2 in
  fst (save' store data1 entry1 w) = Returned tt
  /\ fst (save' store data2 entry2 w1) = Returned tt
  /\ filter (fun x => okey_eqb (Some k) (row_key (primKey shape) x)) (db w2 store)
     = [latest]
  /\ obj_get "data" latest = Some data2
  /\ entry_timestamp latest = Some (clock w (S (tick w)))
  /\ (forall calls w0, (forall s, db w0 s = []) -> stamped (run_calls' calls w0)).
Proof.
  intros w1 w2 latest.
  assert (Hk1 : forall data now,
             row_key (primKey shape) (stamp' data now entry1) = Some k).
  { intros. now rewrite stamp_row_key. }
  assert (Hk2 : forall data now,
             row_key (primKey shape) (stamp' data now entry2) = Some k).
  { intros. rewrite stamp_row_key by assumption. now rewrite Hsame. }
  assert (E1 := @save_run_served store shape data1 entry1 w k Hs
                  (serving_hd Hserving) (Hk1 _ _)).
  assert (Hw1 : w1 = snd (save' store data1 entry1 w)) by reflexivity.
  rewrite E1 in Hw1. cbn [snd] in Hw1.
  assert (Hf1 : hd None (faults w1) = None).
  { apply serving_hd. rewrite Hw1.
    now apply (@serving_after w _ Hserving). }
  assert (E2 := @save_run_served store shape data2 entry2 w1 k Hs Hf1 (Hk2 _ _)).
  assert (Hnow : clock w1 (tick w1) = clock w (S (tick w))) by (now rewrite Hw1).
  rewrite Hnow in E2. fold latest in E2.
  split; [now rewrite E1|]. split; [now rewrite E2|].
  split; [|split; [apply stamp_data|split; [apply stamp_timestamp|]]].
  - subst w2. rewrite E2. cbn [snd db]. rewrite String.eqb_refl.
    apply table_put_unique. apply Hk2.
  - intros calls w0 Hempty. apply run_calls_stamped.
    intros s x Hin. rewrite Hempty in Hin. contradiction.
Qed.

(** ** Structurally equal keys *)

Lemma to_key_equiv (a : JsValue) :
  forall b, js_equiv a b -> to_key a = to_key b.
Proof.
  induction a as [| |c|n|s|items IH|fields IH] using JsValue_nested_ind;
    intros b Hab; inversion Hab; subst; try reflexivity.
  cbn [to_key].
  match goal with
  | |- match ?f items with _ => _ end = match ?g l2 with _ => _ end =>
      assert (Hgo : f items = g l2); [|now rewrite Hgo]
  end.
  match goal with H : Forall2 js_equiv items l2 |- _ => rename H into Hall end.
  clear Hab. induction Hall as [|x y l r Hxy Hlr IHl]; [reflexivity|].
  inversion IH as [|? ? Hx Hl]; subst.
  rewrite (Hx y Hxy), (IHl Hl). reflexivity.
Qed.

Lemma obj_get_Permutation (V : Type) (a b : list (string * V)) (k : string) :
  Permutation a b -> wf_obj a -> obj_get k a = obj_get k b.
Proof.
  intros Hp Hwf.
  assert (Hwfb : wf_obj b).
  { unfold wf_obj, obj_keys in *. eapply Permutation_NoDup; [|exact Hwf].
    now apply Permutation_map. }
  destruct (obj_get k a) as [v|] eqn:Ea.
  - symmetry. apply In_obj_get; [exact Hwfb|].
    eapply Permutation_in; [exact Hp|]. now apply obj_get_In.
  - symmetry. apply obj_get_None. apply obj_get_None in Ea.
    intros Hin. apply Ea. unfold obj_keys in *.
    eapply Permutation_in; [|exact Hin].
    apply Permutation_map. now apply Permutation_sym.
Qed.

(** Two structurally equal objects have the same fields, with
    structurally equal values. *)
Lemma equiv_fields (o1 o2 : JsObject) (k : string) :
  js_equiv (JObj o1) (JObj o2) -> wf_obj o2 ->
  match obj_get k o1, obj_get k o2 with
  | Some a, Some b => js_equiv a b
  | None, None => True
  | _, _ => False
  end.
Proof.
  intros Heq Hwf2. inversion Heq as [| | | | | |? ? o2' Hperm Hall]; subst.
  rewrite <- (obj_get_Permutation k Hperm).
  - clear Hperm Heq. induction Hall as [|[k1 v1] [k2 v2] l r [Hk Hv] _ IHl];
      simpl; [exact I|].
    simpl in Hk, Hv. subst k2. now destruct (String.eqb k k1).
  - unfold wf_obj, obj_keys in *. eapply Permutation_NoDup; [|exact Hwf2].
    apply Permutation_map. now apply Permutation_sym.
Qed.

Section StableFingerprint.

(** The contract of the fingerprint: structurally equal values have
    the same fingerprint. *)
Hypothesis objHash_stable : forall a b, js_equiv a b -> objHash a = objHash b.

Lemma normal_value_equiv (a b : JsValue) :
  js_equiv a b ->
  match normal_value objHash a, normal_value objHash b with
  | Some x, Some y => to_key x = to_key y
  | None, None => True
  | _, _ => False
  end.
Proof.
  intros Hab. pose proof (objHash_stable Hab) as Hh.
  pose proof (to_key_equiv Hab) as Hk.
  inversion Hab; subst; unfold normal_value; simpl; auto.
  now rewrite Hh.
Qed.

(** The normalised forms of two structurally equal key objects have
    the same fields, with the same keys of the table store. *)
Lemma normal_fields_equiv (o1 o2 : JsObject) (k : string) :
  wf_obj o1 -> wf_obj o2 -> js_equiv (JObj o1) (JObj o2) ->
  match obj_get k (hashObjectProps objHash o1),
        obj_get k (hashObjectProps objHash o2) with
  | Some x, Some y => to_key x = to_key y
  | None, None => True
  | _, _ => False
  end.
Proof.
  intros Hwf1 Hwf2 Heq.
  rewrite !hashObjectProps_normal_form, !normal_form_get by assumption.
  pose proof (@equiv_fields o1 o2 k Heq Hwf2) as Hf.
  destruct (obj_get k o1) as [a|], (obj_get k o2) as [b|]; try contradiction;
    [|exact I].
  now apply normal_value_equiv.
Qed.

End StableFingerprint.

(** ** Save, then find *)

Lemma filter_none (A : Type) (p : A -> bool) (l : list A) :
  (forall x, In x l -> p x = false) -> filter p l = [].
Proof.
  induction l as [|x l IH]; [reflexivity|]. intros H. simpl.
  rewrite (H x) by now left. apply IH. intros y Hy. apply H. now right.
Qed.

(** A save, then the lookup by the primary key of what was saved. *)
Lemma save_find_by_key (store shape : string) (o1 criteria : JsObject)
      (value data : JsValue) (k : Key) (includeExpired : bool) (w : World) :
  obj_get store (tables this) = Some shape ->
  compound_paths (primKey shape) = None ->
  primKey shape <> "data"%string ->
  primKey shape <> "timestamp"%string ->
  serving w ->
  row_key (primKey shape) (hashObjectProps objHash o1) = Some k ->
  hashObjectProps objHash criteria = [(primKey shape, value)] ->
  to_key value = Some k ->
  includeExpired = true
  \/ clock w (S (tick w)) <= clock w (tick w) + getExpiration' store ->
  fst (save' store data o1 w) = Returned tt
  /\ fst (find' store (where_query criteria includeExpired)
            (snd (save' store data o1 w)))
     = Returned (Entry (Some (stamp' data (clock w (tick w)) o1)))
  /\ filter (fun r => okey_eqb (Some k) (row_key (primKey shape) r))
       (db (snd (save' store data o1 w)) store)
     = [stamp' data (clock w (tick w)) o1].
Proof.
  intros Hs Hplain Hpd Hpt Hserving Hk Hcrit Hvalue Hfresh.
  set (row := stamp' data (clock w (tick w)) o1).
  assert (Hrk : row_key (primKey shape) row = Some k).
  { subst row. now rewrite stamp_row_key. }
  rewrite (@save_run_served store shape data o1 w k Hs (serving_hd Hserving) Hrk).
  cbn [fst snd]. split; [reflexivity|].
  fold row.
  set (w1 := {| db := _; clock := clock w; tick := S (tick w);
                console := console w; script := tl (script w);
                closed := closed w |}).
  assert (Hserving1 : serving w1) by now apply (@serving_after w _ Hserving).
  assert (Hrows : filter (fun r => okey_eqb (Some k) (row_key (primKey shape) r))
                    (db w1 store) = [row]).
  { subst w1. cbn [db]. rewrite String.eqb_refl. now apply table_put_unique. }
  split; [|exact Hrows].
  rewrite (@find_by_key store shape criteria value k includeExpired w1 Hs Hplain
             Hcrit Hvalue (serving_hd Hserving1)).
  rewrite Hrows.
  destruct includeExpired; [reflexivity|].
  destruct Hfresh as [Hfresh|Hfresh]; [discriminate|].
  cbn [collect]. unfold bind at 1. unfold bind at 1.
  rewrite isExpired_run. unfold ret at 1. cbn [clock tick w1].
  assert (Hx : expired_at durationStringToMs this (clock w (S (tick w)))
                 store row = false).
  { unfold expired_at. subst row. rewrite stamp_timestamp.
    apply Z.ltb_ge. exact Hfresh. }
  rewrite Hx. reflexivity.
Qed.

(** Two structurally equal key objects hold the same primary key. *)
Lemma equal_keys_share_primary (pk : string) (o1 o2 : JsObject) (value : JsValue)
      (k : Key) :
  (forall a b, js_equiv a b -> objHash a = objHash b) ->
  wf_obj o1 -> wf_obj o2 -> js_equiv (JObj o1) (JObj o2) ->
  hashObjectProps objHash o2 = [(pk, value)] ->
  to_key value = Some k ->
  row_key pk (hashObjectProps objHash o1) = Some k.
Proof.
  intros Hstable Hwf1 Hwf2 Hequiv Hkey Hk.
  pose proof (normal_fields_equiv Hstable pk Hwf1 Hwf2 Hequiv) as Hf.
  rewrite Hkey in Hf. cbn [obj_get] in Hf. rewrite String.eqb_refl in Hf.
  unfold row_key.
  destruct (obj_get pk (hashObjectProps objHash o1)); [|contradiction].
  congruence.
Qed.


(** ** Failures of the table store *)

Lemma save_run_dropped (store shape : string) (data : JsValue) (entry : JsObject)
      (w : World) (error : JsError) (later : list (option JsError)) :
  obj_get store (tables this) = Some shape ->
  faults w = Some error :: later ->
  upgrade_signal error = false ->
  save' store data entry w =
    (Returned tt,
     {| db := db w; clock := clock w; tick := S (tick w); console := console w;
        script := later; closed := closed w |}).
Proof.
  intros Hs Hf Hsig. rewrite (@save_known store shape data entry w Hs).
  unfold try_catch.
  erewrite put_run_failed by exact Hf.
  now rewrite handleError_ignores.
Qed.

Lemma save_run_refused (store shape : string) (data : JsValue) (entry : JsObject)
      (w : World) :
  obj_get store (tables this) = Some shape ->
  hd None (faults w) = None ->
  row_key (primKey shape) (stamp' data (clock w (tick w)) entry) = None ->
  save' store data entry w =
    (Returned tt,
     {| db := db w; clock := clock w; tick := S (tick w); console := console w;
        script := tl (script w); closed := closed w |}).
Proof.
  intros Hs Hf Hk. rewrite (@save_known store shape data entry w Hs).
  unfold try_catch.
  erewrite put_run_refused; [|exact Hf|].
  - now rewrite handleError_ignores.
  - unfold table_put. now rewrite Hk.
Qed.

Lemma save_run_reset (store shape : string) (data : JsValue) (entry : JsObject)
      (w : World) (error : JsError) (later : list (option JsError)) :
  obj_get store (tables this) = Some shape ->
  faults w = Some error :: later ->
  upgrade_signal error = true ->
  hd None later = None ->
  save' store data entry w =
    (Returned tt,
     {| db := fun _ => []; clock := clock w; tick := S (tick w);
        console := console w ++ [upgrade_warning];
        script := tl later; closed := true |}).
Proof.
  intros Hs Hf Hsig Hl. rewrite (@save_known store shape data entry w Hs).
  unfold try_catch.
  erewrite put_run_failed by exact Hf.
  destruct (faults_failed w Hf) as [(_ & -> & _)|(Hc & _)]; [discriminate|].
  rewrite handleError_resets; [reflexivity|exact Hsig|].
  unfold faults. cbn [closed script]. now rewrite Hc.
Qed.

(** Once the handle is closed every request is refused. *)
Lemma closed_faults (w : World) :
  closed w = true -> faults w = Some DatabaseClosedError :: script w.
Proof. unfold faults. now intros ->. Qed.

(** C6.  The reset is the answer to a failed write of [save]: when
    [put] fails with an error that carries the schema-upgrade signal,
    in its name or in the name of its inner error, [save] logs the
    warning and deletes the whole container, whatever the store of the
    write, and returns; every table is empty afterwards.  But the
    deletion closes the handle, which the module does not open again:
    the saves that follow return without storing anything, and the
    finds are rejected.  And [find] hands the failure of its read to
    the caller as it is, signal or not: nothing is logged, nothing
    deleted. *)
Theorem reset_closes_the_handle (store shape : string) (data : JsValue)
  (entry : JsObject) (error : JsError) (later : list (option JsError)) (w : World)
  (Hs : obj_get store (tables this) = Some shape)
  (Hfail : faults w = Some error :: later)
  (Hsignal : err_name error = errnames_Upgrade
             \/ err_inner error = Some errnames_Upgrade)
  (Hlater : Forall (fun answer => answer = None) later) :
  (exists w',
      save' store data entry w = (Returned tt, w')
      /\ console w' = console w ++ [upgrade_warning]
      /\ (forall s, db w' s = [])
      /\ closed w' = true
      /\ (forall store2 shape2 data2 entry2,
             obj_get store2 (tables this) = Some shape2 ->
             fst (save' store2 data2 entry2 w') = Returned tt
             /\ (forall s, db (snd (save' store2 data2 entry2 w')) s = [])
             /\ console (snd (save' store2 data2 entry2 w')) = console w')
      /\ (forall store2 shape2 query table,
             obj_get store2 (tables this) = Some shape2 ->
             chained objHash shape2 query = inr table ->
             fst (find' store2 query w') = Thrown DatabaseClosedError))
  /\ (forall query table,
         chained objHash shape query = inr table ->
         fst (find' store query w) = Thrown error
         /\ db (snd (find' store query w)) = db w
         /\ console (snd (find' store query w)) = console w).
Proof.
  assert (Hsig : upgrade_signal error = true).
  { unfold upgrade_signal. cbn [existsb]. destruct Hsignal as [->| ->].
    - now rewrite String.eqb_refl.
    - cbn. rewrite orb_true_r. reflexivity. }
  assert (Hhd : hd None later = None).
  { destruct later; [reflexivity|]. now inversion Hlater. }
  split.
  - rewrite (@save_run_reset store shape data entry w error later Hs Hfail Hsig Hhd).
    eexists. split; [reflexivity|]. cbn [console db closed].
    split; [reflexivity|]. split; [reflexivity|]. split; [reflexivity|].
    set (w' := {| db := fun _ => []; clock := clock w; tick := S (tick w);
                  console := console w ++ [upgrade_warning]; script := tl later;
                  closed := true |}).
    assert (Hclosed : faults w' = Some DatabaseClosedError :: script w')
      by now apply closed_faults.
    split.
    + intros store2 shape2 data2 entry2 Hs2.
      now rewrite (@save_run_dropped store2 shape2 data2 entry2 w'
                     DatabaseClosedError (script w') Hs2 Hclosed eq_refl).
    + intros store2 shape2 query table Hs2 Hc.
      now rewrite (@find_run_failed store2 shape2 query table w'
                     DatabaseClosedError (script w') Hs2 Hc Hclosed).
  - intros query table Hc.
    now rewrite (@find_run_failed store shape query table w error later Hs Hc Hfail).
Qed.

Lemma prune_run_failed (store shape : string) (rest : list string) (w : World)
      (error : JsError) (later : list (option JsError)) :
  obj_get store (tables this) = Some shape ->
  faults w = Some error :: later ->
  prune' (Some (inr (store :: rest))) w =
    (Thrown error,
     {| db := db w; clock := clock w; tick := S (tick w); console := console w;
        script := later; closed := closed w |}).
Proof.
  intros Hs Hf. unfold prune, prune_targets. cbn [prune_loop].
  unfold bind at 1. unfold Date_now at 1. rewrite Hs.
  unfold bind at 1. unfold delete_where. unfold bind at 1.
  erewrite request_failed by (rewrite <- Hf; apply faults_same; reflexivity).
  reflexivity.
Qed.


(** ** The edges of [save] and [prune] *)

Lemma save_run_reset_failed (store shape : string) (data : JsValue)
      (entry : JsObject) (w : World) (error failure : JsError)
      (later : list (option JsError)) :
  obj_get store (tables this) = Some shape ->
  faults w = Some error :: Some failure :: later ->
  upgrade_signal error = true ->
  save' store data entry w =
    (Thrown failure,
     {| db := db w; clock := clock w; tick := S (tick w);
        console := console w ++ [upgrade_warning];
        script := later; closed := closed w |}).
Proof.
  intros Hs Hfail Hsignal.
  destruct (faults_failed w Hfail) as [(_ & -> & _)|(Hc & Hscript)];
    [discriminate|].
  rewrite (@save_known store shape data entry w Hs). unfold try_catch.
  erewrite put_run_failed
    by (rewrite <- Hfail; apply faults_same; reflexivity).
  unfold handleError. fold (upgrade_signal error). rewrite Hsignal.
  unfold bind at 1. unfold log at 1. cbn [db clock tick console script closed].
  unfold clearAll, db_delete. unfold bind at 1.
  erewrite request_failed; [reflexivity|].
  unfold faults. cbn [closed script]. now rewrite Hc.
Qed.

(** X1. When the write of [save] fails with the schema-upgrade signal
    and the deletion of the container fails in its turn, [save] rejects
    with the error of the deletion: the warning has been logged, and
    the container is as it was. *)
Theorem save_rejects_when_reset_fails (store shape : string) (data : JsValue)
  (entry : JsObject) (w : World) (error failure : JsError)
  (later : list (option JsError))
  (Hs : obj_get store (tables this) = Some shape)
  (Hfail : faults w = Some error :: Some failure :: later)
  (Hsignal : upgrade_signal error = true) :
  fst (save' store data entry w) = Thrown failure
  /\ db (snd (save' store data entry w)) = db w
  /\ console (snd (save' store data entry w)) = console w ++ [upgrade_warning]
  /\ faults (snd (save' store data entry w)) = later.
Proof.
  rewrite (@save_run_reset_failed store shape data entry w error failure later
             Hs Hfail Hsignal).
  repeat split. cbn [snd]. unfold faults. cbn [closed script].
  destruct (faults_failed w Hfail) as [(_ & -> & _)|(-> & _)];
    [discriminate|reflexivity].
Qed.

(** X2. A [save] that the table store serves changes one key of one
    table: the other tables are as they were, and the table of the
    store holds the row written together with the rows it held under
    the other primary keys. *)
Theorem save_touches_one_key (store shape : string) (data : JsValue)
  (entry : JsObject) (w : World) (k : Key)
  (Hs : obj_get store (tables this) = Some shape)
  (Hserved : hd None (faults w) = None)
  (Hk : row_key (primKey shape) (stamp' data (clock w (tick w)) entry) = Some k) :
  let w' := snd (save' store data entry w) in
  (forall s, s <> store -> db w' s = db w s)
  /\ (forall row,
         In row (db w' store) <->
         row = stamp' data (clock w (tick w)) entry
         \/ (In row (db w store) /\ row_key (primKey shape) row <> Some k)).
Proof.
  rewrite (@save_run_served store shape data entry w k Hs Hserved Hk). cbn [snd db].
  split.
  - intros s Hne. apply String.eqb_neq in Hne. now rewrite Hne.
  - intros row. rewrite String.eqb_refl.
    split.
    + intros Hin. apply insert_sorted_incl in Hin. destruct Hin as [->|Hin].
      * now left.
      * right. apply filter_In in Hin. destruct Hin as [Hin Hne]. split; [exact Hin|].
        intros Hrow. rewrite Hrow in Hne. apply negb_true_iff in Hne.
        assert (okey_eqb (Some k) (Some k) = true)
          by (apply okey_eqb_eq; now exists k).
        congruence.
    + intros [->|[Hin Hne]].
      * apply insert_sorted_In. now left.
      * apply insert_sorted_In. right. apply filter_In. split; [exact Hin|].
        apply negb_true_iff.
        destruct (okey_eqb (Some k) (row_key (primKey shape) row)) eqn:E;
          [|reflexivity].
        apply okey_eqb_eq in E. destruct E as (k' & Hk1 & Hk2).
        exfalso. apply Hne. congruence.
Qed.

Lemma prune_loop_app (before after : list string) :
  forall (pruned : list (string * Z)) (w : World),
    prune_loop durationStringToMs this (before ++ after) pruned w =
      match prune_loop durationStringToMs this before pruned w with
      | (Returned report, w1) => prune_loop durationStringToMs this after report w1
      | (Thrown e, w1) => (Thrown e, w1)
      end.
Proof.
  induction before as [|s before IH]; intros pruned w; [reflexivity|].
  cbn [app prune_loop]. unfold bind at 1 3. unfold Date_now.
  destruct (obj_get s (tables this)); [|reflexivity].
  unfold bind at 1 2.
  match goal with
  | |- context [delete_where ?s ?p ?w0] =>
      destruct (delete_where s p w0) as [[n|e] w2]
  end; [apply IH|reflexivity].
Qed.

(** X3. [prune] looks its stores up one after the other, and rejects
    with a type error at the first name that the schema does not
    declare: the stores named before it have been pruned by then, the
    others are as they were, and the counts are lost. *)
Theorem prune_stops_at_unknown_store (before : list string) (unknown : string)
  (after : list string) (w : World)
  (Hset : NoDup before)
  (Hknown : forall s, In s before -> obj_get s (tables this) <> None)
  (Hunknown : obj_get unknown (tables this) = None)
  (Hserving : serving w) :
  exists w',
    prune' (Some (inr (before ++ unknown :: after))) w = (Thrown TypeError, w')
    /\ (forall i s,
           nth_error before i = Some s ->
           let cutoff := clock w (tick w + i)%nat - getExpiration' s in
           db w' s = filter (fun e => negb (stale cutoff e)) (db w s))
    /\ (forall s, ~ In s before -> db w' s = db w s).
Proof.
  unfold prune, prune_targets. rewrite prune_loop_app.
  destruct (@prune_loop_run before [] w Hset Hknown Hserving)
    as (report & w1 & Hrun & _ & _ & _ & Hout & Hin).
  rewrite Hrun. cbn [prune_loop]. unfold bind at 1. unfold Date_now.
  rewrite Hunknown. unfold throw.
  eexists. split; [reflexivity|]. cbn [db]. split.
  - intros i s Hi. exact (proj1 (Hin i s Hi)).
  - intros s Hs. exact (proj1 (Hout s Hs)).
Qed.

(** ** The clock and the entries *)

(** X4. Under a clock that does not go back, an entry that
    [isExpired] has found expired is found expired at every later
    call: short of a new [save], it is not served again. *)
Theorem expired_stays_expired (store : string) (entry : Row) (w1 w2 : World)
  (Hmonotone : forall n m, (n <= m)%nat -> clock w1 n <= clock w1 m)
  (Hclock : clock w2 = clock w1)
  (Hlater : (tick w1 <= tick w2)%nat)
  (Hexpired : fst (isExpired' store entry w1) = Returned true) :
  fst (isExpired' store entry w2) = Returned true
  /\ forall query, q_includeExpired query = false ->
                   ~ returned (fst (find' store query w2)) entry.
Proof.
  rewrite isExpired_run in Hexpired. cbn [fst] in Hexpired.
  assert (Hnow : forall m, (tick w1 <= m)%nat ->
                           expired_at durationStringToMs this (clock w1 m) store entry
                           = true).
  { intros m Hm. unfold expired_at in *.
    destruct (entry_timestamp entry) as [t|]; [|discriminate].
    injection Hexpired as Hexpired. apply Z.ltb_lt in Hexpired. apply Z.ltb_lt.
    specialize (Hmonotone _ _ Hm). lia. }
  split.
  - rewrite isExpired_run. cbn [fst]. rewrite Hclock. now rewrite Hnow.
  - intros query Hq Hret.
    destruct (@find_returned_unexpired store query w2 entry Hq Hret)
      as (m & Hm & Hfresh).
    rewrite Hclock, Hnow in Hfresh by lia. discriminate.
Qed.

(** X5. An entry that has no timestamp is never expired and is never
    pruned; [save] writes no such entry. *)
Theorem entry_without_timestamp_stays (store shape : string) (entry : Row)
  (Hs : obj_get store (tables this) = Some shape)
  (Hnone : obj_get "timestamp" entry = None) :
  (forall w, fst (isExpired' store entry w) = Returned false)
  /\ (forall w,
         serving w -> In entry (db w store) ->
         In entry (db (snd (prune' (Some (inl store)) w)) store))
  /\ (forall data key now, stamp' data now key <> entry).
Proof.
  assert (Ht : entry_timestamp entry = None).
  { unfold entry_timestamp. now rewrite Hnone. }
  split; [|split].
  - intros w. rewrite isExpired_run. cbn [fst]. unfold expired_at. now rewrite Ht.
  - intros w Hserving Hin.
    destruct (@prune_loop_run [store] [] w) as (report & w' & Hrun & _ & _ & _ & _ & Hat).
    + constructor; [intros []|constructor].
    + intros s [<-|[]]. congruence.
    + exact Hserving.
    + unfold prune, prune_targets. rewrite Hrun. cbn [snd].
      destruct (Hat 0%nat store eq_refl) as [Hdb _]. rewrite Hdb.
      apply filter_In. split; [exact Hin|]. unfold stale. now rewrite Ht.
  - intros data key now Heq.
    pose proof (stamp_timestamp data now key) as Hst. rewrite Heq, Ht in Hst.
    discriminate.
Qed.


(** ** Save, prune, then find *)

Lemma stamp_primary_key (shape : string) (o : JsObject) (data : JsValue) (now : Z)
      (k : Key) :
  wf_obj o ->
  ~ In "data"%string (obj_keys o) -> ~ In "timestamp"%string (obj_keys o) ->
  row_key (primKey shape) (hashObjectProps objHash o) = Some k ->
  row_key (primKey shape) (stamp' data now o) = Some k.
Proof.
  intros Hwf Hdata Htimestamp Hk.
  assert (Hpk : In (primKey shape) (obj_keys o)).
  { unfold row_key in Hk.
    destruct (obj_get (primKey shape) (hashObjectProps objHash o)) eqn:E;
      [|discriminate].
    rewrite hashObjectProps_normal_form in E by assumption.
    apply normal_form_keys with (objHash := objHash).
    destruct (in_dec string_dec (primKey shape)
                (obj_keys (normal_form objHash o))) as [|Hn]; [assumption|].
    apply obj_get_None in Hn. congruence. }
  rewrite stamp_row_key; [exact Hk| |]; intros E; rewrite E in Hpk; contradiction.
Qed.

Lemma prune_one_run (store shape : string) (w : World) :
  obj_get store (tables this) = Some shape ->
  hd None (faults w) = None ->
  let cutoff := clock w (tick w) - getExpiration' store in
  let removed := Z.of_nat (List.length (filter (stale cutoff) (db w store))) in
  prune' (Some (inl store)) w =
    (Returned (if removed =? 0 then [] else [(store, removed)]),
     {| db := fun s => if String.eqb s store
                       then filter (fun r => negb (stale cutoff r)) (db w store)
                       else db w s;
        clock := clock w; tick := S (tick w); console := console w;
        script := tl (script w); closed := closed w |}).
Proof.
  intros Hs Hserved cutoff removed. unfold prune, prune_targets. cbn [prune_loop].
  unfold bind at 1. unfold Date_now at 1. rewrite Hs.
  unfold bind at 1. rewrite delete_where_run by exact Hserved.
  unfold ret. cbn [db clock tick]. reflexivity.
Qed.

(** X7. A [prune] that comes between a [save] and a [find] does not
    take away an entry that is still within its duration: [find], asked
    by the primary key of the store, returns the entry as it was
    saved. *)
Theorem fresh_entry_survives_prune (store shape : string) (o1 criteria : JsObject)
  (data value : JsValue) (w : World) (k : Key)
  (Hs : obj_get store (tables this) = Some shape)
  (Hplain : compound_paths (primKey shape) = None)
  (Hdata : primKey shape <> "data"%string)
  (Htimestamp : primKey shape <> "timestamp"%string)
  (Hk : row_key (primKey shape) (hashObjectProps objHash o1) = Some k)
  (Hcriteria : hashObjectProps objHash criteria = [(primKey shape, value)])
  (Hvalue : to_key value = Some k)
  (Hserving : serving w)
  (Hmonotone : forall n m, (n <= m)%nat -> clock w n <= clock w m)
  (Hfresh : clock w (S (S (tick w))) <= clock w (tick w) + getExpiration' store) :
  let w1 := snd (save' store data o1 w) in
  let w2 := snd (prune' (Some (inl store)) w1) in
  let row := stamp' data (clock w (tick w)) o1 in
  (exists report, fst (prune' (Some (inl store)) w1) = Returned report)
  /\ In row (db w2 store)
  /\ fst (find' store (where_query criteria false) w2) = Returned (Entry (Some row)).
Proof.
  intros w1 w2 row.
  destruct (@save_find_by_key store shape o1 criteria value data k true w
              Hs Hplain Hdata Htimestamp Hserving Hk Hcriteria Hvalue
              (or_introl eq_refl))
    as (_ & _ & Hwhere).
  fold w1 in Hwhere. fold row in Hwhere.
  assert (Hrk : row_key (primKey shape) (stamp' data (clock w (tick w)) o1) = Some k)
    by now rewrite stamp_row_key.
  pose proof (@save_run_served store shape data o1 w k Hs (serving_hd Hserving) Hrk)
    as Hsave.
  assert (Hw1 : clock w1 = clock w /\ tick w1 = S (tick w) /\ serving w1).
  { subst w1. rewrite Hsave. cbn [snd clock tick]. repeat split.
    now apply (@serving_after w _ Hserving). }
  destruct Hw1 as (Hc1 & Ht1 & Hserving1).
  assert (Hhd1 : hd None (faults w1) = None) by now apply serving_hd.
  pose proof (@prune_one_run store shape w1 Hs Hhd1) as Hprune. cbv zeta in Hprune.
  set (cutoff := clock w1 (tick w1) - getExpiration' store) in Hprune.
  pose proof (f_equal snd Hprune) as Hw2. cbn [snd] in Hw2. fold w2 in Hw2.
  split; [eexists; rewrite Hprune; reflexivity|].
  assert (Hkept : stale cutoff row = false).
  { unfold stale. subst row. rewrite stamp_timestamp. subst cutoff.
    rewrite Hc1, Ht1. apply Z.ltb_ge.
    pose proof (Hmonotone (S (tick w)) (S (S (tick w))) (Nat.le_succ_diag_r _)).
    lia. }
  assert (Hwhere2 : filter (fun r => okey_eqb (Some k) (row_key (primKey shape) r))
                      (db w2 store) = [row]).
  { rewrite Hw2. cbn [db]. rewrite String.eqb_refl.
    rewrite filter_filter_comm, Hwhere. cbn [filter]. now rewrite Hkept. }
  assert (Hserving2 : serving w2).
  { rewrite Hw2. now apply (@serving_after w1 _ Hserving1). }
  split.
  - assert (Hin : In row (filter (fun r => okey_eqb (Some k)
                                            (row_key (primKey shape) r))
                            (db w2 store))).
    { rewrite Hwhere2. now left. }
    apply filter_In in Hin. exact (proj1 Hin).
  - rewrite (@find_by_key store shape criteria value k false w2 Hs Hplain
               Hcriteria Hvalue (serving_hd Hserving2)).
    rewrite Hwhere2. cbn [collect]. unfold bind at 1. unfold bind at 1.
    rewrite isExpired_run. unfold ret at 1. cbn [clock tick].
    assert (Hx : expired_at durationStringToMs this (clock w2 (tick w2)) store row
                 = false).
    { unfold expired_at. subst row. rewrite stamp_timestamp. rewrite Hw2.
      cbn [clock tick]. rewrite Hc1, Ht1. apply Z.ltb_ge. exact Hfresh. }
    rewrite Hx. reflexivity.
Qed.

(** ** One row for a primary key *)

Lemma filter_keeps_keys_distinct (pk : string) (keep : Row -> bool)
      (rows : list Row) :
  NoDup (map (row_key pk) rows) -> NoDup (map (row_key pk) (filter keep rows)).
Proof.
  induction rows as [|row rows IH]; cbn [map filter]; [auto|].
  intros Hnd. inversion Hnd as [|? ? Hfresh Hrest]; subst.
  destruct (keep row); cbn [map]; [|now apply IH].
  constructor; [|now apply IH].
  intros Hin. apply Hfresh. apply in_map_iff in Hin.
  destruct Hin as (other & Hkey & Hin). apply filter_In in Hin.
  apply in_map_iff. exists other. tauto.
Qed.

Lemma thinned_refl (w : World) : thinned w w.
Proof.
  intros s. exists (fun _ => true). induction (db w s) as [|x l IH]; [reflexivity|].
  cbn [filter]. now rewrite <- IH.
Qed.

Lemma filter_filter (A : Type) (p q : A -> bool) (l : list A) :
  filter q (filter p l) = filter (fun x => p x && q x) l.
Proof.
  induction l as [|x l IH]; [reflexivity|]. cbn [filter].
  destruct (p x); cbn [filter andb]; [destruct (q x)|]; now rewrite IH.
Qed.

Lemma thinned_trans (w1 w2 w3 : World) :
  thinned w1 w2 -> thinned w2 w3 -> thinned w1 w3.
Proof.
  intros H12 H23 s. destruct (H12 s) as (p & Hp). destruct (H23 s) as (q & Hq).
  exists (fun x => p x && q x). now rewrite Hq, Hp, filter_filter.
Qed.

Lemma keyed_thinned (w w' : World) : keyed this w -> thinned w w' -> keyed this w'.
Proof.
  intros Hk Ht store shape Hs. destruct (Hk store shape Hs) as (Hnd & Hall).
  destruct (Ht store) as (p & Hp). rewrite Hp. split.
  - now apply filter_keeps_keys_distinct.
  - apply Forall_forall. intros r Hr. apply filter_In in Hr.
    rewrite Forall_forall in Hall. now apply Hall.
Qed.

Lemma thinned_same_db (w w' : World) : db w' = db w -> thinned w w'.
Proof. intros Hdb s. rewrite Hdb. apply thinned_refl. Qed.

Lemma delete_where_thinned (store : string) (p : Row -> bool) (w : World)
      (r : Outcome Z) (w' : World) :
  delete_where store p w = (r, w') -> thinned w w'.
Proof.
  intros Hrun. unfold delete_where in Hrun. unfold bind at 1 in Hrun.
  assert (Hserved_case : hd None (faults w) = None -> thinned w w').
  { intros Hserved. rewrite request_served in Hrun by exact Hserved.
    injection Hrun as _ <-. intros s. cbn [db].
    destruct (String.eqb s store) eqn:E.
    - apply String.eqb_eq in E. subst. now exists (fun x => negb (p x)).
    - apply thinned_refl. }
  destruct (faults w) as [|[e|] later] eqn:Hf.
  - now apply Hserved_case.
  - rewrite (request_failed w Hf) in Hrun. injection Hrun as _ <-.
    now apply thinned_same_db.
  - now apply Hserved_case.
Qed.

Lemma prune_loop_thinned (stores : list string) :
  forall (pruned : list (string * Z)) (w : World)
         (r : Outcome (list (string * Z))) (w' : World),
    prune_loop durationStringToMs this stores pruned w = (r, w') -> thinned w w'.
Proof.
  induction stores as [|s stores IH]; intros pruned w r w' Hrun.
  - injection Hrun as _ <-. apply thinned_refl.
  - cbn [prune_loop] in Hrun. unfold bind at 1 in Hrun. unfold Date_now at 1 in Hrun.
    destruct (obj_get s (tables this)).
    + unfold bind at 1 in Hrun.
      match type of Hrun with
      | context [delete_where ?s0 ?p0 ?w0] =>
          destruct (delete_where s0 p0 w0) as [[n|e] w1] eqn:Hdel
      end.
      * apply delete_where_thinned in Hdel. apply IH in Hrun.
        eapply thinned_trans; [|exact Hrun].
        eapply thinned_trans; [|exact Hdel]. now apply thinned_same_db.
      * apply delete_where_thinned in Hdel. injection Hrun as _ <-.
        eapply thinned_trans; [|exact Hdel]. now apply thinned_same_db.
    + injection Hrun as _ <-. now apply thinned_same_db.
Qed.

Lemma keyed_same_db (w w' : World) : keyed this w -> db w' = db w -> keyed this w'.
Proof. intros Hk Hdb store shape Hs. rewrite Hdb. now apply Hk. Qed.

Lemma keyed_empty (w : World) : (forall s, db w s = []) -> keyed this w.
Proof.
  intros He store shape _. rewrite He. split; constructor.
Qed.

Lemma save_keyed (store : string) (data : JsValue) (entry : JsObject) (w : World) :
  keyed this w -> keyed this (snd (save' store data entry w)).
Proof.
  intros Hk.
  destruct (obj_get store (tables this)) as [shape|] eqn:Hs;
    [|rewrite save_other by exact Hs;
      destruct (handle members this store) as [?|[| |]|];
      now apply keyed_same_db with (w := w)].
  assert (Hserved_case :
            hd None (faults w) = None -> keyed this (snd (save' store data entry w))).
  { intros Hserved.
    destruct (row_key (primKey shape) (stamp' data (clock w (tick w)) entry))
      as [k|] eqn:Hrk.
    - rewrite (@save_run_served store shape data entry w k Hs Hserved Hrk).
      cbn [snd]. intros store' shape' Hs'. cbn [db].
      destruct (String.eqb store' store) eqn:E; [|now apply Hk].
      apply String.eqb_eq in E. subst store'.
      assert (shape' = shape) by congruence. subst shape'.
      destruct (Hk store shape Hs) as (Hnd & Hall).
      set (pk := primKey shape) in *.
      set (row := stamp' data (clock w (tick w)) entry) in *.
      set (kept := filter (fun old => negb (okey_eqb (Some k) (row_key pk old)))
                     (db w store)).
      assert (Hperm : Permutation
                        (insert_sorted (fun a b => okey_leb (row_key pk a) (row_key pk b))
                           row kept)
                        (row :: kept)) by apply insert_sorted_Permutation.
      split.
      + apply Permutation_NoDup
          with (l := map (row_key pk) (row :: kept)).
        * apply Permutation_map. now symmetry.
        * cbn [map]. constructor; [|now apply filter_keeps_keys_distinct].
          intros Hin. apply in_map_iff in Hin. destruct Hin as (x & Hx & Hin).
          apply filter_In in Hin. destruct Hin as (_ & Hne).
          apply negb_true_iff in Hne.
          assert (okey_eqb (Some k) (row_key pk x) = true).
          { apply okey_eqb_eq. exists k. split; [reflexivity|congruence]. }
          congruence.
      + apply Forall_forall. intros r Hr.
        apply (Permutation_in _ Hperm) in Hr. destruct Hr as [<-|Hr].
        * congruence.
        * apply filter_In in Hr. rewrite Forall_forall in Hall.
          now apply Hall.
    - rewrite (@save_run_refused store shape data entry w Hs Hserved Hrk).
      now apply keyed_same_db with (w := w). }
  destruct (faults w) as [|[error|] later] eqn:Hf.
  - now apply Hserved_case.
  - destruct (upgrade_signal error) eqn:Hsig.
    + destruct later as [|[failure|] later'].
      * rewrite (@save_run_reset store shape data entry w error [] Hs Hf Hsig eq_refl).
        now apply keyed_empty.
      * rewrite (@save_run_reset_failed store shape data entry w error failure later'
                   Hs Hf Hsig).
        now apply keyed_same_db with (w := w).
      * rewrite (@save_run_reset store shape data entry w error (None :: later')
                   Hs Hf Hsig eq_refl).
        now apply keyed_empty.
    + rewrite (@save_run_dropped store shape data entry w error later Hs Hf Hsig).
      now apply keyed_same_db with (w := w).
  - now apply Hserved_case.
Qed.

Lemma run_call_keyed (c : Call) (w : World) :
  keyed this w -> keyed this (run_call' c w).
Proof.
  intros Hk. destruct c as [store query|store data entry|targets]; unfold run_call.
  - destruct (find' store query w) as [r w'] eqn:Hrun.
    destruct (find_frame _ _ _ Hrun) as (Hdb & _). cbn [snd].
    now apply keyed_same_db with (w := w).
  - now apply save_keyed.
  - destruct (prune' targets w) as [r w'] eqn:Hrun. cbn [snd].
    apply keyed_thinned with (w := w); [exact Hk|].
    unfold prune in Hrun. now apply prune_loop_thinned in Hrun.
Qed.

(** X16. Through every sequence of calls, each table of the schema
    holds at most one row for a primary key, and no row without one:
    a container that starts so, an empty one in particular, stays
    so. *)
Theorem one_row_for_a_primary_key (calls : list Call) (w : World)
  (Hkeyed : keyed this w) :
  keyed this (run_calls' calls w)
  /\ forall store shape entry other,
       obj_get store (tables this) = Some shape ->
       In entry (db (run_calls' calls w) store) ->
       In other (db (run_calls' calls w) store) ->
       row_key (primKey shape) entry = row_key (primKey shape) other ->
       entry = other.
Proof.
  assert (Hrun : keyed this (run_calls' calls w)).
  { unfold run_calls. revert w Hkeyed.
    induction calls as [|c calls IH]; intros w Hk; [exact Hk|].
    cbn [fold_left]. apply IH. now apply run_call_keyed. }
  split; [exact Hrun|].
  intros store shape entry other Hs Hin1 Hin2 Hsame.
  destruct (Hrun store shape Hs) as (Hnd & _).
  revert Hnd Hin1 Hin2.
  induction (db (run_calls' calls w) store) as [|x l IH]; [intros _ []|].
  cbn [map]. intros Hnd [<-|Hin1] [<-|Hin2]; inversion Hnd as [|? ? Hnotin Hrest];
    subst.
  - reflexivity.
  - exfalso. apply Hnotin. rewrite Hsame. now apply in_map.
  - exfalso. apply Hnotin. rewrite <- Hsame. now apply in_map.
  - now apply IH.
Qed.

(** ** The order of what [find] returns *)

Lemma filter_StronglySorted (A : Type) (R : A -> A -> Prop) (p : A -> bool)
      (l : list A) :
  StronglySorted R l -> StronglySorted R (filter p l).
Proof.
  induction 1 as [|x l Hs IH Hall]; cbn [filter]; [constructor|].
  destruct (p x); [|exact IH]. constructor; [exact IH|].
  apply Forall_forall. intros y Hy. apply filter_In in Hy.
  rewrite Forall_forall in Hall. now apply Hall.
Qed.

Lemma rev_StronglySorted (A : Type) (R : A -> A -> Prop) (l : list A) :
  StronglySorted R l -> StronglySorted (fun a b => R b a) (rev l).
Proof.
  induction 1 as [|x l Hs IH Hall]; cbn [rev]; [constructor|].
  assert (Hend : forall l' : list A,
             StronglySorted (fun a b => R b a) l' ->
             Forall (fun y => R x y) l' ->
             StronglySorted (fun a b => R b a) (l' ++ [x])).
  { induction 1 as [|y l' Hs' IH' Hall']; intros Hx; cbn [app].
    - constructor; constructor.
    - inversion Hx as [|? ? Hxy Hxl]; subst. constructor; [now apply IH'|].
      apply Forall_app. split; [exact Hall'|]. constructor; [exact Hxy|constructor]. }
  apply Hend; [exact IH|].
  apply Forall_forall. intros y Hy. apply in_rev in Hy.
  rewrite Forall_forall in Hall. now apply Hall.
Qed.

Lemma incl_StronglySorted_head (A : Type) (R : A -> A -> Prop) (x : A)
      (l more : list A) :
  Forall (R x) l -> incl more l -> Forall (R x) more.
Proof.
  intros Hall Hincl. apply Forall_forall. intros y Hy.
  rewrite Forall_forall in Hall. now apply Hall, Hincl.
Qed.

Lemma collect_StronglySorted (R : Row -> Row -> Prop) (store : string) (ie : bool)
      (rows : list Row) :
  StronglySorted R rows ->
  forall (n : nat) (w : World) (found : list Row) (w' : World),
    collect' store ie rows n w = (Returned found, w') ->
    StronglySorted R found.
Proof.
  induction 1 as [|entry rest Hs IH Hall]; intros n w found w' Hrun.
  - destruct n; injection Hrun as <- _; constructor.
  - destruct n as [|n']; [injection Hrun as <- _; constructor|].
    cbn [collect] in Hrun. unfold bind at 1 in Hrun.
    assert (Hkeep : forall w1,
               (more <- collect' store ie rest n' ;; ret (entry :: more))%cache w1
               = (Returned found, w') ->
               StronglySorted R found).
    { intros w1 Hk. unfold bind in Hk.
      destruct (collect_frame store ie rest n' w1)
        as (more & w2 & E & _ & _ & _ & _ & _ & _ & _ & Hincl).
      rewrite E in Hk. injection Hk as <- _.
      constructor; [exact (IH _ _ _ _ E)|].
      eapply incl_StronglySorted_head; eassumption. }
    destruct ie.
    + unfold ret at 1 in Hrun. exact (Hkeep _ Hrun).
    + unfold bind at 1 in Hrun. rewrite isExpired_run in Hrun.
      unfold ret at 1 in Hrun.
      destruct (expired_at durationStringToMs this (clock w (tick w)) store entry);
        cbn [negb] in Hrun.
      * exact (IH _ _ _ _ Hrun).
      * exact (Hkeep _ Hrun).
Qed.

Lemma firstn_StronglySorted (A : Type) (R : A -> A -> Prop) (n : nat) (l : list A) :
  StronglySorted R l -> StronglySorted R (firstn n l).
Proof.
  intros H. revert n. induction H as [|x l Hs IH Hall]; intros [|n]; cbn [firstn];
    try constructor; [apply IH|].
  apply Forall_forall. intros y Hy. apply In_firstn in Hy.
  rewrite Forall_forall in Hall. now apply Hall.
Qed.

Lemma entries_sorted (index : string) (l : list (Key * Row)) :
  StronglySorted (fun x y => key_leb (fst x) (fst y) = true) l ->
  Forall (fun e => row_key index (snd e) = Some (fst e)) l ->
  StronglySorted (fun a b => okey_leb (row_key index a) (row_key index b) = true)
    (map snd l).
Proof.
  induction 1 as [|x l Hs IH Hall]; intros Hk; cbn [map]; [constructor|].
  inversion Hk as [|? ? Hx Hl]; subst. constructor; [now apply IH|].
  apply Forall_forall. intros r Hr. apply in_map_iff in Hr.
  destruct Hr as (y & <- & Hy). rewrite Forall_forall in Hall, Hl.
  rewrite Hx, (Hl y Hy). cbn [okey_leb]. now apply Hall.
Qed.

(** [orderBy] on an index that is neither compound nor multi-entry:
    the rows that have the field, by its values. *)
Lemma ordered_by_plain (shape index : string) (a : Access) (rows : list Row) :
  index_named shape index = Some a ->
  components a = None ->
  ix_compound (via a) = false ->
  ix_multi (via a) = false ->
  refusal (ordered_by shape index) = None
  /\ StronglySorted
       (fun x y => okey_leb (row_key index x) (row_key index y) = true)
       (yields (ordered_by shape index) rows)
  /\ Forall (fun r => row_key index r <> None) (yields (ordered_by shape index) rows).
Proof.
  intros Ha Hwhole Hc Hm.
  pose proof (index_named_whole _ _ Ha Hwhole Hc) as Hpath.
  unfold ordered_by. rewrite Ha. cbn [refusal yields].
  assert (Hent : Forall (fun e => row_key index (snd e) = Some (fst e))
                   (index_entries a rows)).
  { apply Forall_forall. intros e He. unfold index_entries in He.
    apply sort_In in He. apply in_flat_map in He. destruct He as (r & _ & He).
    rewrite (@index_keys_plain (via a) index r Hc Hm Hpath) in He.
    apply in_map_iff in He. destruct He as (k & <- & Hk). cbn [fst snd].
    destruct (row_key index r); cbn [some_list] in Hk; [|contradiction].
    destruct Hk as [->|[]]. reflexivity. }
  split; [reflexivity|]. split.
  - apply entries_sorted; [|exact Hent]. unfold index_entries. apply sort_sorted.
    + intros x y. apply key_leb_total.
    + intros x y z. apply key_leb_trans.
  - apply Forall_forall. intros r Hr. apply in_map_iff in Hr.
    destruct Hr as (e & <- & He). rewrite Forall_forall in Hent.
    now rewrite (Hent e He).
Qed.

(** X17. With [orderBy] on an index of the store that is neither
    compound nor multi-entry, the entries that [find] returns under a
    limit are entries that have the field, in the ascending order of
    its values; in the descending order when [order] is ['desc'] or
    ['DESC'], and for no other value of [order]. *)
Theorem find_returns_in_order (store shape index : string) (a : Access)
  (query : CacheQuery) (w : World) (found : list Row)
  (Hs : obj_get store (tables this) = Some shape)
  (Hindex : truthy (q_orderBy query) = Some index)
  (Ha : index_named shape index = Some a)
  (Hwhole : components a = None)
  (Hcompound : ix_compound (via a) = false)
  (Hmulti : ix_multi (via a) = false)
  (Hfound : fst (find' store query w) = Returned (Entries found)) :
  let ascending :=
    fun x y => okey_leb (row_key index x) (row_key index y) = true in
  (forall entry, In entry found -> row_key index entry <> None)
  /\ if descending query
     then StronglySorted (fun x y => ascending y x) found
     else StronglySorted ascending found.
Proof.
  intros ascending.
  destruct (@ordered_by_plain shape index a (db w store) Ha Hwhole Hcompound Hmulti)
    as (Hr & Hsorted & Hkeys).
  fold ascending in Hsorted.
  destruct (q_where query) as [criteria|] eqn:Hw.
  { rewrite (@find_run_thrown store shape query w TypeError Hs) in Hfound;
      [discriminate|].
    unfold chained. rewrite Hw, Hindex. now destruct (descending query). }
  assert (Hchain :
            exists table,
              chained objHash shape query = inr table
              /\ refusal (over table) = None
              /\ Forall (fun r => row_key index r <> None)
                   (yields (over table) (db w store))
              /\ if descending query
                 then StronglySorted (fun x y => ascending y x)
                        (yields (over table) (db w store))
                 else StronglySorted ascending (yields (over table) (db w store))).
  { assert (Hsome : forall (p : Row -> bool) l,
               Forall (fun r => row_key index r <> None) l ->
               Forall (fun r => row_key index r <> None) (filter p l)).
    { intros p l H. apply Forall_forall. intros r Hin. apply filter_In in Hin.
      rewrite Forall_forall in H. now apply H. }
    unfold chained. rewrite Hw, Hindex. cbn [is_collection negb].
    rewrite andb_false_r.
    destruct (descending query), (q_filter query), (q_includeExpired query),
      (q_limit query); cbn;
      eexists; (split; [reflexivity|]); cbn; (split; [exact Hr|]);
      (split;
       [repeat first [apply Hsome | apply Forall_rev]; exact Hkeys
       |repeat first [apply filter_StronglySorted
                     | apply (@rev_StronglySorted Row ascending)];
        exact Hsorted]). }
  destruct Hchain as (table & Hc & Hrefusal & Hhave & Horder).
  destruct (faults w) as [|[e|] later] eqn:Hf;
    [|rewrite (@find_run_failed store shape query table w e later Hs Hc Hf) in Hfound;
      discriminate|];
    (rewrite (@find_run_served store shape query table w Hs Hc Hrefusal) in Hfound
       by (now rewrite Hf);
     match type of Hfound with
     | context [collect' ?s ?ie ?rows ?n ?w1] =>
         destruct (collect_frame s ie rows n w1)
           as (l & w2 & E & _ & _ & _ & _ & _ & _ & _ & Hincl);
         pose proof (fun R H => @collect_StronglySorted R s ie rows H n w1 l w2 E)
           as Hcollected;
         rewrite E in Hfound
     end;
     cbn [fst] in Hfound; unfold shape_result in Hfound;
     destruct (q_limit query); [|discriminate];
     injection Hfound as <-;
     split;
     [intros entry Hin; apply In_firstn, Hincl in Hin;
      rewrite Forall_forall in Hhave; now apply Hhave
     |destruct (descending query); apply firstn_StronglySorted;
      now apply Hcollected]).
Qed.

(** ** One query under several limits *)

Lemma drop_expired_returns (store : string) (rows : list Row) :
  forall w, exists live w', drop_expired' store rows w = (Returned live, w').
Proof.
  induction rows as [|entry rest IH]; intros w.
  - now exists [], w.
  - cbn [drop_expired]. unfold bind at 1. rewrite isExpired_run.
    unfold bind at 1.
    match goal with |- context [drop_expired' store rest ?w1] =>
      destruct (IH w1) as (live & w' & E); rewrite E end.
    unfold ret. eauto.
Qed.

(** Asking the filter as the cursor moves, up to the limit, gives the
    first entries of the filtered list. *)
Lemma collect_drop_expired (store : string) (rows : list Row) :
  forall n w live w',
    drop_expired' store rows w = (Returned live, w') ->
    fst (collect' store false rows n w) = Returned (firstn n live).
Proof.
  induction rows as [|entry rest IH]; intros n w live w' E.
  - inversion E; subst. now rewrite firstn_nil.
  - destruct n as [|n]; [reflexivity|].
    cbn [collect]. cbn [drop_expired] in E.
    unfold bind at 1 in E. unfold bind at 1. unfold bind at 1.
    rewrite isExpired_run in *. unfold ret at 1.
    unfold bind at 1 in E.
    match type of E with context [drop_expired' store rest ?w1] =>
      destruct (drop_expired' store rest w1) as [[more|e] w2] eqn:E2;
      [|discriminate] end.
    unfold ret in E. inversion E; subst live w'.
    destruct (expired_at durationStringToMs this (clock w (tick w)) store entry);
      cbn [negb].
    + now apply (IH (S n) _ _ _ E2).
    + unfold bind. specialize (IH n _ _ _ E2).
      destruct (collect' store false rest n _) as [[found|e] w3];
        simpl in IH; [|discriminate].
      inversion IH. reflexivity.
Qed.

(** The limit comes last: it changes nothing of the chain but its
    last call. *)
Lemma chained_with_limit (shape : string) (query : CacheQuery) (limit : option Z) :
  chained objHash shape (with_limit limit query) =
    match chained objHash shape (with_limit (Some 0) query), limit with
    | inl e, _ => inl e
    | inr table, None => if is_collection table then inr table else inl TypeError
    | inr table, Some _ => inr table
    end.
Proof.
  unfold chained, descending, with_limit.
  cbn [q_where q_orderBy q_order q_filter q_includeExpired q_limit].
  destruct (truthy (q_orderBy query)), (q_order query) as [o|], (q_where query),
    (q_filter query), (q_includeExpired query), limit;
    try destruct (String.eqb o "desc" || String.eqb o "DESC"); reflexivity.
Qed.

Lemma chained_collection (shape : string) (query : CacheQuery) (limit : option Z)
      (table : Chain) :
  chained objHash shape (with_limit limit query) = inr table ->
  truthy (q_orderBy query) <> None \/ q_where query <> None
  \/ q_filter query <> None \/ q_includeExpired query = false ->
  is_collection table = true.
Proof.
  unfold chained, descending, with_limit.
  cbn [q_where q_orderBy q_order q_filter q_includeExpired q_limit].
  destruct (truthy (q_orderBy query)), (q_order query) as [o|], (q_where query),
    (q_filter query), (q_includeExpired query), limit;
    try destruct (String.eqb o "desc" || String.eqb o "DESC"); cbn;
    intros E; try discriminate E; injection E as <-; cbn;
    intuition congruence.
Qed.

Lemma find_of_the_live (store shape : string) (query : CacheQuery) (table : Chain)
      (w : World) :
  obj_get store (tables this) = Some shape ->
  chained objHash shape (with_limit (Some 0) query) = inr table ->
  exists outcome : Outcome (list Row),
    forall limit,
      (limit = None -> is_collection table = true) ->
      fst (find' store (with_limit limit query) w) =
        match outcome with
        | Returned live =>
            Returned match limit with
                     | None => Entry (hd_error live)
                     | Some n => Entries (firstn (Z.to_nat n) live)
                     end
        | Thrown e => Thrown e
        end.
Proof.
  intros Hs Hc.
  exists (fst ((request ;;
                match refusal (over table) with
                | Some e => throw e
                | None =>
                    rows <- read_table store ;;
                    if q_includeExpired query
                    then ret (yields (over table) rows)
                    else drop_expired' store (yields (over table) rows)
                end)%cache w)).
  intros limit Hcollection.
  rewrite (@find_known store shape (with_limit limit query) Hs).
  rewrite chained_with_limit, Hc.
  assert (Hsame : (match limit with
                   | None => if is_collection table then inr table else inl TypeError
                   | Some _ => inr table
                   end : JsError + Chain) = inr table).
  { destruct limit; [reflexivity|]. now rewrite Hcollection. }
  rewrite Hsame. unfold run. unfold bind, read_table, throw.
  cbn [with_limit q_includeExpired q_limit].
  destruct (request w) as [[u|e] w1]; [|reflexivity].
  destruct (refusal (over table)); [reflexivity|].
  set (rows := yields (over table) (db w1 store)).
  set (n := limit_count (with_limit limit query)).
  assert (Hshape : forall live,
             shape_result (with_limit limit query) (firstn n (firstn (Nat.max 1 n) live))
             = match limit with
               | None => Entry (hd_error live)
               | Some k => Entries (firstn (Z.to_nat k) live)
               end).
  { intros live. rewrite firstn_firstn.
    replace (Nat.min n (Nat.max 1 n)) with n by lia.
    subst n. unfold shape_result, limit_count. cbn [with_limit q_limit].
    destruct limit; [reflexivity|]. now rewrite hd_error_firstn_1. }
  destruct (q_includeExpired query).
  - rewrite collect_includeExpired. unfold ret. cbn [fst]. now rewrite Hshape.
  - destruct (drop_expired_returns store rows w1) as (live & w2 & E).
    pose proof (collect_drop_expired store rows (Nat.max 1 n) w1 E) as Hcollect.
    rewrite E.
    destruct (collect' store false rows (Nat.max 1 n) w1) as [[got|e] w3];
      cbn [fst] in Hcollect; [|discriminate].
    injection Hcollect as ->. unfold ret. cbn [fst]. now rewrite Hshape.
Qed.

(** X19. One query under several limits: what [find] returns under a
    limit is the beginning of what it returns under any larger limit;
    and when the query has a clause, or leaves the expired entries
    out, what it returns without a limit is the first of these
    entries, or nothing when there is none. *)
Theorem find_limits_agree (store : string) (query : CacheQuery) (w : World)
  (n m : Z) (found : list Row)
  (Hlimits : 0 <= n <= m)
  (Hfound : fst (find' store (with_limit (Some m) query) w)
            = Returned (Entries found)) :
  fst (find' store (with_limit (Some n) query) w)
  = Returned (Entries (firstn (Z.to_nat n) found))
  /\ (1 <= m ->
      truthy (q_orderBy query) <> None \/ q_where query <> None
      \/ q_filter query <> None \/ q_includeExpired query = false ->
      fst (find' store (with_limit None query) w)
      = Returned (Entry (hd_error found))).
Proof.
  destruct (find' store (with_limit (Some m) query) w) as [r w'] eqn:Hrun.
  cbn [fst] in Hfound. subst r.
  destruct (obj_get store (tables this)) as [shape|] eqn:Hs.
  - destruct (chained objHash shape (with_limit (Some 0) query)) as [e|table] eqn:Hc.
    { rewrite (@find_run_thrown store shape _ w e Hs) in Hrun; [discriminate|].
      now rewrite chained_with_limit, Hc. }
    destruct (@find_of_the_live store shape query table w Hs Hc) as (outcome & Hlive).
    pose proof (Hlive (Some m)) as Hm. rewrite Hrun in Hm. cbn [fst] in Hm.
    specialize (Hm ltac:(discriminate)).
    destruct outcome as [live|e]; [|discriminate].
    injection Hm as ->. split.
    + rewrite Hlive by discriminate.
      rewrite firstn_firstn. do 3 f_equal. lia.
    + intros Hm Hclause. rewrite Hlive.
      * do 2 f_equal.
        destruct (Z.to_nat m) as [|k] eqn:E; [lia|]. now destruct live.
      * intros _. apply (@chained_collection shape query (Some 0) table Hc Hclause).
  - unfold find in Hrun.
    destruct (handle members this store) as [shape|[|items|]|] eqn:Hh.
    + unfold handle in Hh. rewrite Hs in Hh.
      destruct (String.eqb store "tables"),
        (String.eqb store "version" || String.eqb store "delete"),
        (obj_get store members); discriminate.
    + cbv [bind log ret] in Hrun. discriminate.
    + pose proof (find_in_member_thrown store (member_array items)
                    (with_limit (Some m) query) w) as Ht.
      rewrite Hrun in Ht. discriminate.
    + pose proof (find_in_member_thrown store member_other
                    (with_limit (Some m) query) w) as Ht.
      rewrite Hrun in Ht. discriminate.
    + cbv [bind log ret] in Hrun. discriminate.
Qed.

End EngineFacts.

(* ================================================================== *)
(** * The expiration log *)
(* ================================================================== *)

Section Logging.

Variable objHash : JsValue -> string.
Variable durationStringToMs : string -> Z.
Variables this that : Cache.
Variable members : list (string * Member).

Hypothesis same_tables : tables that = tables this.
Hypothesis same_expiration : expiration (configs that) = expiration (configs this).

Lemma expired_at_same (now : Z) (store : string) (entry : Row) :
  expired_at durationStringToMs that now store entry
  = expired_at durationStringToMs this now store entry.
Proof. unfold expired_at, getExpiration. now rewrite same_expiration. Qed.

Lemma collect_cons (cache : Cache) (store : string) (ie : bool) (entry : Row)
      (rest : list Row) (n : nat) (w : World) :
  collect durationStringToMs cache store ie (entry :: rest) (S n) w =
    let keep := fun v =>
      match collect durationStringToMs cache store ie rest n v with
      | (Returned more, v') => (Returned (entry :: more), v')
      | (Thrown e, v') => (Thrown e, v')
      end in
    if ie then keep w
    else if expired_at durationStringToMs cache (clock w (tick w)) store entry
         then collect durationStringToMs cache store ie rest (S n)
                (snd (isExpired durationStringToMs cache store entry w))
         else keep (snd (isExpired durationStringToMs cache store entry w)).
Proof.
  cbn [collect]. destruct ie.
  - reflexivity.
  - unfold bind at 1. unfold bind at 1. rewrite isExpired_run. unfold ret at 1.
    cbn [snd].
    destruct (expired_at durationStringToMs cache (clock w (tick w)) store entry);
      reflexivity.
Qed.

Lemma isExpired_alike (store : string) (entry : Row) (w1 w2 : World) :
  alike w1 w2 ->
  alike (snd (isExpired durationStringToMs that store entry w1))
        (snd (isExpired durationStringToMs this store entry w2)).
Proof.
  intros (Hdb & Hclock & Htick & Hfaults). rewrite !isExpired_run.
  repeat split; cbn [snd db clock tick]; try congruence.
  etransitivity; [apply (faults_same _ w1); reflexivity|].
  rewrite Hfaults. symmetry. apply (faults_same _ w2); reflexivity.
Qed.

Lemma collect_alike (store : string) (ie : bool) (rows : list Row) :
  forall (n : nat) (w1 w2 : World),
    alike w1 w2 ->
    fst (collect durationStringToMs that store ie rows n w1)
    = fst (collect durationStringToMs this store ie rows n w2)
    /\ alike (snd (collect durationStringToMs that store ie rows n w1))
             (snd (collect durationStringToMs this store ie rows n w2)).
Proof.
  induction rows as [|entry rest IH]; intros n w1 w2 Hw.
  - destruct n; split; first [reflexivity|exact Hw].
  - destruct n as [|n']; [split; first [reflexivity|exact Hw]|].
    rewrite !collect_cons. cbv zeta.
    assert (Hkeep : forall v1 v2,
               alike v1 v2 ->
               fst (match collect durationStringToMs that store ie rest n' v1 with
                    | (Returned more, v') => (Returned (entry :: more), v')
                    | (Thrown e, v') => (Thrown e, v')
                    end)
               = fst (match collect durationStringToMs this store ie rest n' v2 with
                      | (Returned more, v') => (Returned (entry :: more), v')
                      | (Thrown e, v') => (Thrown e, v')
                      end)
               /\ alike
                    (snd (match collect durationStringToMs that store ie rest n' v1 with
                          | (Returned more, v') => (Returned (entry :: more), v')
                          | (Thrown e, v') => (Thrown e, v')
                          end))
                    (snd (match collect durationStringToMs this store ie rest n' v2 with
                          | (Returned more, v') => (Returned (entry :: more), v')
                          | (Thrown e, v') => (Thrown e, v')
                          end))).
    { intros v1 v2 Hv.
      destruct (IH n' v1 v2 Hv) as (Hfst & Hsnd).
      destruct (collect durationStringToMs that store ie rest n' v1) as [r1 u1].
      destruct (collect durationStringToMs this store ie rest n' v2) as [r2 u2].
      cbn [fst snd] in Hfst, Hsnd. subst r2.
      destruct r1; split; first [reflexivity|exact Hsnd]. }
    destruct ie; [now apply Hkeep|].
    pose proof (isExpired_alike store entry Hw) as Hnext.
    destruct Hw as (Hdb & Hclock & Htick & Hfaults).
    rewrite expired_at_same, Hclock, Htick.
    destruct (expired_at durationStringToMs this (clock w2 (tick w2)) store entry);
      [now apply IH|now apply Hkeep].
Qed.

Lemma each_isExpired_alike (store : string) (items : list JsObject) :
  forall w1 w2 : World,
    alike w1 w2 ->
    fst (each_isExpired durationStringToMs that store items w1)
    = fst (each_isExpired durationStringToMs this store items w2)
    /\ alike (snd (each_isExpired durationStringToMs that store items w1))
             (snd (each_isExpired durationStringToMs this store items w2)).
Proof.
  induction items as [|item rest IH]; intros w1 w2 Hw.
  - split; [reflexivity|exact Hw].
  - cbn [each_isExpired]. unfold bind.
    pose proof (isExpired_alike store item Hw) as Hnext.
    rewrite !isExpired_run in *. cbn [snd] in Hnext. now apply IH.
Qed.

Lemma alike_refl (w : World) : alike w w.
Proof. repeat split. Qed.

(** X18. The expiration log is an observation and nothing else: two
    caches with the same tables and the same durations, the one with
    [logExpiration] and the other without, give to every [find] the
    same answer, and leave the container, the clock and the table
    store in the same state. *)
Theorem logging_is_observation_only (store : string) (query : CacheQuery)
  (w : World) :
  fst (find objHash durationStringToMs that members store query w)
  = fst (find objHash durationStringToMs this members store query w)
  /\ alike (snd (find objHash durationStringToMs that members store query w))
           (snd (find objHash durationStringToMs this members store query w)).
Proof.
  destruct (obj_get store (tables this)) as [shape|] eqn:Hs.
  - assert (Hs' : obj_get store (tables that) = Some shape)
      by now rewrite same_tables.
    rewrite (@find_known objHash durationStringToMs that members store shape query Hs').
    rewrite (@find_known objHash durationStringToMs this members store shape query Hs).
    destruct (chained objHash shape query) as [e|table];
      [split; [reflexivity|apply alike_refl]|].
    unfold run. unfold bind, read_table, throw.
    destruct (request w) as [[u|e] w1]; [|split; [reflexivity|apply alike_refl]].
    destruct (refusal (over table)); [split; [reflexivity|apply alike_refl]|].
    destruct (@collect_alike store (q_includeExpired query)
                (yields (over table) (db w1 store))
                (Nat.max 1 (limit_count query)) w1 w1 (alike_refl w1))
      as (Hfst & Hsnd).
    destruct (collect durationStringToMs that store (q_includeExpired query)
                (yields (over table) (db w1 store))
                (Nat.max 1 (limit_count query)) w1) as [r1 u1].
    destruct (collect durationStringToMs this store (q_includeExpired query)
                (yields (over table) (db w1 store))
                (Nat.max 1 (limit_count query)) w1) as [r2 u2].
    cbn [fst snd] in Hfst, Hsnd. subst r2.
    destruct r1; split; first [reflexivity|exact Hsnd].
  - unfold find, handle, table_names. rewrite same_tables, Hs.
    assert (Hmember : forall m,
               fst (find_in_member durationStringToMs that store m query w)
               = fst (find_in_member durationStringToMs this store m query w)
               /\ alike (snd (find_in_member durationStringToMs that store m query w))
                        (snd (find_in_member durationStringToMs this store m query w))).
    { intros m. unfold find_in_member.
      destruct m as [|items|]; try (split; [reflexivity|apply alike_refl]).
      destruct (truthy (q_orderBy query)), (descending query), (q_where query);
        try (split; [reflexivity|apply alike_refl]).
      unfold bind. destruct (q_includeExpired query);
        [split; [reflexivity|apply alike_refl]|].
      match goal with |- context [each_isExpired _ this _ ?l w] =>
        destruct (@each_isExpired_alike store l w w (alike_refl w)) as (Hfst & Hsnd);
        destruct (each_isExpired durationStringToMs that store l w) as [r1 u1];
        destruct (each_isExpired durationStringToMs this store l w) as [r2 u2]
      end.
      cbn [fst snd] in Hfst, Hsnd. subst r2.
      destruct r1; split; first [reflexivity|exact Hsnd]. }
    destruct (String.eqb store "tables"); [apply Hmember|].
    destruct (String.eqb store "version" || String.eqb store "delete");
      [apply Hmember|].
    destruct (obj_get store members) as [[|items|]|];
      first [apply Hmember | split; [reflexivity|apply alike_refl]].
Qed.

End Logging.

(* ================================================================== *)
(** * The instance: its stores and its durations *)
(* ================================================================== *)

Lemma obj_get_spread (V : Type) (k : string) (b : list (string * V)) :
  forall a,
    obj_get k (obj_spread a b) =
      match obj_get k (rev b) with
      | Some v => Some v
      | None => obj_get k a
      end.
Proof.
  unfold obj_spread. induction b as [|[k' v'] b IH]; intros a; [reflexivity|].
  cbn [fold_left rev fst snd]. rewrite IH, obj_get_app.
  destruct (obj_get k (rev b)); [reflexivity|]. cbn [obj_get].
  destruct (String.eqb k k') eqn:E.
  - apply String.eqb_eq in E. subst. apply obj_get_set_same.
  - apply obj_get_set_other. now apply String.eqb_neq.
Qed.

Lemma obj_get_rev (V : Type) (k : string) (o : list (string * V)) :
  wf_obj o -> obj_get k (rev o) = obj_get k o.
Proof.
  intros Hwf. symmetry. apply obj_get_Permutation; [apply Permutation_rev|exact Hwf].
Qed.

Lemma obj_get_spread_wf (V : Type) (k : string) (a b : list (string * V)) :
  wf_obj b ->
  obj_get k (obj_spread a b) =
    match obj_get k b with
    | Some v => Some v
    | None => obj_get k a
    end.
Proof. intros Hwf. now rewrite obj_get_spread, obj_get_rev. Qed.




Lemma find_last (A : Type) (f : A -> bool) (x : A) (l : list A) :
  List.find f (l ++ [x]) =
    match List.find f l with
    | Some y => Some y
    | None => if f x then Some x else None
    end.
Proof.
  induction l as [|y l IH]; cbn [app List.find]; [reflexivity|].
  now destruct (f y).
Qed.

Lemma extraStores_fold (decls : list StoreDecl) :
  extraStores decls =
    fold_left (fun acc d => obj_set (decl_name d) (decl_index d) acc) decls [].
Proof.
  unfold extraStores. generalize (@nil (string * string)).
  induction decls as [|d decls IH]; intros acc; [reflexivity|].
  cbn [fold_left]. rewrite IH. f_equal.
  destruct d as [name|name [[|c i]|]]; reflexivity.
Qed.

Lemma declared_get (name : string) (decls : list StoreDecl) :
  forall acc,
    obj_get name
      (fold_left (fun acc d => obj_set (decl_name d) (decl_index d) acc) decls acc)
    = match last_declared name decls with
      | Some d => Some (decl_index d)
      | None => obj_get name acc
      end.
Proof.
  unfold last_declared. induction decls as [|d decls IH]; intros acc; [reflexivity|].
  cbn [fold_left rev]. rewrite IH, find_last.
  destruct (List.find (fun d0 => String.eqb name (decl_name d0)) (rev decls));
    [reflexivity|].
  destruct (String.eqb name (decl_name d)) eqn:E.
  - apply String.eqb_eq in E. subst. apply obj_get_set_same.
  - apply obj_get_set_other. now apply String.eqb_neq.
Qed.


Lemma module_stores_wf (stack : AlgoStack) : wf_obj (module_stores stack).
Proof.
  unfold module_stores.
  destruct (query stack), (nfds stack), (medias stack);
    apply distinct_NoDup; reflexivity.
Qed.

Lemma init_tables_spread (this : Cache) (stack : AlgoStack) :
  tables (init this stack) =
    match stores (configs this) with
    | [] => module_stores stack
    | decls => obj_spread (extraStores decls) (module_stores stack)
    end.
Proof.
  unfold init, module_stores. cbn [tables].
  destruct (query stack), (nfds stack), (medias stack);
    destruct (stores (configs this)); reflexivity.
Qed.


(** X8. The tables that [init] declares: a store of a module that the
    stack carries has the index shape the module gives it, whatever
    the configuration says of that name; any other name is a table
    when the configuration declares it, with the shape of its last
    declaration, ['&params'] when that one gives none. *)
Theorem init_tables_precedence (this : Cache) (stack : AlgoStack) (name : string) :
  obj_get name (tables (init this stack)) =
    match obj_get name (module_stores stack) with
    | Some shape => Some shape
    | None => option_map decl_index (last_declared name (stores (configs this)))
    end.
Proof.
  rewrite init_tables_spread.
  destruct (stores (configs this)) as [|d decls] eqn:E.
  - now destruct (obj_get name (module_stores stack)).
  - rewrite obj_get_spread_wf by apply module_stores_wf.
    destruct (obj_get name (module_stores stack)); [reflexivity|].
    rewrite extraStores_fold, declared_get.
    now destruct (last_declared name (d :: decls)).
Qed.



(* ================================================================== *)
(** * The module in its lookup form *)
(* ================================================================== *)

Lemma filterCacheEntry_hashObjectProps (objHash : JsValue -> string)
      (entry : JsObject) :
  filterCacheEntry objHash entry = hashObjectProps objHash entry.
Proof. reflexivity. Qed.

Lemma filter_insert_sorted_none (A : Type) (leb : A -> A -> bool) (p : A -> bool)
      (x : A) (l : list A) :
  p x = false -> filter p l = [] -> filter p (insert_sorted leb x l) = [].
Proof.
  intros Hx Hl. induction l as [|y l IH]; cbn [insert_sorted].
  - cbn [filter]. now rewrite Hx.
  - cbn [filter] in Hl. destruct (p y) eqn:Ey; [discriminate|].
    destruct (leb x y); cbn [filter]; rewrite ?Hx, ?Ey; [exact Hl|now apply IH].
Qed.

(** What the equality lookup yields is held by the index under the
    key that was asked. *)
Lemma where_equals_hit (shape name : string) (value : JsValue) (a : Access)
      (k : Key) (rows : list Row) (r : Row) :
  index_named shape name = Some a ->
  to_key value = Some k ->
  In r (yields (where_equals shape name value) rows) ->
  In r rows
  /\ exists key, In key (index_keys (via a) r)
                 /\ key_eqb k (looked_up a key) = true.
Proof.
  intros Ha Hk. unfold where_equals. rewrite Ha, Hk. cbn [yields].
  intros Hin. apply in_map_iff in Hin. destruct Hin as (e & <- & He).
  apply filter_In in He. destruct He as [He Hmatch].
  unfold index_entries in He. apply sort_In in He. apply in_flat_map in He.
  destruct He as (r & Hr & He). apply in_map_iff in He.
  destruct He as (key & <- & Hkey). cbn [fst snd] in *. eauto.
Qed.

Lemma filter_is_nil (A : Type) (l : list A) : (forall x, ~ In x l) -> l = [].
Proof.
  destruct l as [|x l]; [reflexivity|]. intros H. elim (H x). now left.
Qed.

(** The stores of the lookup module whose primary key is [id]. *)
Lemma lookup_shapes_by_id (that : LookupCache.Cache)
      (forwarded : LookupCache.Forwarded) (store shape : string) :
  obj_get store (LookupCache.tables (LookupCache.init that forwarded)) = Some shape ->
  primKey shape = "id"%string ->
  shape = "&id, [id+params]"%string \/ shape = "&id"%string.
Proof.
  intros Hs Hpk. unfold LookupCache.init in Hs. cbn [LookupCache.tables] in Hs.
  destruct (LookupCache.query forwarded), (LookupCache.queryAddons forwarded),
    (LookupCache.nfds forwarded);
    match type of Hs with
    | obj_get store ?t = _ =>
        let t' := eval vm_compute in t in change t with t' in Hs
    end;
    cbn [obj_get] in Hs;
    repeat match type of Hs with
           | context [String.eqb ?a ?b] => destruct (String.eqb a b)
           end;
    try discriminate Hs; injection Hs as <-;
    first [now left | now right | vm_compute in Hpk; discriminate Hpk].
Qed.

(** The query by identifier and parameters, on their compound
    index. *)
Lemma lookup_where_by_id_and_params (id : Z) (p : string) :
  Table_where "&id, [id+params]" [("id", JNum id); ("params", JStr p)]%string
  = where_equals "&id, [id+params]" "[id+params]" (JArr [JNum id; JStr p]).
Proof. reflexivity. Qed.

Section LookupCacheFacts.

Variable objHash : JsValue -> string.
Variable durationStringToMs : string -> Z.
Variable this : LookupCache.Cache.
Variable members : list (string * Member).

Local Abbreviation lookup_find :=
  (LookupCache.find objHash durationStringToMs this members).
Local Abbreviation lookup_save := (LookupCache.save objHash this members).
Local Abbreviation lookup_expiration :=
  (LookupCache.getExpiration durationStringToMs this).

Lemma lookup_handle_table (store shape : string) :
  obj_get store (LookupCache.tables this) = Some shape ->
  LookupCache.handle members this store = is_table shape.
Proof. unfold LookupCache.handle. now intros ->. Qed.

Lemma lookup_handle_other (store : string) :
  obj_get store (LookupCache.tables this) = None ->
  forall shape, LookupCache.handle members this store <> is_table shape.
Proof.
  intros Hs shape. unfold LookupCache.handle. rewrite Hs.
  destruct (String.eqb store "tables"); [discriminate|].
  destruct (String.eqb store "version" || String.eqb store "delete");
    [discriminate|].
  destruct (obj_get store members); discriminate.
Qed.

Lemma lookup_find_served (store shape : string) (query : JsObject) (w : World) :
  obj_get store (LookupCache.tables this) = Some shape ->
  hd None (faults w) = None ->
  refusal (Table_where shape (filterCacheEntry objHash query)) = None ->
  lookup_find store query w =
    let w1 := {| db := db w; clock := clock w; tick := tick w;
                 console := console w; script := tl (script w); closed := closed w |} in
    match hd_error (yields (Table_where shape (filterCacheEntry objHash query))
                      (db w store)) with
    | None => (Returned None, w1)
    | Some results =>
        let w2 := {| db := db w; clock := clock w; tick := S (tick w);
                     console := console w; script := tl (script w); closed := closed w |} in
        if match entry_timestamp results with
           | Some t => t + lookup_expiration store <? clock w (tick w)
           | None => false
           end
        then (Returned None,
              {| db := db w; clock := clock w; tick := S (tick w);
                 console := console w ++ [expiration_warning store];
                 script := tl (script w); closed := closed w |})
        else (Returned (Some results), w2)
    end.
Proof.
  intros Hs Hserved Hr. unfold LookupCache.find.
  rewrite (lookup_handle_table store Hs).
  unfold try_catch, get. unfold bind at 1. unfold bind at 1.
  rewrite request_served by exact Hserved. rewrite Hr.
  unfold bind at 1. unfold read_table at 1. unfold ret at 1. cbn [db].
  destruct (hd_error (yields (Table_where shape (filterCacheEntry objHash query))
                        (db w store)))
    as [results|]; [|reflexivity].
  unfold LookupCache.served.
  unfold bind at 1. unfold Date_now at 1. cbn [clock tick].
  cbv zeta.
  destruct (match entry_timestamp results with
            | Some t => t + lookup_expiration store <? clock w (tick w)
            | None => false
            end); reflexivity.
Qed.

(** A query that no index of the store serves: the refusal of the
    library is caught like the rest. *)
Lemma lookup_find_refused (store shape : string) (query : JsObject) (w : World)
      (e : JsError) :
  obj_get store (LookupCache.tables this) = Some shape ->
  hd None (faults w) = None ->
  refusal (Table_where shape (filterCacheEntry objHash query)) = Some e ->
  lookup_find store query w =
    (Returned None,
     {| db := db w; clock := clock w; tick := tick w; console := console w;
        script := tl (script w); closed := closed w |}).
Proof.
  intros Hs Hserved Hr. unfold LookupCache.find.
  rewrite (lookup_handle_table store Hs).
  unfold try_catch, get. unfold bind at 1. unfold bind at 1.
  rewrite request_served by exact Hserved. now rewrite Hr.
Qed.

Lemma lookup_find_failed (store shape : string) (query : JsObject) (w : World)
      (e : JsError) (later : list (option JsError)) :
  obj_get store (LookupCache.tables this) = Some shape ->
  faults w = Some e :: later ->
  lookup_find store query w =
    (Returned None,
     {| db := db w; clock := clock w; tick := tick w; console := console w;
        script := later; closed := closed w |}).
Proof.
  intros Hs Hf. unfold LookupCache.find.
  rewrite (lookup_handle_table store Hs).
  unfold try_catch, get. unfold bind at 1. unfold bind at 1.
  now rewrite (request_failed w Hf).
Qed.

(** Under a name that is no table: the store-not-found line, or,
    when the handle holds something under the name, a [get] that is
    not there, whose error is caught. *)
Lemma lookup_find_other (store : string) (query : JsObject) (w : World) :
  obj_get store (LookupCache.tables this) = None ->
  lookup_find store query w =
    (Returned None,
     match LookupCache.handle members this store with
     | is_member member_falsy | is_undefined =>
         {| db := db w; clock := clock w; tick := tick w;
            console := console w ++ [store_not_found store];
            script := script w; closed := closed w |}
     | _ => w
     end).
Proof.
  intros Hs. pose proof (lookup_handle_other store Hs) as Hother.
  unfold LookupCache.find.
  destruct (LookupCache.handle members this store) as [shape|[|items|]|];
    try reflexivity.
  now elim (Hother shape).
Qed.

(** X11. [find] of the lookup module does not reject, whatever the
    table store answers: a read that fails is a miss, the container
    untouched and nothing logged, and so is a query that no index of
    the store serves; a name under which the handle holds nothing is a
    miss with its line on the console. *)
Theorem lookup_find_never_rejects (store : string) (query : JsObject) (w : World) :
  (exists result w',
      lookup_find store query w = (Returned result, w') /\ db w' = db w)
  /\ (forall shape e later,
         obj_get store (LookupCache.tables this) = Some shape ->
         faults w = Some e :: later ->
         fst (lookup_find store query w) = Returned None
         /\ console (snd (lookup_find store query w)) = console w)
  /\ (forall shape e,
         obj_get store (LookupCache.tables this) = Some shape ->
         hd None (faults w) = None ->
         refusal (Table_where shape (filterCacheEntry objHash query)) = Some e ->
         fst (lookup_find store query w) = Returned None
         /\ console (snd (lookup_find store query w)) = console w)
  /\ (LookupCache.handle members this store = is_undefined ->
      fst (lookup_find store query w) = Returned None
      /\ console (snd (lookup_find store query w))
         = console w ++ [store_not_found store]).
Proof.
  split; [|split; [|split]].
  - destruct (obj_get store (LookupCache.tables this)) as [shape|] eqn:Hs.
    + destruct (faults w) as [|[e|] later] eqn:Hf.
      2:{ rewrite (@lookup_find_failed store shape query w e later Hs Hf).
          eexists; eexists; split; reflexivity. }
      all: assert (Hserved : hd None (faults w) = None) by (now rewrite Hf);
        destruct (refusal (Table_where shape (filterCacheEntry objHash query)))
          as [e|] eqn:Hr;
        [rewrite (@lookup_find_refused store shape query w e Hs Hserved Hr);
         eexists; eexists; split; reflexivity|];
        rewrite (@lookup_find_served store shape query w Hs Hserved Hr);
        cbv zeta;
        (destruct (hd_error _) as [results|];
         [|eexists; eexists; split; reflexivity]);
        destruct (match entry_timestamp results with Some _ => _ | None => _ end);
        eexists; eexists; split; reflexivity.
    + rewrite (lookup_find_other store query w Hs).
      destruct (LookupCache.handle members this store) as [?|[| |]|];
        eexists; eexists; split; reflexivity.
  - intros shape e later Hs Hf.
    now rewrite (@lookup_find_failed store shape query w e later Hs Hf).
  - intros shape e Hs Hserved Hr.
    now rewrite (@lookup_find_refused store shape query w e Hs Hserved Hr).
  - intros Hh. unfold LookupCache.find. rewrite Hh. split; reflexivity.
Qed.

(** X12. What [find] of the lookup module returns is an entry of the
    store whose duration has not run out, and it is returned without
    a line on the console; asked by the primary key of the store, it
    is an entry stored under that key.  When the entry stored under
    the key has expired, the answer is a miss, and the expiration is
    logged. *)
Theorem lookup_find_serves_fresh (store : string) (query : JsObject) (w : World) :
  (forall entry w',
      lookup_find store query w = (Returned (Some entry), w') ->
      In entry (db w store)
      /\ (forall t, entry_timestamp entry = Some t ->
                    clock w (tick w) <= t + lookup_expiration store)
      /\ console w' = console w
      /\ (forall shape value k,
             obj_get store (LookupCache.tables this) = Some shape ->
             compound_paths (primKey shape) = None ->
             filterCacheEntry objHash query = [(primKey shape, value)] ->
             to_key value = Some k ->
             row_key (primKey shape) entry = Some k))
  /\ (forall shape value k entry t,
         obj_get store (LookupCache.tables this) = Some shape ->
         compound_paths (primKey shape) = None ->
         filterCacheEntry objHash query = [(primKey shape, value)] ->
         to_key value = Some k ->
         hd None (faults w) = None ->
         hd_error (filter (fun r => okey_eqb (Some k) (row_key (primKey shape) r))
                     (db w store)) = Some entry ->
         entry_timestamp entry = Some t ->
         t + lookup_expiration store < clock w (tick w) ->
         fst (lookup_find store query w) = Returned None
         /\ console (snd (lookup_find store query w))
            = console w ++ [expiration_warning store]).
Proof.
  split.
  - intros entry w' Hfind.
    destruct (obj_get store (LookupCache.tables this)) as [shape|] eqn:Hs.
    + assert (Hserved : hd None (faults w) = None).
      { destruct (faults w) as [|[e|] later] eqn:Hf; try reflexivity.
        rewrite (@lookup_find_failed store shape query w e later Hs Hf) in Hfind.
        discriminate. }
      destruct (refusal (Table_where shape (filterCacheEntry objHash query)))
        as [e|] eqn:Hr;
        [rewrite (@lookup_find_refused store shape query w e Hs Hserved Hr) in Hfind;
         discriminate|].
      rewrite (@lookup_find_served store shape query w Hs Hserved Hr) in Hfind.
      cbv zeta in Hfind.
      destruct (hd_error (yields (Table_where shape (filterCacheEntry objHash query))
                            (db w store)))
        as [results|] eqn:Hhd; [|discriminate].
      assert (Hin : In results (yields (Table_where shape
                                          (filterCacheEntry objHash query))
                                  (db w store))).
      { destruct (yields _ _); [discriminate|injection Hhd as ->; now left]. }
      assert (Hfresh : forall t, entry_timestamp results = Some t ->
                                 clock w (tick w) <= t + lookup_expiration store
                                 /\ (Returned (Some results),
                                     {| db := db w; clock := clock w; tick := S (tick w);
                                        console := console w; script := tl (script w);
                                        closed := closed w |})
                                    = (Returned (Some entry), w')).
      { intros t Ht. rewrite Ht in Hfind.
        destruct (t + lookup_expiration store <? clock w (tick w)) eqn:Hx;
          [discriminate|]. split; [now apply Z.ltb_ge|exact Hfind]. }
      assert (Hsame : results = entry
                      /\ console w' = console w).
      { destruct (entry_timestamp results) as [t|] eqn:Ht.
        - destruct (Hfresh t eq_refl) as [_ E]. injection E as <- <-. now split.
        - injection Hfind as <- <-. now split. }
      destruct Hsame as [<- Hconsole].
      split; [exact (@Table_where_incl shape (filterCacheEntry objHash query)
                       (db w store) _ Hin)|].
      split; [intros t Ht; now apply Hfresh|]. split; [exact Hconsole|].
      intros shape' value k Hs' Hplain Hquery Hk.
      assert (shape' = shape) by congruence. subst shape'.
      destruct (@where_by_key objHash shape query value k Hplain Hquery Hk)
        as [_ Hy].
      change (filterCacheEntry objHash query) with (hashObjectProps objHash query)
        in Hin.
      rewrite Hy in Hin. apply filter_In in Hin. destruct Hin as [_ Hm].
      apply okey_eqb_eq in Hm. destruct Hm as (k' & E1 & E2). congruence.
    + rewrite (lookup_find_other store query w Hs) in Hfind. discriminate.
  - intros shape value k entry t Hs Hplain Hquery Hk Hserved Hhd Ht Hx.
    destruct (@where_by_key objHash shape query value k Hplain Hquery Hk)
      as [Hr Hy].
    rewrite (@lookup_find_served store shape query w Hs Hserved Hr). cbv zeta.
    change (filterCacheEntry objHash query) with (hashObjectProps objHash query).
    rewrite Hy, Hhd, Ht. apply Z.ltb_lt in Hx. rewrite Hx. split; reflexivity.
Qed.

Lemma lookup_save_known (store shape : string) (data : JsValue) (entry : JsObject)
      (w : World) :
  obj_get store (LookupCache.tables this) = Some shape ->
  lookup_save store data entry w =
    try_catch (put store shape (stamp objHash data (clock w (tick w)) entry))
      (fun e => log (LookupCache.write_failure store e))
      {| db := db w; clock := clock w; tick := S (tick w);
         console := console w; script := script w; closed := closed w |}.
Proof.
  intros Hs. unfold LookupCache.save.
  rewrite (lookup_handle_table store Hs). reflexivity.
Qed.

Lemma lookup_save_served (store shape : string) (data : JsValue) (entry : JsObject)
      (w : World) (k : Key) :
  obj_get store (LookupCache.tables this) = Some shape ->
  hd None (faults w) = None ->
  row_key (primKey shape) (stamp objHash data (clock w (tick w)) entry) = Some k ->
  lookup_save store data entry w =
    (Returned tt,
     {| db := fun s =>
                if String.eqb s store
                then insert_sorted
                       (fun a b => okey_leb (row_key (primKey shape) a)
                                     (row_key (primKey shape) b))
                       (stamp objHash data (clock w (tick w)) entry)
                       (filter (fun old => negb (okey_eqb (Some k)
                                                   (row_key (primKey shape) old)))
                          (db w store))
                else db w s;
        clock := clock w; tick := S (tick w); console := console w;
        script := tl (script w); closed := closed w |}).
Proof.
  intros Hs Hserved Hk. rewrite (@lookup_save_known store shape data entry w Hs).
  unfold try_catch. erewrite put_run_served.
  - reflexivity.
  - exact Hserved.
  - unfold table_put. cbn [db]. now rewrite Hk.
Qed.

Lemma lookup_save_failed (store shape : string) (data : JsValue) (entry : JsObject)
      (w : World) (e : JsError) (later : list (option JsError)) :
  obj_get store (LookupCache.tables this) = Some shape ->
  faults w = Some e :: later ->
  lookup_save store data entry w =
    (Returned tt,
     {| db := db w; clock := clock w; tick := S (tick w);
        console := console w ++ [LookupCache.write_failure store e];
        script := later; closed := closed w |}).
Proof.
  intros Hs Hf. rewrite (@lookup_save_known store shape data entry w Hs).
  unfold try_catch. erewrite put_run_failed by (cbn [faults]; exact Hf).
  reflexivity.
Qed.

Lemma lookup_save_refused (store shape : string) (data : JsValue) (entry : JsObject)
      (w : World) :
  obj_get store (LookupCache.tables this) = Some shape ->
  hd None (faults w) = None ->
  row_key (primKey shape) (stamp objHash data (clock w (tick w)) entry) = None ->
  lookup_save store data entry w =
    (Returned tt,
     {| db := db w; clock := clock w; tick := S (tick w);
        console := console w ++ [LookupCache.write_failure store DataError];
        script := tl (script w); closed := closed w |}).
Proof.
  intros Hs Hserved Hk. rewrite (@lookup_save_known store shape data entry w Hs).
  unfold try_catch. erewrite put_run_refused.
  - reflexivity.
  - exact Hserved.
  - unfold table_put. cbn [db]. now rewrite Hk.
Qed.

(** X13. [save] of the lookup module does not reject either: a write
    that the table store fails or refuses is logged with the name of
    the store, and the container is as it was, also when the failure
    carries the schema-upgrade signal. *)
Theorem lookup_save_logs_failures (store : string) (data : JsValue)
  (entry : JsObject) (w : World) :
  (exists w', lookup_save store data entry w = (Returned tt, w'))
  /\ (forall shape e later,
         obj_get store (LookupCache.tables this) = Some shape ->
         faults w = Some e :: later ->
         db (snd (lookup_save store data entry w)) = db w
         /\ console (snd (lookup_save store data entry w))
            = console w ++ [LookupCache.write_failure store e])
  /\ (forall shape,
         obj_get store (LookupCache.tables this) = Some shape ->
         hd None (faults w) = None ->
         row_key (primKey shape) (stamp objHash data (clock w (tick w)) entry) = None ->
         db (snd (lookup_save store data entry w)) = db w
         /\ console (snd (lookup_save store data entry w))
            = console w ++ [LookupCache.write_failure store DataError]).
Proof.
  split; [|split].
  - destruct (obj_get store (LookupCache.tables this)) as [shape|] eqn:Hs.
    + destruct (faults w) as [|[e|] later] eqn:Hf.
      2:{ eexists. exact (@lookup_save_failed store shape data entry w e later Hs Hf). }
      all: assert (Hserved : hd None (faults w) = None) by (now rewrite Hf);
        destruct (row_key (primKey shape)
                    (stamp objHash data (clock w (tick w)) entry)) as [k|] eqn:Hk;
        eexists;
        [exact (@lookup_save_served store shape data entry w k Hs Hserved Hk)
        |exact (@lookup_save_refused store shape data entry w Hs Hserved Hk)].
    + pose proof (lookup_handle_other store Hs) as Hother.
      unfold LookupCache.save.
      destruct (LookupCache.handle members this store) as [shape|[|items|]|];
        try (eexists; reflexivity).
      now elim (Hother shape).
  - intros shape e later Hs Hf.
    rewrite (@lookup_save_failed store shape data entry w e later Hs Hf).
    split; reflexivity.
  - intros shape Hs Hserved Hk.
    rewrite (@lookup_save_refused store shape data entry w Hs Hserved Hk).
    split; reflexivity.
Qed.

(** X14. Save, then find, in the lookup module: an entry saved under
    key fields is the entry that [find] returns for key fields that are
    structurally equal, in whatever order they were written, when what
    is left of them once normalised is the primary key of the store,
    and as long as the duration of the entry has not run out. *)
Theorem lookup_save_then_find (store shape : string) (o1 o2 : JsObject)
  (data value : JsValue) (w : World) (k : Key)
  (Hstable : forall a b, js_equiv a b -> objHash a = objHash b)
  (Hwf1 : wf_obj o1) (Hwf2 : wf_obj o2)
  (Hequiv : js_equiv (JObj o1) (JObj o2))
  (Hs : obj_get store (LookupCache.tables this) = Some shape)
  (Hplain : compound_paths (primKey shape) = None)
  (Hdata : primKey shape <> "data"%string)
  (Htimestamp : primKey shape <> "timestamp"%string)
  (Hkey : filterCacheEntry objHash o2 = [(primKey shape, value)])
  (Hk : to_key value = Some k)
  (Hserving : serving w)
  (Hfresh : clock w (S (tick w)) <= clock w (tick w) + lookup_expiration store) :
  fst (lookup_save store data o1 w) = Returned tt
  /\ fst (lookup_find store o2 (snd (lookup_save store data o1 w)))
     = Returned (Some (stamp objHash data (clock w (tick w)) o1)).
Proof.
  set (row := stamp objHash data (clock w (tick w)) o1).
  pose proof (@equal_keys_share_primary objHash (primKey shape) o1 o2 value k
                Hstable Hwf1 Hwf2 Hequiv Hkey Hk) as Hk1.
  assert (Hrk : row_key (primKey shape) row = Some k).
  { subst row. now rewrite stamp_row_key. }
  rewrite (@lookup_save_served store shape data o1 w k Hs (serving_hd Hserving) Hrk).
  cbn [fst snd]. split; [reflexivity|].
  destruct (@where_by_key objHash shape o2 value k Hplain Hkey Hk) as [Hr Hy].
  match goal with |- fst (lookup_find store o2 ?w1) = _ =>
    assert (Hserving1 : serving w1) by (now apply (@serving_after w _ Hserving));
    rewrite (@lookup_find_served store shape o2 w1 Hs (serving_hd Hserving1) Hr)
  end.
  cbv zeta. cbn [db clock tick console].
  change (filterCacheEntry objHash o2) with (hashObjectProps objHash o2).
  rewrite Hy, String.eqb_refl. fold row.
  rewrite (table_put_unique (primKey shape) row (db w store) Hrk).
  cbn [hd_error].
  assert (Ht : entry_timestamp row = Some (clock w (tick w)))
    by apply stamp_timestamp.
  rewrite Ht. apply Z.ltb_ge in Hfresh. rewrite Hfresh. reflexivity.
Qed.

(** X15. In a cache that the lookup module has initialised, a store
    whose primary key is [id] holds one entry for an identifier,
    whatever the parameters: an entry saved for the same identifier
    under other parameters takes the place of the first, which [find]
    then misses, without a line on the console. *)
Theorem lookup_store_holds_one_entry_per_id (that : LookupCache.Cache)
  (forwarded : LookupCache.Forwarded) (store shape : string) (id : Z)
  (p1 p2 : string) (d1 d2 : JsValue) (w : World)
  (Hinit : this = LookupCache.init that forwarded)
  (Hs : obj_get store (LookupCache.tables this) = Some shape)
  (Hpk : primKey shape = "id"%string)
  (Hserving : serving w)
  (Hother : p1 <> p2) :
  let e1 := [("id", JNum id); ("params", JStr p1)]%string in
  let e2 := [("id", JNum id); ("params", JStr p2)]%string in
  let w1 := snd (lookup_save store d1 e1 w) in
  let w2 := snd (lookup_save store d2 e2 w1) in
  filter (fun r => okey_eqb (Some (KNum id)) (row_key "id" r)) (db w2 store)
  = [stamp objHash d2 (clock w (S (tick w))) e2]
  /\ fst (lookup_find store e1 w2) = Returned None
  /\ console (snd (lookup_find store e1 w2)) = console w.
Proof.
  intros e1 e2 w1 w2.
  assert (Hk1 : forall d now,
             row_key (primKey shape) (stamp objHash d now e1) = Some (KNum id)).
  { intros d now. rewrite Hpk. reflexivity. }
  assert (Hk2 : forall d now,
             row_key (primKey shape) (stamp objHash d now e2) = Some (KNum id)).
  { intros d now. rewrite Hpk. reflexivity. }
  pose proof (@lookup_save_served store shape d1 e1 w (KNum id) Hs
                (serving_hd Hserving) (Hk1 _ _)) as Hsave1.
  assert (Hw1 : w1 = snd (lookup_save store d1 e1 w)) by reflexivity.
  rewrite Hsave1 in Hw1. cbn [snd] in Hw1.
  assert (Hserving1 : serving w1).
  { rewrite Hw1. now apply (@serving_after w _ Hserving). }
  pose proof (@lookup_save_served store shape d2 e2 w1 (KNum id) Hs
                (serving_hd Hserving1) (Hk2 _ _)) as Hsave2.
  assert (Hw2 : w2 = snd (lookup_save store d2 e2 w1)) by reflexivity.
  rewrite Hsave2 in Hw2. cbn [snd] in Hw2.
  assert (Hc1 : clock w1 = clock w /\ tick w1 = S (tick w)
                /\ console w1 = console w).
  { rewrite Hw1. repeat split. }
  destruct Hc1 as (Hc1 & Ht1 & Hl1).
  set (row2 := stamp objHash d2 (clock w (S (tick w))) e2).
  assert (Hdb2 : db w2 store =
                 insert_sorted
                   (fun a b => okey_leb (row_key (primKey shape) a)
                                 (row_key (primKey shape) b))
                   row2
                   (filter (fun old => negb (okey_eqb (Some (KNum id))
                                               (row_key (primKey shape) old)))
                      (db w1 store))).
  { rewrite Hw2. cbn [db]. rewrite String.eqb_refl, Hc1, Ht1. reflexivity. }
  assert (Hserving2 : serving w2).
  { rewrite Hw2. now apply (@serving_after w1 _ Hserving1). }
  assert (Hl2 : console w2 = console w).
  { rewrite Hw2. cbn [console]. exact Hl1. }
  split.
  { rewrite Hdb2. rewrite <- Hpk. apply table_put_unique. apply Hk2. }
  rewrite <- Hl2.
  assert (Hshape : shape = "&id, [id+params]"%string \/ shape = "&id"%string).
  { subst this. exact (lookup_shapes_by_id that forwarded store Hs Hpk). }
  destruct Hshape as [-> | ->].
  - assert (Hnone : yields (Table_where "&id, [id+params]" e1) (db w2 store) = []).
    { apply filter_is_nil. intros r Hin. unfold e1 in Hin.
      rewrite (lookup_where_by_id_and_params id p1) in Hin.
      destruct (@where_equals_hit "&id, [id+params]" "[id+params]"
                  (JArr [JNum id; JStr p1])
                  {| via := {| ix_name := "[id+params]";
                               ix_keyPath := ["id"; "params"]%string;
                               ix_compound := true; ix_multi := false |};
                     components := None |}
                  (KArr [KNum id; KStr p1]) (db w2 store) r
                  eq_refl eq_refl Hin) as (Hrow & key & Hkey & Hmatch).
      cbn [via index_keys ix_compound ix_keyPath compound_key] in Hkey.
      destruct (row_key "id" r) as [k1|] eqn:E1; [|contradiction].
      destruct (row_key "params" r) as [k2|] eqn:E2; [|contradiction].
      cbn [option_map some_list In] in Hkey. destruct Hkey as [<-|[]].
      cbn [looked_up components] in Hmatch. apply key_eqb_eq in Hmatch.
      injection Hmatch as <- <-.
      rewrite Hdb2 in Hrow. apply insert_sorted_incl in Hrow.
      destruct Hrow as [->|Hrow].
      - assert (Hp2 : row_key "params" row2 = Some (KStr p2)) by reflexivity.
        congruence.
      - apply filter_In in Hrow. destruct Hrow as [_ Hne].
        rewrite Hpk, E1 in Hne. apply negb_true_iff in Hne.
        assert (okey_eqb (Some (KNum id)) (Some (KNum id)) = true)
          by (apply okey_eqb_eq; now exists (KNum id)).
        congruence. }
    rewrite (@lookup_find_served store "&id, [id+params]" e1 w2 Hs
               (serving_hd Hserving2) eq_refl).
    cbv zeta. change (filterCacheEntry objHash e1) with e1. rewrite Hnone.
    split; reflexivity.
  - rewrite (@lookup_find_refused store "&id" e1 w2 SchemaError Hs
               (serving_hd Hserving2) eq_refl).
    split; reflexivity.
Qed.

End LookupCacheFacts.


(* ================================================================== *)
(** * The properties on a concrete instance *)
(* ================================================================== *)

(** ** The reference fingerprint is stable *)

Lemma fields_digest_Permutation (a b : list (string * JsValue)) :
  Permutation a b -> fields_digest a = fields_digest b.
Proof.
  induction 1 as [|f a b _ IH|f g a|a b c _ IH1 _ IH2].
  - reflexivity.
  - change (fields_digest (f :: a))
      with ((string_digest (fst f) + 19 * digest (snd f)) + fields_digest a).
    change (fields_digest (f :: b))
      with ((string_digest (fst f) + 19 * digest (snd f)) + fields_digest b).
    now rewrite IH.
  - change (fields_digest (g :: f :: a))
      with ((string_digest (fst g) + 19 * digest (snd g))
            + ((string_digest (fst f) + 19 * digest (snd f)) + fields_digest a)).
    change (fields_digest (f :: g :: a))
      with ((string_digest (fst f) + 19 * digest (snd f))
            + ((string_digest (fst g) + 19 * digest (snd g)) + fields_digest a)).
    lia.
  - congruence.
Qed.

Lemma digest_stable (a : JsValue) :
  forall b, js_equiv a b -> digest a = digest b.
Proof.
  induction a as [| |c|n|s|items IH|fields IH] using JsValue_nested_ind;
    intros b Hab; inversion Hab as [| | | | |? l2 Hall|? o2 o2' Hperm Hall];
    subst; try reflexivity.
  - change (items_digest items = items_digest l2).
    clear Hab. induction Hall as [|x y l r Hxy Hlr IHl]; [reflexivity|].
    inversion IH as [|? ? Hx Hl]; subst.
    change (digest x + 17 * items_digest l = digest y + 17 * items_digest r).
    now rewrite (Hx y Hxy), (IHl Hl).
  - change (fields_digest fields = fields_digest o2).
    rewrite <- (fields_digest_Permutation Hperm).
    clear Hab Hperm. induction Hall as [|f g l r [Hk Hv] Hlr IHl]; [reflexivity|].
    inversion IH as [|? ? Hx Hl]; subst.
    change ((string_digest (fst f) + 19 * digest (snd f)) + fields_digest l
            = (string_digest (fst g) + 19 * digest (snd g)) + fields_digest r).
    now rewrite Hk, (Hx _ Hv), (IHl Hl).
Qed.

Lemma digest_hash_stable (a b : JsValue) :
  js_equiv a b -> digest_hash a = digest_hash b.
Proof. intros H. unfold digest_hash. now rewrite (digest_stable H). Qed.

Lemma all_keys_sound (o : JsObject) :
  all_keys o = true ->
  forall f v, obj_get f o = Some v -> to_key v <> None.
Proof.
  unfold all_keys. rewrite forallb_forall. intros H f v Hget.
  apply obj_get_In in Hget. specialize (H _ Hget). cbn [snd] in H.
  now destruct (to_key v).
Qed.

(** ** An instance *)


Example tables_of_example_cache :
  tables example_cache =
    [ ("notes", "&params"); ("nfd/lookup", "&address, nfd");
      ("nfd/search", "&params"); ("medias/asset", "&id") ].
Proof. reflexivity. Qed.

Lemma params_read_equiv : js_equiv (JObj params_written) (JObj params_read).
Proof.
  apply equiv_obj
    with (o2' := [ ("params", JObj [("b", JNum 2); ("a", JNum 1)]); ("cursor", JNull) ]).
  - apply perm_swap.
  - constructor.
    + split; [reflexivity|]. cbn [snd].
      apply equiv_obj with (o2' := [("a", JNum 1); ("b", JNum 2)]).
      * apply perm_swap.
      * repeat constructor.
    + repeat constructor.
Qed.

Example save_then_find_in_another_order :
  fst (find digest_hash duration_ms example_cache library_members "notes"
         (where_query params_read false)
         (snd (save digest_hash example_cache library_members "notes"
                 (JStr "payload") params_written (example_world [] []))))
  = Returned
      (Entry (Some [ ("params", JStr (digest_hash (JObj [("a", JNum 1); ("b", JNum 2)])));
                     ("data", JStr "payload");
                     ("timestamp", JNum 1700000000000) ])).
Proof. vm_compute. reflexivity. Qed.

Lemma example_world_serving (notes : list Row) : serving (example_world notes []).
Proof. constructor. Qed.

Lemma example_clock_monotone (notes : list Row) (answers : list (option JsError)) :
  forall n m, (n <= m)%nat ->
              clock (example_world notes answers) n
              <= clock (example_world notes answers) m.
Proof. intros n m H. unfold example_world. cbn [clock]. lia. Qed.

(** ** C1 on the instance *)



(** ** C3 on the instance *)


Example prune_on_the_instance :
  let w := example_world [note "a" 1699999990000; note "b" 1699999999500] [] in
  fst (prune duration_ms example_cache None w) = Returned [("notes", 1)]
  /\ db (snd (prune duration_ms example_cache None w)) "notes"
     = [note "b" 1699999999500].
Proof. vm_compute. split; reflexivity. Qed.

(** ** C4 on the instance *)


Example find_on_the_boundary :
  let fresh := note "a" (1700000000000 - 999) in
  let late := note "b" (1700000000000 - 1001) in
  let w := example_world [fresh; late] [] in
  fst (find digest_hash duration_ms example_cache library_members "notes" (limit_query false 10) w)
  = Returned (Entries [fresh]).
Proof. vm_compute. reflexivity. Qed.

(** ** C5 on the instance *)

Lemma save_overwrites_witness :
  let w := example_world [] [] in
  let k := KStr (digest_hash (JObj [("a", JNum 1); ("b", JNum 2)])) in
  let again := hashObjectProps digest_hash key_written in
  let w1 := snd (save digest_hash example_cache library_members "notes" (JStr "first") key_written w) in
  let w2 := snd (save digest_hash example_cache library_members "notes" (JStr "second") again w1) in
  let latest := stamp digest_hash (JStr "second") (clock w (S (tick w))) again in
  fst (save digest_hash example_cache library_members "notes" (JStr "first") key_written w)
  = Returned tt
  /\ fst (save digest_hash example_cache library_members "notes" (JStr "second") again w1)
     = Returned tt
  /\ filter (fun x => okey_eqb (Some k) (row_key (primKey "&params") x))
       (db w2 "notes") = [latest]
  /\ obj_get "data" latest = Some (JStr "second")
  /\ entry_timestamp latest = Some (clock w (S (tick w)))
  /\ (forall calls w0,
         (forall s, db w0 s = []) ->
         stamped (run_calls digest_hash duration_ms example_cache library_members calls w0)).
Proof.
  intros w k again.
  apply (@save_overwrites digest_hash duration_ms example_cache library_members
           "notes" "&params" key_written again (JStr "first") (JStr "second") w k).
  - reflexivity.
  - apply example_world_serving.
  - discriminate.
  - discriminate.
  - reflexivity.
  - apply hashObjectProps_idempotent. apply distinct_NoDup. reflexivity.
Defined.

Example two_saves_leave_one_entry :
  let w := example_world [] [] in
  db (snd (save digest_hash example_cache library_members "notes" (JStr "second") key_written
             (snd (save digest_hash example_cache library_members "notes" (JStr "first")
                     (("timestamp", JNum 1) :: key_written) w)))) "notes"
  = [ [ ("id", JNum 5);
        ("params", JStr (digest_hash (JObj [("a", JNum 1); ("b", JNum 2)])));
        ("data", JStr "second");
        ("timestamp", JNum 1700000000400) ] ].
Proof. vm_compute. reflexivity. Qed.

(** ** C6 on the instance *)

Lemma reset_closes_the_handle_witness :
  let w := example_world [note "a" 1700000000000] [Some corrupt_schema] in
  (exists w',
      save digest_hash example_cache library_members "notes" (JStr "payload")
        params_written w
      = (Returned tt, w')
      /\ console w' = console w ++ [upgrade_warning]
      /\ (forall s, db w' s = [])
      /\ closed w' = true
      /\ (forall s, db (snd (save digest_hash example_cache library_members "notes"
                               (JStr "again") params_written w')) s = [])
      /\ fst (find digest_hash duration_ms example_cache library_members "notes"
                (where_query params_read false) w')
         = Thrown DatabaseClosedError)
  /\ fst (find digest_hash duration_ms example_cache library_members "notes"
            (where_query params_read false) w)
     = Thrown corrupt_schema
  /\ db (snd (find digest_hash duration_ms example_cache library_members "notes"
                 (where_query params_read false) w)) = db w.
Proof.
  intros w.
  destruct (@reset_closes_the_handle digest_hash duration_ms example_cache
              library_members "notes" "&params" (JStr "payload") params_written
              corrupt_schema [] w)
    as ((w' & Hsave & Hlog & Hempty & Hclosed & Hsaves & Hfinds) & Hread).
  - reflexivity.
  - reflexivity.
  - right. reflexivity.
  - constructor.
  - split.
    + exists w'. split; [exact Hsave|]. split; [exact Hlog|].
      split; [exact Hempty|]. split; [exact Hclosed|]. split.
      * apply (Hsaves "notes" "&params" (JStr "again") params_written eq_refl).
      * apply (Hfinds "notes" "&params" (where_query params_read false)
                 {| is_collection := true;
                    over := Table_where "&params"
                              (hashObjectProps digest_hash params_read) |});
          reflexivity.
    + destruct (Hread (where_query params_read false)
                  {| is_collection := true;
                     over := Table_where "&params"
                               (hashObjectProps digest_hash params_read) |}
                  eq_refl) as (Hthrown & Hdb & _).
      split; [exact Hthrown|exact Hdb].
Defined.

(** The round trip after a reset, on the instance: the entry saved
    after the reset is not stored, and [find] is rejected. *)
Example no_round_trip_after_the_reset :
  let w := example_world [note "a" 1700000000000] [Some corrupt_schema] in
  let w1 := snd (save digest_hash example_cache library_members "notes"
                   (JStr "payload") params_written w) in
  let w2 := snd (save digest_hash example_cache library_members "notes"
                   (JStr "again") params_written w1) in
  db w1 "notes" = []
  /\ console w1 = [upgrade_warning]
  /\ db w2 "notes" = []
  /\ fst (find digest_hash duration_ms example_cache library_members "notes"
            (where_query params_read false) w2)
     = Thrown DatabaseClosedError.
Proof. vm_compute. repeat split; reflexivity. Qed.

(** A read that fails with the same signal is not followed by a
    reset; [find] rejects with the error, the container keeps its
    entries and nothing is logged. *)
Lemma corrupt_read_is_not_recovered :
  let w := example_world [note "a" 1700000000000] [Some corrupt_schema] in
  let outcome := find digest_hash duration_ms example_cache library_members "notes"
                   (where_query [("params", JStr "a")] true) w in
  upgrade_signal corrupt_schema = true
  /\ fst outcome = Thrown corrupt_schema
  /\ db (snd outcome) "notes" = [note "a" 1700000000000]
  /\ console (snd outcome) = [].
Proof. vm_compute. repeat split; reflexivity. Qed.

(** ** C2 on the instance *)



(** ** C8 on the instance *)

Lemma find_breaks_its_chain_witness :
  let w := example_world
             [numbered "a" 5; numbered "b" 7; numbered "c" 5; numbered "d" 5] [] in
  find digest_hash duration_ms example_cache library_members "notes" ordered_query w
  = (Thrown TypeError, w).
Proof.
  intros w.
  destruct (@find_breaks_its_chain digest_hash duration_ms example_cache
              library_members "notes" "&params" ordered_query w eq_refl)
    as (Hwhere & _).
  apply (Hwhere [("params", JStr "c")] "params"); reflexivity.
Defined.

(** On the same input the clauses taken in the order of the design
    give the entry asked for; without its [where] the query is
    served. *)
Example find_ordered_on_the_instance :
  let w := example_world
             [numbered "a" 5; numbered "b" 7; numbered "c" 5; numbered "d" 5] [] in
  fst (find_as_specified digest_hash duration_ms example_cache "notes"
         ordered_query w)
  = Returned (Entries [numbered "c" 5])
  /\ fst (find digest_hash duration_ms example_cache library_members "notes"
            sorted_query w)
     = Returned (Entries [numbered "d" 5; numbered "c" 5]).
Proof. vm_compute. split; reflexivity. Qed.

(** ** C9 on the instance *)

Lemma member_names_pass_the_guard_witness :
  let w := example_world [note "a" 1700000000000] [] in
  find digest_hash duration_ms example_cache library_members "version"
    (where_query params_read false) w
  = (Thrown TypeError, w)
  /\ fst (save digest_hash example_cache library_members "version" (JStr "payload")
            params_written w) = Returned tt
  /\ console (snd (save digest_hash example_cache library_members "version"
                     (JStr "payload") params_written w)) = [].
Proof.
  intros w.
  destruct (@member_names_pass_the_guard digest_hash duration_ms example_cache
              library_members "version" eq_refl (or_introl eq_refl))
    as (Hfind & Hsave).
  split; [apply Hfind|].
  destruct (Hsave (JStr "payload") params_written w) as (Hreturned & _ & Hconsole).
  split; [exact Hreturned|exact Hconsole].
Defined.

(** ** C10 on the instance *)

Lemma find_reads_only_witness :
  let late := note "b" (1700000000000 - 1001) in
  let w := example_world [late] [] in
  let w' := snd (find digest_hash duration_ms example_cache library_members "notes"
                   (limit_query false 10) w) in
  fst (find digest_hash duration_ms example_cache library_members "notes" (limit_query false 10) w)
  = Returned (Entries [])
  /\ In late (db w' "notes")
  /\ ~ In late (db (snd (prune duration_ms example_cache (Some (inl "notes")) w'))
                  "notes").
Proof.
  intros late w w'. split; [vm_compute; reflexivity|].
  destruct (@find_reads_only digest_hash duration_ms example_cache library_members "notes"
              (limit_query false 10) w) as (_ & _ & _ & _ & Hprune).
  apply (Hprune late (1700000000000 - 1001)).
  - vm_compute. discriminate.
  - assert (Hf : faults (snd (find digest_hash duration_ms example_cache library_members "notes"
                                (limit_query false 10) w)) = [])
      by (vm_compute; reflexivity).
    unfold serving. rewrite Hf. constructor.
  - vm_compute. left. reflexivity.
  - reflexivity.
  - vm_compute. reflexivity.
Defined.

(** ** C7 on the instance *)

Lemma hashObjectProps_normalises_witness :
  let entry :=
    [ ("id", JNum 5);
      ("params", JObj [("a", JNum 1); ("b", JNull)]);
      ("tags", JArr [JStr "x"; JStr "y"]);
      ("cursor", JNull);
      ("next", JUndefined) ] in
  wf_obj entry
  /\ hashObjectProps digest_hash entry
     = [ ("id", JNum 5);
         ("params", JStr (digest_hash (JObj [("a", JNum 1); ("b", JNull)])));
         ("tags", JArr [JStr "x"; JStr "y"]) ]
  /\ (forall key value,
         In (key, value) (hashObjectProps digest_hash entry) ->
         value <> JNull /\ value <> JUndefined).
Proof.
  intros entry.
  assert (Hwf : wf_obj entry) by (apply distinct_NoDup; reflexivity).
  split; [exact Hwf|]. split; [reflexivity|].
  exact (proj1 (proj2 (hashObjectProps_normalises digest_hash Hwf))).
Defined.

(* ================================================================== *)
(** * Further properties on the instances *)
(* ================================================================== *)

(** ** X1 on the instance *)

Lemma save_rejects_when_reset_fails_witness :
  let w := example_world [note "a" 1700000000000]
             [Some corrupt_schema; Some quota_exceeded] in
  fst (save digest_hash example_cache library_members "notes" (JStr "payload") key_written w)
  = Thrown quota_exceeded
  /\ db (snd (save digest_hash example_cache library_members "notes" (JStr "payload") key_written w))
     = db w
  /\ console (snd (save digest_hash example_cache library_members "notes" (JStr "payload")
                     key_written w))
     = console w ++ [upgrade_warning]
  /\ faults (snd (save digest_hash example_cache library_members "notes" (JStr "payload")
                    key_written w)) = [].
Proof.
  intros w.
  apply (@save_rejects_when_reset_fails digest_hash example_cache library_members "notes" "&params"
           (JStr "payload") key_written w corrupt_schema quota_exceeded []);
    reflexivity.
Defined.

(** ** X2 on the instance *)

Lemma save_touches_one_key_witness :
  let w := example_world [note "a" 1700000000000] [] in
  let k := KStr (digest_hash (JObj [("a", JNum 1); ("b", JNum 2)])) in
  let w' := snd (save digest_hash example_cache library_members "notes" (JStr "payload")
                   key_written w) in
  (forall s, s <> "notes" -> db w' s = db w s)
  /\ (forall row,
         In row (db w' "notes") <->
         row = stamp digest_hash (JStr "payload") (clock w (tick w)) key_written
         \/ (In row (db w "notes") /\ row_key (primKey "&params") row <> Some k)).
Proof.
  intros w k.
  apply (@save_touches_one_key digest_hash example_cache library_members "notes" "&params"
           (JStr "payload") key_written w k); reflexivity.
Defined.

(** ** X3 on the instance *)

Lemma prune_stops_at_unknown_store_witness :
  let w := example_world [note "a" 1699999990000; note "b" 1699999999500] [] in
  exists w',
    prune duration_ms example_cache (Some (inr (["notes"] ++ "nope" :: ["nfd/search"]))) w
    = (Thrown TypeError, w')
    /\ (forall i s,
           nth_error ["notes"] i = Some s ->
           let cutoff := clock w (tick w + i)%nat
                         - getExpiration duration_ms example_cache s in
           db w' s = filter (fun e => negb (stale cutoff e)) (db w s))
    /\ (forall s, ~ In s ["notes"] -> db w' s = db w s).
Proof.
  intros w.
  apply (@prune_stops_at_unknown_store duration_ms example_cache
           ["notes"] "nope" ["nfd/search"] w).
  - apply distinct_NoDup. reflexivity.
  - intros s [<-|[]]. discriminate.
  - reflexivity.
  - apply example_world_serving.
Defined.

Example prune_stops_on_the_instance :
  let w := example_world [note "a" 1699999990000; note "b" 1699999999500] [] in
  let outcome :=
    prune duration_ms example_cache (Some (inr ["notes"; "nope"; "nfd/search"])) w in
  fst outcome = Thrown TypeError
  /\ db (snd outcome) "notes" = [note "b" 1699999999500].
Proof. vm_compute. split; reflexivity. Qed.

(** ** X4 on the instance *)

Lemma expired_stays_expired_witness :
  let late := note "b" (1700000000000 - 1001) in
  let w1 := example_world [late] [] in
  let w2 := later_world [late] in
  fst (isExpired duration_ms example_cache "notes" late w2) = Returned true
  /\ forall query, q_includeExpired query = false ->
                   ~ returned (fst (find digest_hash duration_ms example_cache library_members "notes"
                                      query w2)) late.
Proof.
  intros late w1 w2.
  apply (@expired_stays_expired digest_hash duration_ms example_cache library_members "notes"
           late w1 w2).
  - apply example_clock_monotone.
  - reflexivity.
  - unfold w1, w2, example_world, later_world. cbn [tick]. lia.
  - reflexivity.
Defined.

(** ** X5 on the instance *)

Lemma entry_without_timestamp_stays_witness :
  let entry := [("params", JStr "a"); ("data", JStr "payload")] in
  (forall w, fst (isExpired duration_ms example_cache "notes" entry w)
             = Returned false)
  /\ (forall w,
         serving w -> In entry (db w "notes") ->
         In entry (db (snd (prune duration_ms example_cache (Some (inl "notes")) w))
                     "notes"))
  /\ (forall data key now, stamp digest_hash data now key <> entry).
Proof.
  intros entry.
  apply (@entry_without_timestamp_stays digest_hash duration_ms example_cache
           "notes" "&params" entry); reflexivity.
Defined.

(** ** X6 on the instance *)


(** ** X7 on the instance *)

Lemma fresh_entry_survives_prune_witness :
  let w := example_world [note "z" 1699999990000] [] in
  let w1 := snd (save digest_hash example_cache library_members "notes"
                   (JStr "payload") key_written w) in
  let w2 := snd (prune duration_ms example_cache (Some (inl "notes")) w1) in
  let row := stamp digest_hash (JStr "payload") (clock w (tick w)) key_written in
  (exists report,
      fst (prune duration_ms example_cache (Some (inl "notes")) w1) = Returned report)
  /\ In row (db w2 "notes")
  /\ fst (find digest_hash duration_ms example_cache library_members "notes"
            (where_query params_read false) w2)
     = Returned (Entry (Some row)).
Proof.
  intros w.
  apply (@fresh_entry_survives_prune digest_hash duration_ms example_cache
           library_members "notes" "&params" key_written params_read
           (JStr "payload")
           (JStr (digest_hash (JObj [("b", JNum 2); ("a", JNum 1)]))) w
           (KStr (digest_hash (JObj [("a", JNum 1); ("b", JNum 2)])))).
  - reflexivity.
  - reflexivity.
  - discriminate.
  - discriminate.
  - reflexivity.
  - reflexivity.
  - reflexivity.
  - apply example_world_serving.
  - apply example_clock_monotone.
  - vm_compute. discriminate.
Defined.

Example prune_between_save_and_find :
  let w := example_world [note "z" 1699999990000] [] in
  let w1 := snd (save digest_hash example_cache library_members "notes" (JStr "payload")
                   key_written w) in
  fst (prune duration_ms example_cache (Some (inl "notes")) w1)
  = Returned [("notes", 1)].
Proof. vm_compute. reflexivity. Qed.

(** ** X8 on the instance *)

Example init_on_the_instance :
  let cache :=
    init (new_Cache
            {| user_namespace := None;
               user_stores :=
                 Some [ StoreWithIndex "medias/asset" (Some "&params");
                        StoreWithIndex "notes" (Some "&id");
                        StoreWithIndex "notes" (Some "");
                        StoreName "drafts" ];
               user_logExpiration := None;
               user_expiration_default := None;
               user_expiration := [] |})
         example_stack in
  obj_get "medias/asset" (tables cache) = Some "&id"
  /\ obj_get "notes" (tables cache) = Some "&params"
  /\ obj_get "drafts" (tables cache) = Some "&params"
  /\ obj_get "indexer/asset" (tables cache) = None.
Proof. vm_compute. repeat split; reflexivity. Qed.

(** ** X9 on the instance *)


(** ** X10 on the instance *)


Example durations_on_the_instance :
  let cache (durations : list (string * string)) :=
    init (new_Cache
            {| user_namespace := None;
               user_stores := Some [StoreName "notes"];
               user_logExpiration := None;
               user_expiration_default := None;
               user_expiration := durations |})
         example_stack in
  getExpiration duration_ms (cache [("notes", "1s")]) "notes" = 1000
  /\ getExpiration duration_ms (cache [("notes", "1s")]) "medias/asset" = 86400000
  /\ getExpiration duration_ms (cache [("medias/asset", "")]) "medias/asset" = 3600000
  /\ getExpiration duration_ms (cache []) "notes" = 3600000.
Proof. vm_compute. repeat split; reflexivity. Qed.

(** ** X16 on the instance *)

Lemma one_row_for_a_primary_key_witness :
  let w := example_world [] [Some quota_exceeded; None; Some corrupt_schema] in
  let calls :=
    [ call_save "notes" (JStr "first") key_written;
      call_save "notes" (JStr "second") key_read;
      call_find "notes" (where_query params_read false);
      call_save "notes" (JStr "third") [("params", JStr "a")];
      call_prune None;
      call_save "notes" (JStr "fourth") key_written ] in
  keyed example_cache (run_calls digest_hash duration_ms example_cache library_members calls w)
  /\ forall store shape entry other,
       obj_get store (tables example_cache) = Some shape ->
       In entry (db (run_calls digest_hash duration_ms example_cache library_members calls w) store) ->
       In other (db (run_calls digest_hash duration_ms example_cache library_members calls w) store) ->
       row_key (primKey shape) entry = row_key (primKey shape) other ->
       entry = other.
Proof.
  intros w calls.
  apply (@one_row_for_a_primary_key digest_hash duration_ms example_cache library_members calls w).
  intros store shape _. unfold w, example_world. cbn [db].
  destruct (String.eqb store "notes"); split; constructor.
Defined.

(** ** X17 on the instance *)

Lemma find_returns_in_order_witness :
  let w := example_world
             [numbered "a" 5; numbered "b" 7; numbered "c" 5; numbered "d" 5] [] in
  let found := [numbered "d" 5; numbered "c" 5] in
  let ascending :=
    fun a b => okey_leb (row_key "params" a) (row_key "params" b) = true in
  (forall entry, In entry found -> row_key "params" entry <> None)
  /\ StronglySorted (fun a b => ascending b a) found.
Proof.
  intros w found.
  apply (@find_returns_in_order digest_hash duration_ms example_cache library_members
           "notes" "&params" "params"
           {| via := primary "&params"; components := None |}
           sorted_query w found).
  - reflexivity.
  - reflexivity.
  - reflexivity.
  - reflexivity.
  - reflexivity.
  - reflexivity.
  - vm_compute. reflexivity.
Defined.

(** ** X18 on the instance *)

Lemma logging_is_observation_only_witness :
  let w := example_world [note "a" 1699999990000; note "b" 1700000000000] [] in
  fst (find digest_hash duration_ms quiet_cache library_members "notes" (limit_query false 10) w)
  = fst (find digest_hash duration_ms example_cache library_members "notes" (limit_query false 10) w)
  /\ alike
       (snd (find digest_hash duration_ms quiet_cache library_members "notes" (limit_query false 10) w))
       (snd (find digest_hash duration_ms example_cache library_members "notes"
               (limit_query false 10) w)).
Proof.
  intros w.
  apply (@logging_is_observation_only digest_hash duration_ms example_cache
           quiet_cache); reflexivity.
Defined.

Example the_log_on_the_instance :
  let w := example_world [note "a" 1699999990000; note "b" 1700000000000] [] in
  console (snd (find digest_hash duration_ms example_cache library_members "notes"
                  (limit_query false 10) w))
  = [expiration_warning "notes"]
  /\ console (snd (find digest_hash duration_ms quiet_cache library_members "notes"
                     (limit_query false 10) w)) = [].
Proof. vm_compute. split; reflexivity. Qed.

(** ** The lookup module on an instance *)

Example tables_of_lookup_cache :
  obj_get "asset" (LookupCache.tables lookup_cache) = Some "&id, [id+params]"
  /\ obj_get "assets" (LookupCache.tables lookup_cache) = Some "&params"
  /\ obj_get "icon" (LookupCache.tables lookup_cache) = Some "&id"
  /\ obj_get "nfds" (LookupCache.tables lookup_cache) = None
  /\ primKey "&id, [id+params]" = "id".
Proof. vm_compute. repeat split; reflexivity. Qed.

Lemma world_with_serving (store : string) (rows : list Row) :
  serving (world_with store rows []).
Proof. constructor. Qed.

(** ** X11 on the instance *)

Lemma lookup_find_never_rejects_witness :
  let w := world_with "asset" [asset_row 5 "a" 1700000000000] [Some corrupt_schema] in
  let query := [("id", JNum 5); ("params", JStr "a")] in
  (exists result w',
      LookupCache.find digest_hash duration_ms lookup_cache library_members
        "asset" query w
      = (Returned result, w') /\ db w' = db w)
  /\ fst (LookupCache.find digest_hash duration_ms lookup_cache library_members
            "asset" query w)
     = Returned None
  /\ console (snd (LookupCache.find digest_hash duration_ms lookup_cache
                     library_members "asset" query w)) = console w.
Proof.
  intros w query.
  destruct (@lookup_find_never_rejects digest_hash duration_ms lookup_cache
              library_members "asset" query w) as (Hreturns & Hfailed & _).
  split; [exact Hreturns|].
  apply (Hfailed "&id, [id+params]" corrupt_schema []); reflexivity.
Defined.

(** A query that no index of the store serves is a miss, whatever
    the store holds. *)
Example lookup_find_off_the_index :
  let w := world_with "accounts" [asset_row 5 "a" 1700000000000] [] in
  let outcome :=
    LookupCache.find digest_hash duration_ms lookup_cache library_members "accounts"
      [("id", JNum 5); ("params", JStr "a")] w in
  fst outcome = Returned None /\ console (snd outcome) = [].
Proof. vm_compute. split; reflexivity. Qed.

(** ** X12 on the instance *)

Lemma lookup_find_serves_fresh_witness :
  let old := asset_row 5 "a" 1699999990000 in
  let w := world_with "accounts" [old] [] in
  let query := [("params", JStr "a")] in
  fst (LookupCache.find digest_hash duration_ms lookup_cache library_members
         "accounts" query w)
  = Returned None
  /\ console (snd (LookupCache.find digest_hash duration_ms lookup_cache
                     library_members "accounts" query w))
     = console w ++ [expiration_warning "accounts"].
Proof.
  intros old w query.
  destruct (@lookup_find_serves_fresh digest_hash duration_ms lookup_cache
              library_members "accounts" query w) as (_ & Hexpired).
  apply (Hexpired "&params" (JStr "a") (KStr "a") old 1699999990000); reflexivity.
Defined.

Example lookup_find_on_the_instance :
  let fresh := asset_row 5 "a" 1700000000000 in
  let w := world_with "asset" [fresh] [] in
  fst (LookupCache.find digest_hash duration_ms lookup_cache library_members "asset"
         [("params", JStr "a"); ("id", JNum 5); ("note", JNull)] w)
  = Returned (Some fresh).
Proof. vm_compute. reflexivity. Qed.

(** ** X13 on the instance *)

Lemma lookup_save_logs_failures_witness :
  let w := world_with "asset" [asset_row 5 "a" 1700000000000] [Some corrupt_schema] in
  let entry := [("id", JNum 5); ("params", JStr "b")] in
  (exists w',
      LookupCache.save digest_hash lookup_cache library_members "asset" (JStr "payload") entry w
      = (Returned tt, w'))
  /\ db (snd (LookupCache.save digest_hash lookup_cache library_members "asset" (JStr "payload")
                entry w)) = db w
  /\ console (snd (LookupCache.save digest_hash lookup_cache library_members "asset" (JStr "payload")
                     entry w))
     = console w ++ [LookupCache.write_failure "asset" corrupt_schema].
Proof.
  intros w entry.
  destruct (@lookup_save_logs_failures digest_hash lookup_cache library_members "asset"
              (JStr "payload") entry w) as (Hreturns & Hfailed & _).
  split; [exact Hreturns|].
  apply (Hfailed "&id, [id+params]" corrupt_schema []); reflexivity.
Defined.

(** ** X14 on the instance *)

Lemma lookup_save_then_find_witness :
  let w := world_with "accounts" [] [] in
  fst (LookupCache.save digest_hash lookup_cache library_members "accounts"
         (JStr "payload") params_written w) = Returned tt
  /\ fst (LookupCache.find digest_hash duration_ms lookup_cache library_members
            "accounts" params_read
            (snd (LookupCache.save digest_hash lookup_cache library_members
                    "accounts" (JStr "payload") params_written w)))
     = Returned (Some (stamp digest_hash (JStr "payload") (clock w (tick w))
                         params_written)).
Proof.
  intros w.
  apply (@lookup_save_then_find digest_hash duration_ms lookup_cache library_members
           "accounts" "&params" params_written params_read (JStr "payload")
           (JStr (digest_hash (JObj [("b", JNum 2); ("a", JNum 1)]))) w
           (KStr (digest_hash (JObj [("a", JNum 1); ("b", JNum 2)])))).
  - exact digest_hash_stable.
  - apply distinct_NoDup. reflexivity.
  - apply distinct_NoDup. reflexivity.
  - exact params_read_equiv.
  - reflexivity.
  - reflexivity.
  - discriminate.
  - discriminate.
  - reflexivity.
  - reflexivity.
  - apply world_with_serving.
  - vm_compute. discriminate.
Defined.

(** ** X15 on the instance *)

Lemma lookup_store_holds_one_entry_per_id_witness :
  let w := world_with "asset" [] [] in
  let e1 := [("id", JNum 5); ("params", JStr "a")] in
  let e2 := [("id", JNum 5); ("params", JStr "b")] in
  let w1 := snd (LookupCache.save digest_hash lookup_cache library_members "asset"
                   (JStr "one") e1 w) in
  let w2 := snd (LookupCache.save digest_hash lookup_cache library_members "asset"
                   (JStr "two") e2 w1) in
  filter (fun r => okey_eqb (Some (KNum 5)) (row_key "id" r)) (db w2 "asset")
  = [stamp digest_hash (JStr "two") (clock w (S (tick w))) e2]
  /\ fst (LookupCache.find digest_hash duration_ms lookup_cache library_members
            "asset" e1 w2)
     = Returned None
  /\ console (snd (LookupCache.find digest_hash duration_ms lookup_cache
                     library_members "asset" e1 w2))
     = console w.
Proof.
  intros w.
  apply (@lookup_store_holds_one_entry_per_id digest_hash duration_ms lookup_cache
           library_members (LookupCache.new_Cache lookup_forwarded) lookup_forwarded
           "asset" "&id, [id+params]" 5 "a" "b" (JStr "one") (JStr "two") w).
  - reflexivity.
  - reflexivity.
  - reflexivity.
  - apply world_with_serving.
  - discriminate.
Defined.

(** Without the hypothesis on the cache: under a compound index that
    repeats the identifier, the table store answers the query by
    identifier and parameters from the identifier alone, and [find]
    returns the entry saved under the other parameters. *)
Example lookup_hit_under_a_repeated_path :
  let odd := {| LookupCache.this_options := LookupCache.options lookup_forwarded;
                LookupCache.v := 1;
                LookupCache.tables := [("odd", "&id, [id+id+params]")] |} in
  let w := world_with "odd" [] [] in
  let e1 := [("id", JNum 5); ("params", JStr "a")] in
  let e2 := [("id", JNum 5); ("params", JStr "b")] in
  let w1 := snd (LookupCache.save digest_hash odd library_members "odd"
                   (JStr "one") e1 w) in
  let w2 := snd (LookupCache.save digest_hash odd library_members "odd"
                   (JStr "two") e2 w1) in
  primKey "&id, [id+id+params]" = "id"%string
  /\ fst (LookupCache.find digest_hash duration_ms odd library_members "odd" e1 w2)
     = Returned (Some (stamp digest_hash (JStr "two") (clock w (S (tick w))) e2)).
Proof. vm_compute. split; reflexivity. Qed.

(** ** X19 on the instance *)

Lemma find_limits_agree_witness :
  let fresh := note "b" 1700000000000 in
  let w := example_world [note "a" 1699999990000; fresh; note "c" 1700000000100] [] in
  let found := [fresh; note "c" 1700000000100] in
  fst (find digest_hash duration_ms example_cache library_members "notes"
         (with_limit (Some 1) (limit_query false 10)) w)
  = Returned (Entries (firstn (Z.to_nat 1) found))
  /\ fst (find digest_hash duration_ms example_cache library_members "notes"
            (with_limit None (limit_query false 10)) w)
     = Returned (Entry (hd_error found)).
Proof.
  intros fresh w found.
  destruct (@find_limits_agree digest_hash duration_ms example_cache library_members
              "notes" (limit_query false 10) w 1 5 found) as (Hfirst & Hnone).
  - lia.
  - vm_compute. reflexivity.
  - split; [exact Hfirst|]. apply Hnone; [lia|]. right. right. right. reflexivity.
Defined.
